(** * OS-Simulator: the simulation engine of [src/App.js]

    A shallow embedding of the scheduling, paging, disk and deadlock
    routines of the simulator, and the properties its specification
    states about them.

    Conventions.
    - JavaScript numbers that the simulator only ever adds, subtracts and
      compares are integers of [Z]; array indices and step counters are
      [nat].
    - [null] is [None].
    - [Array.prototype.sort] is stable; with a comparator [a.k - b.k] it
      is the stable ascending sort on the key [k], here [sort_by].
    - A [while] loop is a step function iterated by [while_loop] under a
      fuel bound; the theorems show that the fuel given is enough. *)

From Stdlib Require Import String.
From Stdlib Require Import ZArith List Bool Lia Permutation QArith.
Import ListNotations.
#[local] Abbreviation length := Datatypes.length (only parsing).
Local Open Scope Z_scope.

Set Implicit Arguments.

(** ** Generic pieces *)

(** [arr.sort((a,b) => key(a) - key(b))]: stable insertion into the sorted
    tail, an element staying in front of later elements with the same key. *)
Section Sorting.
Variable A : Type.
Variable key : A -> Z.

Fixpoint insert_by (x : A) (l : list A) : list A :=
  match l with
  | [] => [x]
  | y :: ys => if key x <=? key y then x :: y :: ys else y :: insert_by x ys
  end.

Definition sort_by (l : list A) : list A := fold_right insert_by [] l.
End Sorting.

(** [while (...) { ... }]: [step] either continues with a new state
    ([inl]) or leaves the loop with the result ([inr]). *)
Section While.
Variables S R : Type.
Variable step : S -> S + R.

Fixpoint while_loop (fuel : nat) (s : S) : option R :=
  match fuel with
  | O => None
  | Datatypes.S fuel' =>
      match step s with
      | inl s' => while_loop fuel' s'
      | inr r => Some r
      end
  end.
End While.

(** [arr[i] = v] for an index inside the array. *)
Fixpoint set_nth (A : Type) (i : nat) (v : A) (l : list A) : list A :=
  match l, i with
  | [], _ => []
  | _ :: xs, O => v :: xs
  | x :: xs, Datatypes.S i' => x :: set_nth i' v xs
  end.

(** [arr.map((x, i) => ...)] and [arr.forEach((x, i) => ...)] see each
    element with its index. *)
Definition indexed (A : Type) (l : list A) : list (nat * A) :=
  combine (seq 0 (length l)) l.

(** ** Page replacement *)

Record TimelineStep := mkStep {
  step_no : nat;
  page : Z;
  frames : list (option Z);
  hit : bool
}.

Record PageResult := mkPageResult {
  timeline : list TimelineStep;
  faults : nat
}.

Definition opt_Z_eqb (a b : option Z) : bool :=
  match a, b with
  | Some x, Some y => x =? y
  | None, None => true
  | _, _ => false
  end.

(** [frameArr.includes(p)] on an array of pages and [null]s. *)
Definition includes (frameArr : list (option Z)) (p : Z) : bool :=
  existsb (opt_Z_eqb (Some p)) frameArr.

Record fifo_state := mkFifo {
  fifo_frameArr : list (option Z);
  fifo_ptr : nat;
  fifo_faults : nat;
  fifo_timeline : list TimelineStep
}.

(** The body of [refs.forEach((p,i) => ...)] in [fifoPage].  [ptr] stays
    below [frames] when [frames >= 1], so the write is inside the array;
    the model is not meant for [frames = 0], where the source's
    [ptr % frames] is [NaN]. *)
Definition fifo_step (nframes : nat) (st : fifo_state) (ip : nat * Z) : fifo_state :=
  let '(i, p) := ip in
  let h := includes (fifo_frameArr st) p in
  let st1 :=
    if h then st
    else mkFifo (set_nth (fifo_ptr st) (Some p) (fifo_frameArr st))
                ((fifo_ptr st + 1) mod nframes)%nat
                (Datatypes.S (fifo_faults st))
                (fifo_timeline st) in
  mkFifo (fifo_frameArr st1) (fifo_ptr st1) (fifo_faults st1)
         (fifo_timeline st1 ++ [mkStep i p (fifo_frameArr st1) h]).

Definition fifoPage (refs : list Z) (nframes : nat) : PageResult :=
  let st := fold_left (fifo_step nframes) (indexed refs)
                      (mkFifo (repeat None nframes) 0 0 []) in
  mkPageResult (fifo_timeline st) (fifo_faults st).

(** [lastUsed], a [Map] from page to step index: the newest binding of a
    page is found first. *)
Definition lastUsed_map := list (Z * nat).

Fixpoint lu_get (m : lastUsed_map) (p : Z) : option nat :=
  match m with
  | [] => None
  | (k, v) :: m' => if k =? p then Some v else lu_get m' p
  end.

Definition lu_set (m : lastUsed_map) (p : Z) (i : nat) : lastUsed_map := (p, i) :: m.

(** [lastUsed.get(q) ?? -1] *)
Definition lu_time (m : lastUsed_map) (q : Z) : Z :=
  match lu_get m q with
  | Some i => Z.of_nat i
  | None => -1
  end.

(** [frameArr.indexOf(p)], [None] for [-1]. *)
Fixpoint indexOf (l : list Z) (p : Z) : option nat :=
  match l with
  | [] => None
  | x :: xs => if x =? p then Some O
               else match indexOf xs p with
                    | Some k => Some (Datatypes.S k)
                    | None => None
                    end
  end.

(** [[...frameArr, ...Array(frames - frameArr.length).fill(null)]] *)
Definition pad_frames (nframes : nat) (frameArr : list Z) : list (option Z) :=
  map Some frameArr ++ repeat None (nframes - length frameArr).

(** The victim search of [lruPage]: start from [frameArr[0]] and move to
    a page only when its time is strictly smaller. *)
Definition lru_victim (m : lastUsed_map) (frameArr : list Z) (first : Z) : Z :=
  fst (fold_left (fun (acc : Z * Z) (q : Z) =>
                    let t := lu_time m q in
                    if t <? snd acc then (q, t) else acc)
                 frameArr (first, lu_time m first)).

Record lru_state := mkLru {
  lru_frameArr : list Z;
  lru_lastUsed : lastUsed_map;
  lru_faults : nat;
  lru_timeline : list TimelineStep
}.

(** The body of [refs.forEach((p,i) => ...)] in [lruPage].  With no frame
    at all ([frames = 0]) the source writes [frameArr[-1]], which is not
    an element: the array stays empty. *)
Definition lru_step (nframes : nat) (st : lru_state) (ip : nat * Z) : lru_state :=
  let '(i, p) := ip in
  match indexOf (lru_frameArr st) p with
  | Some _ =>
      mkLru (lru_frameArr st) (lu_set (lru_lastUsed st) p i) (lru_faults st)
            (lru_timeline st ++ [mkStep i p (pad_frames nframes (lru_frameArr st)) true])
  | None =>
      let fr :=
        if (length (lru_frameArr st) <? nframes)%nat then lru_frameArr st ++ [p]
        else match lru_frameArr st with
             | [] => []
             | first :: _ =>
                 let v := lru_victim (lru_lastUsed st) (lru_frameArr st) first in
                 match indexOf (lru_frameArr st) v with
                 | Some evIdx => set_nth evIdx p (lru_frameArr st)
                 | None => lru_frameArr st
                 end
             end in
      mkLru fr (lu_set (lru_lastUsed st) p i) (Datatypes.S (lru_faults st))
            (lru_timeline st ++ [mkStep i p (map Some fr) false])
  end.

(** [timeline.forEach(t => { if (t.frames.length < frames) ... })] *)
Definition normalize (nframes : nat) (t : TimelineStep) : TimelineStep :=
  if (length (frames t) <? nframes)%nat
  then mkStep (step_no t) (page t)
              (frames t ++ repeat None (nframes - length (frames t))) (hit t)
  else t.

Definition lruPage (refs : list Z) (nframes : nat) : PageResult :=
  let st := fold_left (lru_step nframes) (indexed refs) (mkLru [] [] 0 []) in
  mkPageResult (map (normalize nframes) (lru_timeline st)) (lru_faults st).

Definition classic_refs : list Z := [7; 0; 1; 2; 0; 3; 0; 4; 2; 3; 0; 3; 2].

(** ** Disk scheduling *)

Definition pathFCFS (queue : list Z) (head : Z) : list Z := head :: queue.

(** The body of [q.forEach((v,i) => { const d = Math.abs(v-cur);
    if (d < best) { best = d; idx = i; } })]; [best] starts at
    [Infinity], here [None]. *)
Definition nearest_step (cur : Z) (acc : nat * option Z) (iv : nat * Z)
  : nat * option Z :=
  let '(i, v) := iv in
  let d := Z.abs (v - cur) in
  match snd acc with
  | None => (i, Some d)
  | Some best => if d <? best then (i, Some d) else acc
  end.

Definition nearest (q : list Z) (cur : Z) : nat :=
  fst (fold_left (nearest_step cur) (indexed q) (O, None)).

(** [q.splice(idx, 1)] leaves [q] without its element at [idx]. *)
Fixpoint remove_nth (A : Type) (i : nat) (l : list A) : list A :=
  match l, i with
  | [], _ => []
  | _ :: xs, O => xs
  | x :: xs, Datatypes.S i' => x :: remove_nth i' xs
  end.

Record sstf_state := mkSstf {
  sstf_q : list Z;
  sstf_cur : Z;
  sstf_path : list Z
}.

(** One turn of [while (q.length) { ... }] in [pathSSTF]. *)
Definition sstf_step (st : sstf_state) : sstf_state + list Z :=
  match sstf_q st with
  | [] => inr (sstf_path st)
  | v0 :: _ =>
      let idx := nearest (sstf_q st) (sstf_cur st) in
      let cur := nth idx (sstf_q st) v0 in
      inl (mkSstf (remove_nth idx (sstf_q st)) cur (sstf_path st ++ [cur]))
  end.

Definition pathSSTF (queue : list Z) (head : Z) : option (list Z) :=
  while_loop sstf_step (Datatypes.S (length queue)) (mkSstf queue head [head]).

Definition pathSCAN (queue : list Z) (head : Z) (max : Z) : list Z :=
  let below := sort_by (fun x => x) (filter (fun x => x <? head) queue) in
  let above := sort_by (fun x => x) (filter (fun x => x >=? head) queue) in
  head :: above ++ max :: rev below.

Definition pathCSCAN (queue : list Z) (head : Z) (max : Z) : list Z :=
  let above := sort_by (fun x => x) (filter (fun x => x >=? head) queue) in
  let below := sort_by (fun x => x) (filter (fun x => x <? head) queue) in
  head :: above ++ max :: 0 :: below.


(** ** Banker's safety check *)

(** A matrix cell as the source computes with it: an integer, or [NaN]
    (here [None]) once an [undefined] read outside a row has entered the
    arithmetic. *)
Definition cell := option Z.

Definition cell_sub (a b : cell) : cell :=
  match a, b with
  | Some x, Some y => Some (x - y)
  | _, _ => None
  end.

Definition cell_add (a b : cell) : cell :=
  match a, b with
  | Some x, Some y => Some (x + y)
  | _, _ => None
  end.

(** [a > b]: false as soon as one side is [NaN]. *)
Definition cell_gt (a b : cell) : bool :=
  match a, b with
  | Some x, Some y => x >? y
  | _, _ => false
  end.

(** The end of a call: a returned value, or the [TypeError] of reading an
    element of a row that does not exist. *)
Inductive outcome (A : Type) : Type :=
| Returned (a : A)
| TypeError.
Arguments TypeError {A}.

Record BankersResult := mkBankers {
  safe : bool;
  sequence : list nat;
  need : list (list cell)
}.

(** [row[j]] of a matrix given as arrays of numbers. *)
Definition at_col (row : list Z) (j : nat) : cell := nth_error row j.

(** Row [i] of [need]: [Array.from({length:m}, (_,j) => max[i][j] - alloc[i][j])].
    The callback runs only for [m > 0], and then [alloc[i]] has to exist. *)
Definition need_row (m : nat) (mrow : list Z) (arow : option (list Z))
  : outcome (list cell) :=
  match m, arow with
  | O, _ => Returned []
  | _, None => TypeError
  | _, Some ar => Returned (map (fun j => cell_sub (at_col mrow j) (at_col ar j)) (seq 0 m))
  end.

Fixpoint need_rows (m : nat) (i : nat) (maxrows : list (list Z)) (alloc : list (list Z))
  : outcome (list (list cell)) :=
  match maxrows with
  | [] => Returned []
  | mrow :: rest =>
      match need_row m mrow (nth_error alloc i) with
      | TypeError => TypeError
      | Returned r =>
          match need_rows m (Datatypes.S i) rest alloc with
          | TypeError => TypeError
          | Returned rs => Returned (r :: rs)
          end
      end
  end.

Record bankers_state := mkBState {
  b_work : list cell;
  b_finish : list bool;
  b_seq : list nat;
  b_progress : bool
}.

(** [need[i][j] > work[j]] for no [j < m]; the source leaves its inner
    loop at the first such [j], which decides the same flag [ok]. *)
Definition finishable (m : nat) (need_i : list cell) (work : list cell) : bool :=
  forallb (fun j => negb (cell_gt (nth j need_i None) (nth j work None))) (seq 0 m).

(** [for (j < m) work[j] += alloc[i][j]] *)
Definition release (m : nat) (alloc_i : list Z) (work : list cell) : list cell :=
  map (fun j => cell_add (nth j work None) (at_col alloc_i j)) (seq 0 m).

(** The body of [for (let i = 0; i < n; i++) if (!finish[i]) { ... }]. *)
Definition scan_step (m : nat) (nd : list (list cell)) (alloc : list (list Z))
  (st : bankers_state) (i : nat) : bankers_state :=
  if nth i (b_finish st) true then st
  else if finishable m (nth i nd []) (b_work st)
  then mkBState (release m (nth i alloc []) (b_work st))
                (set_nth i true (b_finish st))
                (b_seq st ++ [i]) true
  else st.

(** One turn of [while (progress) { progress = false; for ... }]. *)
Definition round_step (n m : nat) (nd : list (list cell)) (alloc : list (list Z))
  (st : bankers_state) : bankers_state + bankers_state :=
  if b_progress st
  then inl (fold_left (scan_step m nd alloc) (seq 0 n)
                      (mkBState (b_work st) (b_finish st) (b_seq st) false))
  else inr st.

(** [isSafe(available, max, alloc)].  [None] only if the rounds were not
    over within the fuel, which [rounds_end] excludes. *)
Definition isSafe (available : list Z) (max alloc : list (list Z))
  : option (outcome BankersResult) :=
  let n := length max in
  let m := length available in
  match need_rows m 0 max alloc with
  | TypeError => Some TypeError
  | Returned nd =>
      match while_loop (round_step n m nd alloc) (n + 2)
                       (mkBState (map Some available) (repeat false n) [] true) with
      | None => None
      | Some st =>
          let sf := forallb (fun f => f) (b_finish st) in
          Some (Returned (mkBankers sf (if sf then b_seq st else []) nd))
      end
  end.


(** ** CPU scheduling *)

Record Process := mkProcess {
  pid : String.string;
  arrival : Z;
  burst : Z;
  priority : option Z
}.

(** A schedule entry [{pid, start, end}]; [srtf] pushes entries with
    [end: null] and closes them later. *)
Record Segment := mkSegment {
  seg_pid : String.string;
  seg_start : Z;
  seg_end : option Z
}.

(** A number read out of a field that may hold [null]: [null] counts as 0
    in arithmetic. *)
Definition num_of (x : option Z) : Z :=
  match x with
  | Some z => z
  | None => 0
  end.

(** [x ?? d] *)
Definition nullish (x : option Z) (d : Z) : Z :=
  match x with
  | Some z => z
  | None => d
  end.

(** [Math.min(...processes.map(p => p.arrival))].  On the empty list the
    source has [Infinity]; every caller then skips its loop, so the value
    chosen here for that case is never used. *)
Definition min_arrival (processes : list Process) : Z :=
  match processes with
  | [] => 0
  | p :: ps => fold_left Z.min (map arrival ps) (arrival p)
  end.

(** A [Set] of pids, in insertion order. *)
Definition pid_set := list String.string.

Definition set_has (s : pid_set) (x : String.string) : bool :=
  existsb (String.eqb x) s.

Definition set_add (s : pid_set) (x : String.string) : pid_set :=
  if set_has s x then s else s ++ [x].

Definition fcfs_step (acc : Z * list Segment) (p : Process) : Z * list Segment :=
  let t := Z.max (fst acc) (arrival p) in
  (t + burst p, snd acc ++ [mkSegment (pid p) t (Some (t + burst p))]).

Definition fcfs (processes : list Process) : list Segment :=
  let procs := sort_by arrival processes in
  snd (fold_left fcfs_step procs (0, [])).

Record sjf_state := mkSjf {
  sjf_ready : list Process;
  sjf_t : Z;
  sjf_schedule : list Segment;
  sjf_seen : pid_set
}.

(** [for (const p of procs) if (!seen.has(p.pid) && p.arrival <= t &&
    !ready.find(r => r.pid === p.pid)) ready.push(p)] *)
Definition sjf_admit (seen : pid_set) (t : Z) (ready : list Process) (p : Process)
  : list Process :=
  if negb (set_has seen (pid p)) && (arrival p <=? t)
     && negb (existsb (fun r => String.eqb (pid r) (pid p)) ready)
  then ready ++ [p] else ready.

(** One turn of [while (seen.size < procs.length) { ... }] in [sjf]. *)
Definition sjf_step (procs : list Process) (st : sjf_state)
  : sjf_state + list Segment :=
  if (length (sjf_seen st) <? length procs)%nat then
    let ready := fold_left (sjf_admit (sjf_seen st) (sjf_t st)) procs (sjf_ready st) in
    match sort_by burst ready with
    | [] => inl (mkSjf ready (sjf_t st + 1) (sjf_schedule st) (sjf_seen st))
    | p :: rest =>
        inl (mkSjf rest (sjf_t st + burst p)
                   (sjf_schedule st
                      ++ [mkSegment (pid p) (sjf_t st) (Some (sjf_t st + burst p))])
                   (set_add (sjf_seen st) (pid p)))
    end
  else inr (sjf_schedule st).

Definition sjf (fuel : nat) (processes : list Process) : option (list Segment) :=
  while_loop (sjf_step processes) fuel
             (mkSjf [] (min_arrival processes) [] []).

(** A working copy [{...p, remaining}] *)
Record Job := mkJob {
  job_proc : Process;
  remaining : Z
}.

Definition job_of (p : Process) : Job := mkJob p (burst p).

Definition dec_remaining (by_ : Z) (j : Job) : Job :=
  mkJob (job_proc j) (remaining j - by_).

(** [arr[i].remaining -= by] on the shared job objects. *)
Fixpoint update_nth (A : Type) (f : A -> A) (i : nat) (l : list A) : list A :=
  match l, i with
  | [], _ => []
  | x :: xs, O => f x :: xs
  | x :: xs, Datatypes.S i' => x :: update_nth f i' xs
  end.

(** [schedule[schedule.length-1].end = t] *)
Fixpoint set_last_end (t : Z) (schedule : list Segment) : list Segment :=
  match schedule with
  | [] => []
  | [s] => [mkSegment (seg_pid s) (seg_start s) (Some t)]
  | s :: rest => s :: set_last_end t rest
  end.

(** [schedule.length && schedule[schedule.length-1].end === null] *)
Definition last_open (schedule : list Segment) : bool :=
  match rev schedule with
  | [] => false
  | s :: _ => match seg_end s with None => true | Some _ => false end
  end.

(** The jobs live in [procs]; [current] and [next] are references into
    it, here positions. *)
Record srtf_state := mkSrtf {
  srtf_procs : list Job;
  srtf_t : Z;
  srtf_schedule : list Segment;
  srtf_current : option nat
}.

Definition srtf_ready (procs : list Job) (t : Z) : list (nat * Job) :=
  filter (fun ij => (arrival (job_proc (snd ij)) <=? t) && (remaining (snd ij) >? 0))
         (indexed procs).

Definition pid_at (procs : list Job) (i : nat) : option String.string :=
  option_map (fun j => pid (job_proc j)) (nth_error procs i).

(** [current && current.pid === next.pid]: the position of the current
    job when it stays, [None] when a segment has to be opened for [next]. *)
Definition srtf_keep (procs : list Job) (current : option nat) (next : Job)
  : option nat :=
  match current with
  | None => None
  | Some c =>
      match pid_at procs c with
      | Some cp => if String.eqb cp (pid (job_proc next)) then Some c else None
      | None => None
      end
  end.

(** [if (current && schedule.length && schedule[schedule.length-1].end === null)
    schedule[schedule.length-1].end = t] *)
Definition srtf_close (current : option nat) (t : Z) (schedule : list Segment)
  : list Segment :=
  match current with
  | Some _ => if last_open schedule then set_last_end t schedule else schedule
  | None => schedule
  end.

(** [current.remaining--; t++; if (current.remaining === 0)
    { schedule[schedule.length-1].end = t; current = null; }] with
    [current] at position [c]. *)
Definition srtf_tick (procs : list Job) (t : Z) (schedule : list Segment) (c : nat)
  : srtf_state :=
  let procs1 := update_nth (dec_remaining 1) c procs in
  let t1 := t + 1 in
  match nth_error procs1 c with
  | Some j =>
      if remaining j =? 0
      then mkSrtf procs1 t1 (set_last_end t1 schedule) None
      else mkSrtf procs1 t1 schedule (Some c)
  | None => mkSrtf procs1 t1 schedule (Some c)
  end.

(** One turn of [while (procs.some(p => p.remaining > 0)) { ... }] in [srtf]. *)
Definition srtf_step (st : srtf_state) : srtf_state + list Segment :=
  if existsb (fun j => remaining j >? 0) (srtf_procs st) then
    match sort_by (fun ij => remaining (snd ij)) (srtf_ready (srtf_procs st) (srtf_t st)) with
    | [] => inl (mkSrtf (srtf_procs st) (srtf_t st + 1) (srtf_schedule st) (srtf_current st))
    | (ni, next) :: _ =>
        let t := srtf_t st in
        match srtf_keep (srtf_procs st) (srtf_current st) next with
        | Some c => inl (srtf_tick (srtf_procs st) t (srtf_schedule st) c)
        | None =>
            let schedule1 :=
              srtf_close (srtf_current st) t (srtf_schedule st)
              ++ [mkSegment (pid (job_proc next)) t None] in
            inl (srtf_tick (srtf_procs st) t schedule1 ni)
        end
    end
  else inr (srtf_schedule st).

Definition srtf (fuel : nat) (processes : list Process) : option (list Segment) :=
  while_loop srtf_step fuel
             (mkSrtf (map job_of processes) (min_arrival processes) [] None).

Record prio_state := mkPrio {
  prio_t : Z;
  prio_done : pid_set;
  prio_schedule : list Segment
}.

(** One turn of [while (done.size < procs.length) { ... }] in
    [priorityNonPreemptive]. *)
Definition prio_step (procs : list Process) (st : prio_state)
  : prio_state + list Segment :=
  if (length (prio_done st) <? length procs)%nat then
    let ready := filter (fun p => (arrival p <=? prio_t st)
                                  && negb (set_has (prio_done st) (pid p))) procs in
    match sort_by (fun p => nullish (priority p) 0) ready with
    | [] => inl (mkPrio (prio_t st + 1) (prio_done st) (prio_schedule st))
    | p :: _ =>
        inl (mkPrio (prio_t st + burst p)
                    (set_add (prio_done st) (pid p))
                    (prio_schedule st
                       ++ [mkSegment (pid p) (prio_t st) (Some (prio_t st + burst p))]))
    end
  else inr (prio_schedule st).

Definition priorityNonPreemptive (fuel : nat) (processes : list Process)
  : option (list Segment) :=
  while_loop (prio_step processes) fuel (mkPrio (min_arrival processes) [] []).

(** The jobs of [roundRobin] live in [procs], sorted by arrival; the
    ready queue holds references to them, here positions. *)
Record rr_state := mkRR {
  rr_procs : list Job;
  rr_ready : list nat;
  rr_t : Z;
  rr_i : nat;
  rr_schedule : list Segment
}.

(** [while (i < procs.length && procs[i].arrival <= t) { ready.push(procs[i]); i++; }],
    [rest] being the jobs from position [i] on. *)
Fixpoint rr_enqueue (rest : list Job) (t : Z) (i : nat) (ready : list nat)
  : nat * list nat :=
  match rest with
  | [] => (i, ready)
  | j :: rest' =>
      if arrival (job_proc j) <=? t
      then rr_enqueue rest' t (Datatypes.S i) (ready ++ [i])
      else (i, ready)
  end.

(** One turn of [while (ready.length > 0 || i < procs.length) { ... }] in
    [roundRobin]. *)
Definition rr_step (q : Z) (st : rr_state) : rr_state + list Segment :=
  let procs := rr_procs st in
  if negb (length (rr_ready st) =? 0)%nat || (rr_i st <? length procs)%nat then
    let '(i1, ready1) := rr_enqueue (skipn (rr_i st) procs) (rr_t st) (rr_i st) (rr_ready st) in
    match ready1 with
    | [] =>
        let t1 := match nth_error procs i1 with
                  | Some j => arrival (job_proc j)
                  | None => rr_t st + 1
                  end in
        inl (mkRR procs ready1 t1 i1 (rr_schedule st))
    | pi :: ready2 =>
        match nth_error procs pi with
        | None => inl (mkRR procs ready2 (rr_t st) i1 (rr_schedule st))
        | Some p =>
            let run := Z.min q (remaining p) in
            let schedule1 := rr_schedule st
                               ++ [mkSegment (pid (job_proc p)) (rr_t st) (Some (rr_t st + run))] in
            let procs1 := update_nth (dec_remaining run) pi procs in
            let t1 := rr_t st + run in
            let '(i2, ready3) := rr_enqueue (skipn i1 procs1) t1 i1 ready2 in
            let ready4 := if remaining p - run >? 0 then ready3 ++ [pi] else ready3 in
            inl (mkRR procs1 ready4 t1 i2 schedule1)
        end
    end
  else inr (rr_schedule st).

Definition roundRobin (fuel : nat) (processes : list Process) (quantum : Z)
  : option (list Segment) :=
  let procs := sort_by (fun j => arrival (job_proc j)) (map job_of processes) in
  let t0 := match procs with
            | j :: _ => arrival (job_proc j)
            | [] => 0
            end in
  while_loop (rr_step quantum) fuel (mkRR procs [] t0 O []).

(** The fuel the theorems give the loops: every turn either runs a job
    or moves the clock towards an arrival still ahead. *)
Definition sum_burst (processes : list Process) : Z :=
  fold_right (fun p a => burst p + a) 0 processes.

Definition max_arrival (processes : list Process) : Z :=
  fold_right (fun p a => Z.max (arrival p) a) 0 processes.

Definition enough_fuel (processes : list Process) : nat :=
  Datatypes.S (Z.to_nat (2 * sum_burst processes) + 2 * length processes
               + Z.to_nat (max_arrival processes)).

Definition demo : list Process :=
  [ mkProcess "P1"%string 0 7 (Some 2); mkProcess "P2"%string 2 4 (Some 1);
    mkProcess "P3"%string 4 1 (Some 3); mkProcess "P4"%string 5 4 (Some 2) ].


(** ** Metrics *)

(** The result of a JavaScript division, with exact rationals standing
    for the finite doubles. *)
Inductive jsnum : Type :=
| Finite (q : Q)
| PosInfinity
| NegInfinity
| NaN.

(** [a / b * 100] and [a / b] on integers. *)
Definition js_div (a b : Z) : jsnum :=
  if b =? 0 then
    if a >? 0 then PosInfinity else if a <? 0 then NegInfinity else NaN
  else Finite (Qdiv (inject_Z a) (inject_Z b)).

Definition js_times100 (x : jsnum) : jsnum :=
  match x with
  | Finite q => Finite (Qmult q (inject_Z 100))
  | other => other
  end.

Record Metrics := mkMetrics {
  m_pid : String.string;
  m_arrival : Z;
  m_burst : Z;
  m_priority : Z;
  m_start : option Z;
  m_completion : option Z;
  m_waiting : Z;
  m_turnaround : Z;
  m_response : option Z
}.

Record MetricsResult := mkMetricsResult {
  metrics : list Metrics;
  utilization : jsnum;
  throughput : jsnum
}.

Definition init_metrics (p : Process) : Metrics :=
  mkMetrics (pid p) (arrival p) (burst p) (nullish (priority p) 0)
            None None 0 0 None.

(** [mBy = Object.fromEntries(metrics.map(m => [m.pid, m]))]: a pid leads to
    the last row carrying it, here its position in [metrics]. *)
Fixpoint mBy (ms : list Metrics) (i : nat) (key : String.string) : option nat :=
  match ms with
  | [] => None
  | m :: rest =>
      match mBy rest (Datatypes.S i) key with
      | Some k => Some k
      | None => if String.eqb (m_pid m) key then Some i else None
      end
  end.

(** [if (m.start === null) m.start = seg.start; m.completion = seg.end] *)
Definition touch (seg : Segment) (m : Metrics) : Metrics :=
  mkMetrics (m_pid m) (m_arrival m) (m_burst m) (m_priority m)
            (match m_start m with
             | None => Some (seg_start seg)
             | Some s => Some s
             end)
            (seg_end seg)
            (m_waiting m) (m_turnaround m) (m_response m).

(** The body of [for (const seg of schedule) { const m = mBy[seg.pid]; if (m) ... }].
    The rows keep their pids, so the table built before the loop and
    the one read off the current rows agree. *)
Definition record_segment (ms : list Metrics) (seg : Segment) : list Metrics :=
  match mBy ms 0 (seg_pid seg) with
  | Some k => update_nth (touch seg) k ms
  | None => ms
  end.

(** [schedule.filter(s => s.pid === m.pid).reduce((a,b) => a + (b.end - b.start), 0)] *)
Definition executed (schedule : list Segment) (p : String.string) : Z :=
  fold_left (fun a b => a + (num_of (seg_end b) - seg_start b))
            (filter (fun s => String.eqb (seg_pid s) p) schedule) 0.

(** The body of [metrics.forEach(m => { ... })]. *)
Definition finish_metrics (schedule : list Segment) (m : Metrics) : Metrics :=
  let turnaround := nullish (m_completion m) (m_arrival m) - m_arrival m in
  mkMetrics (m_pid m) (m_arrival m) (m_burst m) (m_priority m)
            (m_start m) (m_completion m)
            (turnaround - executed schedule (m_pid m))
            turnaround
            (Some (nullish (m_start m) (m_arrival m) - m_arrival m)).

(** [schedule.length ? schedule[0].start : 0] *)
Definition firstStart (schedule : list Segment) : Z :=
  match schedule with
  | [] => 0
  | s :: _ => seg_start s
  end.

(** [schedule.length ? schedule[schedule.length-1].end : 0] *)
Definition lastEnd (schedule : list Segment) : option Z :=
  match rev schedule with
  | [] => Some 0
  | s :: _ => seg_end s
  end.

(** [lastEnd === 0] *)
Definition is_zero (x : option Z) : bool :=
  match x with
  | Some z => z =? 0
  | None => false
  end.

Definition computeMetrics (schedule : list Segment) (processes : list Process)
  : MetricsResult :=
  let ms0 := map init_metrics processes in
  let ms1 := fold_left record_segment schedule ms0 in
  let ms2 := map (finish_metrics schedule) ms1 in
  let totalBurst := fold_left (fun a b => a + burst b) processes 0 in
  let span := num_of (lastEnd schedule) - firstStart schedule in
  mkMetricsResult
    ms2
    (if is_zero (lastEnd schedule) then Finite 0
     else js_times100 (js_div totalBurst span))
    (if is_zero (lastEnd schedule) then Finite 0
     else js_div (Z.of_nat (length processes)) span).


(** ** Notions the properties are stated with *)

(** The steps of a timeline that are not hits. *)
Definition misses (tl : list TimelineStep) : nat :=
  length (filter (fun s => negb (hit s)) tl).

(** The frame contents after each reference of the classic string, as a
    hand run of the circular pointer gives them. *)
Definition fifo_trace : list (list (option Z)) :=
  [ [Some 7; None; None]; [Some 7; Some 0; None]; [Some 7; Some 0; Some 1];
    [Some 2; Some 0; Some 1]; [Some 2; Some 0; Some 1]; [Some 2; Some 3; Some 1];
    [Some 2; Some 3; Some 0]; [Some 4; Some 3; Some 0]; [Some 4; Some 2; Some 0];
    [Some 4; Some 2; Some 3]; [Some 0; Some 2; Some 3]; [Some 0; Some 2; Some 3];
    [Some 0; Some 2; Some 3] ].

(** The same for least-recently-used eviction. *)
Definition lru_trace : list (list (option Z)) :=
  [ [Some 7; None; None]; [Some 7; Some 0; None]; [Some 7; Some 0; Some 1];
    [Some 2; Some 0; Some 1]; [Some 2; Some 0; Some 1]; [Some 2; Some 0; Some 3];
    [Some 2; Some 0; Some 3]; [Some 4; Some 0; Some 3]; [Some 4; Some 0; Some 2];
    [Some 4; Some 3; Some 2]; [Some 0; Some 3; Some 2]; [Some 0; Some 3; Some 2];
    [Some 0; Some 3; Some 2] ].


(** A head path that starts at [head] and then visits, in some order, the
    cylinders [extra] and every request of [queue], each as often as it
    is listed. *)
Definition visits (head : Z) (extra queue path : list Z) : Prop :=
  exists rest, path = head :: rest /\ Permutation rest (extra ++ queue).

(** The invariant as the specification words it: the path starts at the
    head and every requested cylinder is on it exactly once. *)
Definition each_request_once (head : Z) (queue path : list Z) : Prop :=
  hd_error path = Some head
  /\ forall c, In c queue -> count_occ Z.eq_dec path c = 1%nat.

(** The safety check as the specification describes it, on integer
    matrices. *)

(** [need[i][j] = max[i][j] - allocation[i][j]] *)
Definition needZ (max alloc : list (list Z)) (i j : nat) : Z :=
  nth j (nth i max []) 0 - nth j (nth i alloc []) 0.

Definition need_matrix (m : nat) (max alloc : list (list Z)) : list (list Z) :=
  map (fun i => map (needZ max alloc i) (seq 0 m)) (seq 0 (length max)).

(** [work] gains the allocation of a process that finishes. *)
Definition add_row (m : nat) (w row : list Z) : list Z :=
  map (fun j => nth j w 0 + nth j row 0) (seq 0 m).

(** [work] once the processes of [done] have finished, in that order,
    starting from [available]. *)
Definition work_after (available : list Z) (alloc : list (list Z)) (done : list nat)
  : list Z :=
  fold_left (fun w k => add_row (length available) w (nth k alloc [])) done available.

(** Process [i] is finishable once [done] have finished:
    [need[i][j] <= work[j]] for every resource type [j]. *)
Definition can_finish (available : list Z) (max alloc : list (list Z))
  (done : list nat) (i : nat) : Prop :=
  forall j, (j < length available)%nat ->
    needZ max alloc i j <= nth j (work_after available alloc done) 0.

(** Every process of [order] is finishable at the moment it is chosen. *)
Definition finish_order (available : list Z) (max alloc : list (list Z))
  (order : list nat) : Prop :=
  forall pre i post, order = pre ++ i :: post -> can_finish available max alloc pre i.

(** No progress is possible after [order]: no process left is finishable. *)
Definition stuck (available : list Z) (max alloc : list (list Z))
  (order : list nat) : Prop :=
  forall i, (i < length max)%nat -> ~ In i order ->
    ~ can_finish available max alloc order i.

(** [max] and [allocation] are [n] rows of [m] columns, [m] the length of
    [available]. *)
Definition well_dimensioned (available : list Z) (max alloc : list (list Z)) : Prop :=
  length alloc = length max
  /\ Forall (fun row => length row = length available) max
  /\ Forall (fun row => length row = length available) alloc.

(** The fixed-point scan in the words of the specification.  A round
    goes over the processes in index order; an unfinished process that
    is finishable then finishes at once, its allocation being added to
    [work] for the processes after it. *)
Definition can_finishb (available : list Z) (max alloc : list (list Z))
  (done : list nat) (i : nat) : bool :=
  forallb (fun j => needZ max alloc i j <=? nth j (work_after available alloc done) 0)
          (seq 0 (length available)).

Definition scan_one (available : list Z) (max alloc : list (list Z))
  (done : list nat) (i : nat) : list nat :=
  if existsb (Nat.eqb i) done then done
  else if can_finishb available max alloc done i then done ++ [i]
  else done.

Definition scan_round (available : list Z) (max alloc : list (list Z))
  (done : list nat) : list nat :=
  fold_left (scan_one available max alloc) (seq 0 (length max)) done.

(** Rounds are repeated as long as a round finishes a process; the scan
    stops at the first round without progress.  [scan_to done final]:
    the scan that has finished [done] ends with [final] finished, in
    that order. *)
Inductive scan_to (available : list Z) (max alloc : list (list Z))
  : list nat -> list nat -> Prop :=
| scan_stop : forall done,
    scan_round available max alloc done = done ->
    scan_to available max alloc done done
| scan_more : forall done final,
    scan_round available max alloc done <> done ->
    scan_to available max alloc (scan_round available max alloc done) final ->
    scan_to available max alloc done final.

(** The processes not yet finished, counted off the [finish] flags. *)
Definition unfinished (finish : list bool) : nat :=
  length (filter negb finish).

(** What every state of the scan of [isSafe] satisfies: [work] is
    [available] plus the allocations of the processes finished so far,
    [finish] flags exactly those, and each of them was finishable when
    chosen. *)
Definition scan_inv (available : list Z) (max alloc : list (list Z))
  (st : bankers_state) : Prop :=
  b_work st = map Some (work_after available alloc (b_seq st))
  /\ length (b_finish st) = length max
  /\ (forall i, (i < length max)%nat ->
        (nth i (b_finish st) true = true <-> In i (b_seq st)))
  /\ NoDup (b_seq st)
  /\ (forall i, In i (b_seq st) -> (i < length max)%nat)
  /\ finish_order available max alloc (b_seq st).

(** Inside a round that started with [L0] finished processes, before
    process [k] is looked at: as long as the round has made no progress,
    none of the unfinished processes below [k] is finishable. *)
Definition round_inv_at (available : list Z) (max alloc : list (list Z))
  (L0 k : nat) (st : bankers_state) : Prop :=
  scan_inv available max alloc st
  /\ (L0 <= length (b_seq st))%nat
  /\ (b_progress st = true -> (L0 < length (b_seq st))%nat)
  /\ (b_progress st = false ->
      forall i, (i < k)%nat -> ~ In i (b_seq st) ->
        ~ can_finish available max alloc (b_seq st) i).

(** The examples of the simulator's forms. *)
Definition disk_demo : list Z := [98; 183; 37; 122; 14; 124; 65; 67].

Definition classic_available : list Z := [3; 3; 2].
Definition classic_max : list (list Z) :=
  [[7; 5; 3]; [3; 2; 2]; [9; 0; 2]; [2; 2; 2]; [4; 3; 3]].
Definition classic_alloc : list (list Z) :=
  [[0; 1; 0]; [2; 0; 0]; [3; 0; 2]; [2; 1; 1]; [0; 0; 2]].


(** The input the conservation property is about: unique pids, arrivals
    from 0 on, positive bursts. *)
Definition valid_processes (processes : list Process) : Prop :=
  NoDup (map pid processes)
  /\ Forall (fun p => 0 <= arrival p /\ 0 < burst p) processes.

Definition closed (s : Segment) : Prop := seg_end s <> None.

(** Every segment of the schedule has its end, and the durations
    [end - start] of the segments carrying the pid of a process add up to
    its burst; [executed] is the sum as [computeMetrics] takes it. *)
Definition conserves (processes : list Process) (schedule : list Segment) : Prop :=
  Forall closed schedule
  /\ forall p, In p processes -> executed schedule (pid p) = burst p.

(** The total burst asked for under one pid. *)
Definition demand (processes : list Process) (x : String.string) : Z :=
  fold_right (fun q a => if String.eqb (pid q) x then burst q + a else a) 0 processes.

(** The time the jobs carrying one pid have been run so far. *)
Definition done_work (procs : list Job) (x : String.string) : Z :=
  fold_right (fun j a => if String.eqb (pid (job_proc j)) x
                         then (burst (job_proc j) - remaining j) + a else a) 0 procs.

Definition sum_remaining (procs : list Job) : Z :=
  fold_right (fun j a => remaining j + a) 0 procs.

(** What a scheduler that runs each process in one piece keeps true:
    the pids marked are distinct pids of the input, and the schedule
    holds the whole burst of every marked pid and nothing of the others. *)
Definition marked_inv (processes : list Process) (marked : pid_set)
  (schedule : list Segment) : Prop :=
  NoDup marked
  /\ incl marked (map pid processes)
  /\ Forall closed schedule
  /\ forall x, executed schedule x
               = if set_has marked x then demand processes x else 0.

(** Turns left at most: one per unmarked process, one per time unit up
    to the last arrival. *)
Definition marked_measure (processes : list Process) (marked : pid_set) (t : Z) : nat :=
  (length processes - length marked + Z.to_nat (max_arrival processes - t))%nat.

Definition sjf_inv (processes : list Process) (st : sjf_state) : Prop :=
  marked_inv processes (sjf_seen st) (sjf_schedule st)
  /\ NoDup (map pid (sjf_ready st))
  /\ forall r, In r (sjf_ready st) -> In r processes /\ ~ In (pid r) (sjf_seen st).

(** A segment still open counts as running up to the clock [t]. *)
Definition close_at (t : Z) (s : Segment) : Segment :=
  mkSegment (seg_pid s) (seg_start s) (Some (nullish (seg_end s) t)).

(** The time a pid has been run by the clock [t]. *)
Definition ran (t : Z) (schedule : list Segment) (x : String.string) : Z :=
  executed (map (close_at t) schedule) x.

(** What every state of the loop of [srtf] satisfies: no job has run
    past its burst, the schedule accounts for the time every job has
    run, and the last segment is open exactly while a job is current. *)
Definition srtf_inv (processes : list Process) (st : srtf_state) : Prop :=
  map job_proc (srtf_procs st) = processes
  /\ (forall j, In j (srtf_procs st) -> 0 <= remaining j)
  /\ (forall x, ran (srtf_t st) (srtf_schedule st) x = done_work (srtf_procs st) x)
  /\ match srtf_current st with
     | None => Forall closed (srtf_schedule st)
     | Some c =>
         exists j front s,
           nth_error (srtf_procs st) c = Some j
           /\ 0 < remaining j
           /\ arrival (job_proc j) <= srtf_t st
           /\ srtf_schedule st = front ++ [mkSegment (pid (job_proc j)) s None]
           /\ Forall closed front
     end.

Definition srtf_measure (processes : list Process) (st : srtf_state) : nat :=
  (Z.to_nat (sum_remaining (srtf_procs st))
   + Z.to_nat (max_arrival processes - srtf_t st))%nat.

(** What every state of the loop of [roundRobin] satisfies, [sorted]
    being the processes in arrival order and [hold] the job taken off
    the queue for the slice being run, if any.  The schedule accounts
    for the time every job has run; the jobs not yet admitted are
    untouched, the queued ones have time left, and the others are done. *)
Definition rr_inv (sorted : list Process) (hold : option nat) (st : rr_state) : Prop :=
  map job_proc (rr_procs st) = sorted
  /\ Forall closed (rr_schedule st)
  /\ (forall x, executed (rr_schedule st) x = done_work (rr_procs st) x)
  /\ NoDup (rr_ready st)
  /\ (rr_i st <= length (rr_procs st))%nat
  /\ (forall k, In k (rr_ready st) -> (k < rr_i st)%nat /\ Some k <> hold)
  /\ (forall h, hold = Some h -> (h < rr_i st)%nat)
  /\ (forall k j, nth_error (rr_procs st) k = Some j ->
        0 <= remaining j
        /\ ((rr_i st <= k)%nat -> remaining j = burst (job_proc j))
        /\ (In k (rr_ready st) -> 0 < remaining j)
        /\ ((k < rr_i st)%nat -> ~ In k (rr_ready st) -> Some k <> hold ->
            remaining j = 0)).

(** 1 when the next turn can only move the clock to the next arrival. *)
Definition rr_waiting (st : rr_state) : nat :=
  match rr_ready st, nth_error (rr_procs st) (rr_i st) with
  | [], Some j => if rr_t st <? arrival (job_proc j) then 1 else 0
  | _, _ => 0
  end.

Definition rr_measure (st : rr_state) : nat :=
  (2 * Z.to_nat (sum_remaining (rr_procs st)) + rr_waiting st)%nat.

(** No job is current, or the current job carries another pid than the
    job selected. *)
Definition other_pid (procs : list Job) (current : option nat) (next : Job) : Prop :=
  match current with
  | None => True
  | Some c => pid_at procs c <> Some (pid (job_proc next))
  end.



(** ** Further notions: order in time, sorted paths *)





(** ** Further notions: frames and timelines *)

(** The pages held by a frame array, in frame order. *)
Definition resident (fr : list (option Z)) : list Z :=
  flat_map (fun o => match o with Some p => [p] | None => [] end) fr.

(** What a step of a timeline shows on its own: a snapshot of one slot
    per frame, holding the page just referenced and no page twice. *)
Definition snapshot_ok (nframes : nat) (s : TimelineStep) : Prop :=
  length (frames s) = nframes
  /\ In (Some (page s)) (frames s)
  /\ NoDup (resident (frames s)).

(** Along a timeline that starts from the frames [prev]: a step is a hit
    exactly if its page was in the frames the step before left, and a
    hit leaves the frames as they were. *)
Fixpoint hits_follow (prev : list (option Z)) (tl : list TimelineStep) : Prop :=
  match tl with
  | [] => True
  | s :: rest =>
      hit s = includes prev (page s)
      /\ (hit s = true -> frames s = prev)
      /\ hits_follow (frames s) rest
  end.

(** The frames the last step of a timeline left, [prev] before any step. *)
Definition last_frames (prev : list (option Z)) (tl : list TimelineStep)
  : list (option Z) :=
  last (map frames tl) prev.

(** What the loop of [fifoPage] keeps true of its frame array, its
    pointer and the steps pushed so far. *)
Definition fifo_inv (nframes : nat) (st : fifo_state) : Prop :=
  length (fifo_frameArr st) = nframes
  /\ (fifo_ptr st < nframes)%nat
  /\ NoDup (resident (fifo_frameArr st))
  /\ Forall (snapshot_ok nframes) (fifo_timeline st)
  /\ hits_follow (repeat None nframes) (fifo_timeline st)
  /\ last_frames (repeat None nframes) (fifo_timeline st) = fifo_frameArr st.

(** The same for [lruPage], whose steps are padded to the frame count at
    the end. *)
Definition lru_inv (nframes : nat) (st : lru_state) : Prop :=
  (length (lru_frameArr st) <= nframes)%nat
  /\ NoDup (lru_frameArr st)
  /\ Forall (snapshot_ok nframes) (map (normalize nframes) (lru_timeline st))
  /\ hits_follow (repeat None nframes) (map (normalize nframes) (lru_timeline st))
  /\ last_frames (repeat None nframes) (map (normalize nframes) (lru_timeline st))
     = pad_frames nframes (lru_frameArr st).

(** The index of the last reference to page [q] in [pre], -1 if there is
    none. *)
Definition last_index (pre : list Z) (q : Z) : Z :=
  fold_left (fun acc ix => if snd ix =? q then Z.of_nat (fst ix) else acc)
            (indexed pre) (-1).

(** ** Further notions: schedules in time *)

(** The segments follow one another from [lo] on: each has its end, does
    not end before it starts, and starts no earlier than the one before
    it ends.  No two of them share a time unit. *)
Fixpoint chained (lo : Z) (schedule : list Segment) : Prop :=
  match schedule with
  | [] => True
  | s :: rest =>
      lo <= seg_start s
      /\ exists e, seg_end s = Some e /\ seg_start s <= e /\ chained e rest
  end.

(** The end of the last segment, [lo] for the empty schedule. *)
Definition final_end (lo : Z) (schedule : list Segment) : Z :=
  fold_left (fun e s => nullish (seg_end s) e) schedule lo.

(** Every segment carries the pid of a process of the input that has
    arrived when the segment starts. *)
Definition arrived (processes : list Process) (schedule : list Segment) : Prop :=
  Forall (fun s => exists p, In p processes /\ pid p = seg_pid s
                             /\ arrival p <= seg_start s) schedule.

(** A schedule in time order, without overlap and without a segment
    before the arrival of its process, the clock being at [t]. *)
Definition timed (processes : list Process) (lo t : Z) (schedule : list Segment)
  : Prop :=
  chained lo schedule /\ final_end lo schedule <= t /\ arrived processes schedule.

(** Every segment has its end and lasts between 1 and [q] time units. *)
Definition slices (q : Z) (schedule : list Segment) : Prop :=
  Forall (fun s => exists e, seg_end s = Some e /\ 1 <= e - seg_start s <= q)
         schedule.

(** What the loop of [roundRobin] keeps besides [rr_inv]: the schedule
    is in time, its slices are bounded by the quantum, and every job
    admitted so far has arrived. *)
Definition rr_timed (processes : list Process) (lo q : Z) (st : rr_state) : Prop :=
  timed processes lo (rr_t st) (rr_schedule st)
  /\ slices q (rr_schedule st)
  /\ (forall k p, (k < rr_i st)%nat ->
        nth_error (map job_proc (rr_procs st)) k = Some p -> arrival p <= rr_t st).

(** ** Further notions: metrics *)

(** [schedule.filter(s => s.pid === x)] *)
Definition segments_of (schedule : list Segment) (x : String.string)
  : list Segment :=
  filter (fun s => String.eqb (seg_pid s) x) schedule.

(** A row after the loop over the schedule has seen the segments [segs]
    of its pid. *)
Definition touch_all (segs : list Segment) (m : Metrics) : Metrics :=
  fold_left (fun m s => touch s m) segs m.

(** The response time is a number from 0 up to the waiting time, which
    is at most the turnaround time. *)
Definition row_in_time (m : Metrics) : Prop :=
  exists r, m_response m = Some r
    /\ 0 <= r /\ r <= m_waiting m /\ m_waiting m <= m_turnaround m.

(** * Producer and consumer *)

(** A line of the log, [Produced item] or [Consumed item]; the time
    stamp of the entry is left out. *)
Inductive pc_event : Type :=
| Produced (item : Z)
| Consumed (item : Z).

(** The two pieces of state the interval callback of [ProducerConsumer]
    updates: the buffer, oldest item first, and the log, newest entry
    first. *)
Record pc_state := mkPC {
  pc_buffer : list Z;
  pc_log : list pc_event
}.

(** [[entry, ...l].slice(0, 50)] *)
Definition log_push (e : pc_event) (log : list pc_event) : list pc_event :=
  firstn 50 (e :: log).

(** One call of the interval callback.  [produce] is the outcome of
    [Math.random() < 0.5] and [item] the value [rnd(10, 99)] gives when
    it is drawn. *)
Definition pc_tick (size : Z) (st : pc_state) (draw : bool * Z) : pc_state :=
  let '(produce, item) := draw in
  let buf := pc_buffer st in
  if produce && (Z.of_nat (length buf) <? size) then
    mkPC (buf ++ [item]) (log_push (Produced item) (pc_log st))
  else if negb produce && (0 <? length buf)%nat then
    match buf with
    | first :: rest => mkPC rest (log_push (Consumed first) (pc_log st))
    | [] => st
    end
  else st.

(** The callback called once per draw, the buffer size staying as it is. *)
Definition pc_run (size : Z) (draws : list (bool * Z)) (st : pc_state) : pc_state :=
  fold_left (pc_tick size) draws st.

(** The items the log reports as produced, and as consumed, in the
    order of the log. *)
Fixpoint produced (log : list pc_event) : list Z :=
  match log with
  | [] => []
  | Produced x :: rest => x :: produced rest
  | Consumed _ :: rest => produced rest
  end.

Fixpoint consumed (log : list pc_event) : list Z :=
  match log with
  | [] => []
  | Produced _ :: rest => consumed rest
  | Consumed x :: rest => x :: consumed rest
  end.

(** * The toy file system *)

(** A node of the tree: [{ name, type: 'file', size }] or
    [{ name, type: 'dir', children }].  These are the two shapes [add]
    builds, and the shape of the root. *)
#[warnings="-register-all"] Inductive fs_node : Type :=
| File (name : String.string) (size : Z)
| Dir (name : String.string) (children : list fs_node).

Definition node_name (n : fs_node) : String.string :=
  match n with
  | File name _ => name
  | Dir name _ => name
  end.

(** [node.children], nothing for a file. *)
Definition children_of (n : fs_node) : list fs_node :=
  match n with
  | File _ _ => []
  | Dir _ children => children
  end.

(** [c.name === p && c.type === 'dir'] *)
Definition is_dir_named (p : String.string) (c : fs_node) : bool :=
  match c with
  | File _ _ => false
  | Dir name _ => String.eqb name p
  end.

(** [findNode]: the directory the path leads to from [node], through
    the first directory of each name. *)
Fixpoint findNode (node : fs_node) (parts : list String.string) : option fs_node :=
  match parts with
  | [] => Some node
  | p :: rest =>
      match find (is_dir_named p) (children_of node) with
      | Some child => findNode child rest
      | None => None
      end
  end.

(** The children with [g] applied, in place, to the first directory
    named [p]; [None] without such a directory or when [g] gives none. *)
Fixpoint update_child (p : String.string) (g : fs_node -> option fs_node)
  (children : list fs_node) : option (list fs_node) :=
  match children with
  | [] => None
  | c :: rest =>
      if is_dir_named p c
      then option_map (fun c' => c' :: rest) (g c)
      else option_map (cons c) (update_child p g rest)
  end.

(** The tree after [f] has changed, in place, the node [findNode]
    returns for the path; [None] when [findNode] returns [null]. *)
Fixpoint at_path (f : fs_node -> fs_node) (parts : list String.string)
  (node : fs_node) : option fs_node :=
  match parts with
  | [] => Some (f node)
  | p :: rest =>
      match node with
      | File _ _ => None
      | Dir name children =>
          option_map (Dir name) (update_child p (at_path f rest) children)
      end
  end.

(** [if (target.children.some(c => c.name === n.name)) return copy;
    target.children.push(n)].  The target is the root or a directory
    below it, never a file. *)
Definition push_child (n : fs_node) (target : fs_node) : fs_node :=
  match target with
  | File _ _ => target
  | Dir name children =>
      if existsb (fun c => String.eqb (node_name c) (node_name n)) children
      then target
      else Dir name (children ++ [n])
  end.

(** The node [add] builds from the form; [size] is the value of
    [rnd(1, 32)]. *)
Definition new_node (name : String.string) (isDir : bool) (size : Z) : fs_node :=
  if isDir then Dir name [] else File name size.

(** The state update of [add], [parts] being the non-empty pieces of
    the path between slashes: [target = findNode(copy, parts) || copy]
    takes the new node unless it has a child of that name. *)
Definition add (parts : list String.string) (n : fs_node) (tree : fs_node)
  : fs_node :=
  match at_path (push_child n) parts tree with
  | Some tree' => tree'
  | None => push_child n tree
  end.

(** No two children of a directory share a name, anywhere in the tree. *)
Fixpoint unique_names (n : fs_node) : Prop :=
  match n with
  | File _ _ => True
  | Dir _ children =>
      NoDup (map node_name children)
      /\ (fix all (l : list fs_node) : Prop :=
            match l with
            | [] => True
            | c :: rest => unique_names c /\ all rest
            end) children
  end.

Record fat_entry := mkFat {
  fat_block : Z;
  fat_next : Z;
  fat_file : String.string
}.

Record inode_entry := mkInode {
  inode_no : Z;
  inode_name : String.string;
  inode_size : Z;
  inode_first : Z
}.

(** [fatTable], [inodeTable] and the counter [blockId]. *)
Record fs_tables := mkTables {
  fatTable : list fat_entry;
  inodeTable : list inode_entry;
  blockId : Z
}.

(** [Math.max(1, Math.ceil((node.size || 1) / 4))]; on integers the
    ceiling of [x / 4] is [(x + 3)] divided by 4 rounding down. *)
Definition block_count (size : Z) : Z :=
  Z.max 1 (((if size =? 0 then 1 else size) + 3) / 4).

(** [for (let i = 0; i < blocks; i++) { const cur = blockId++;
    fatTable.push({ block: cur, next: i < blocks-1 ? cur+1 : -1, file }) }],
    [left] being the blocks still to come, this one included. *)
Fixpoint fat_chain (file : String.string) (left : nat) (cur : Z) : list fat_entry :=
  match left with
  | O => []
  | Datatypes.S left' =>
      mkFat cur (if (0 <? left')%nat then cur + 1 else -1) file
      :: fat_chain file left' (cur + 1)
  end.

(** [buildTables(node)], the tables and the counter passed along. *)
Fixpoint buildTables (node : fs_node) (tb : fs_tables) : fs_tables :=
  match node with
  | File name size =>
      let blocks := Z.to_nat (block_count size) in
      mkTables (fatTable tb ++ fat_chain name blocks (blockId tb))
               (inodeTable tb
                  ++ [mkInode (Z.of_nat (length (inodeTable tb))) name size
                              (blockId tb)])
               (blockId tb + Z.of_nat blocks)
  | Dir name children =>
      (fix each (l : list fs_node) (tb : fs_tables) : fs_tables :=
         match l with
         | [] => tb
         | c :: rest => each rest (buildTables c tb)
         end)
        children
        (mkTables (fatTable tb)
                  (inodeTable tb
                     ++ [mkInode (Z.of_nat (length (inodeTable tb)))
                                 (name ++ "/")%string 0 (-1)])
                  (blockId tb))
  end.

(** The nodes of a tree, and the blocks its files take. *)
Fixpoint node_count (n : fs_node) : nat :=
  match n with
  | File _ _ => 1%nat
  | Dir _ children =>
      Datatypes.S ((fix total (l : list fs_node) : nat :=
                      match l with
                      | [] => O
                      | c :: rest => (node_count c + total rest)%nat
                      end) children)
  end.

(** The tables number their entries from 0 in table order, the counter
    is the number of blocks given out, and every [next] is -1 or the
    number of the following block, which the table has. *)
Definition tables_ok (tb : fs_tables) : Prop :=
  map fat_block (fatTable tb) = map Z.of_nat (seq 0 (length (fatTable tb)))
  /\ blockId tb = Z.of_nat (length (fatTable tb))
  /\ map inode_no (inodeTable tb) = map Z.of_nat (seq 0 (length (inodeTable tb)))
  /\ Forall (fun e => fat_next e = -1
                      \/ (fat_next e = fat_block e + 1 /\ fat_next e < blockId tb))
            (fatTable tb).

(** Induction over trees, the children of a directory included. *)
Fixpoint fs_node_induction (P : fs_node -> Prop)
  (on_file : forall name size, P (File name size))
  (on_dir : forall name children, Forall P children -> P (Dir name children))
  (n : fs_node) : P n :=
  match n with
  | File name size => on_file name size
  | Dir name children =>
      on_dir name children
        ((fix all (l : list fs_node) : Forall P l :=
            match l with
            | [] => @Forall_nil fs_node P
            | c :: rest =>
                @Forall_cons fs_node P c rest
                  (@fs_node_induction P on_file on_dir c) (all rest)
            end) children)
  end.

(** * Safe orders *)

(** [rest] can finish in the order given once [pre] have finished, each
    process being finishable when its turn comes. *)
Fixpoint finish_orderb (available : list Z) (max alloc : list (list Z))
  (pre rest : list nat) : bool :=
  match rest with
  | [] => true
  | i :: rest' =>
      can_finishb available max alloc pre i
      && finish_orderb available max alloc (pre ++ [i]) rest'
  end.

(** * Schedulers that do not preempt *)

(** The segment runs a process of the input for its whole burst. *)
Definition whole_burst (processes : list Process) (s : Segment) : Prop :=
  exists p, In p processes /\ pid p = seg_pid s
            /\ seg_end s = Some (seg_start s + burst p).

(** The schedule has one segment per pid marked, in the order of
    marking, each a whole burst. *)
Definition in_one_piece (processes : list Process) (marked : pid_set)
  (schedule : list Segment) : Prop :=
  map seg_pid schedule = marked /\ Forall (whole_burst processes) schedule.

(** * Properties *)

Unset Implicit Arguments.

(** ** Loops, sorting and indexed lists *)

Section WhileRule.
Variables S R : Type.
Variable step : S -> S + R.
Variable Inv : S -> Prop.
Variable mu : S -> nat.
Variable Post : R -> Prop.

Hypothesis step_ok :
  forall s, Inv s ->
    match step s with
    | inl s' => Inv s' /\ (mu s' < mu s)%nat
    | inr r => Post r
    end.

(** An invariant kept by every turn and a measure that every turn
    lowers: the loop ends within the measure, in a state the invariant
    allows. *)
Lemma while_loop_rule :
  forall fuel s, Inv s -> (mu s < fuel)%nat ->
    exists r, while_loop step fuel s = Some r /\ Post r.
Proof.
  induction fuel as [|fuel IH]; intros s HI Hmu; [lia|].
  simpl. specialize (step_ok s HI).
  destruct (step s) as [s'|r].
  - destruct step_ok as [HI' Hlt]. apply IH; [assumption|lia].
  - exists r. split; [reflexivity|assumption].
Qed.
End WhileRule.

Section WhileForever.
Variables S R : Type.
Variable step : S -> S + R.
Variable Inv : S -> Prop.

Hypothesis step_on : forall s, Inv s -> exists s', step s = inl s' /\ Inv s'.

(** A loop whose every turn leads to another turn returns under no fuel. *)
Lemma while_loop_never :
  forall fuel s, Inv s -> while_loop step fuel s = None.
Proof.
  induction fuel as [|fuel IH]; intros s HI; [reflexivity|].
  simpl. destruct (step_on s HI) as [s' [E HI']]. rewrite E. now apply IH.
Qed.
End WhileForever.

Section SortFacts.
Variable A : Type.
Variable key : A -> Z.

Lemma insert_by_perm : forall x l, Permutation (insert_by key x l) (x :: l).
Proof.
  induction l as [|y ys IH]; simpl; [reflexivity|].
  destruct (key x <=? key y); [reflexivity|].
  rewrite IH. apply perm_swap.
Qed.

Lemma sort_by_perm : forall l, Permutation (sort_by key l) l.
Proof.
  induction l as [|x xs IH]; simpl; [reflexivity|].
  rewrite insert_by_perm. now constructor.
Qed.

Lemma sort_by_nil_inv : forall l, sort_by key l = [] -> l = [].
Proof.
  intros l H. apply Permutation_nil. rewrite <- H. apply sort_by_perm.
Qed.

(** Where the first of the smallest keys sits in the list, there the
    sorted list starts. *)
Lemma insert_by_head_le : forall x y l,
  key x <= key y -> insert_by key x (y :: l) = x :: y :: l.
Proof.
  intros x y l H. simpl. destruct (key x <=? key y) eqn:E; [reflexivity|].
  apply Z.leb_gt in E. lia.
Qed.

Lemma sort_by_first_min : forall l1 x l2,
  (forall y, In y l1 -> key x < key y) ->
  (forall y, In y l2 -> key x <= key y) ->
  sort_by key (l1 ++ x :: l2) = x :: sort_by key (l1 ++ l2).
Proof.
  induction l1 as [|a l1 IH]; intros x l2 H1 H2.
  - simpl. destruct (sort_by key l2) as [|y ys] eqn:E; [reflexivity|].
    apply insert_by_head_le. apply H2.
    apply (Permutation_in y (sort_by_perm l2)). rewrite E. now left.
  - simpl. rewrite IH; [|intros; apply H1; now right|assumption].
    simpl. destruct (key a <=? key x) eqn:E; [|reflexivity].
    apply Z.leb_le in E. specialize (H1 a (or_introl eq_refl)). lia.
Qed.
(** Every non-empty list splits at the first of its elements of least key. *)
Lemma first_least_split : forall l,
  l <> [] ->
  exists l1 x l2, l = l1 ++ x :: l2
    /\ (forall y, In y l1 -> key x < key y)
    /\ (forall y, In y l2 -> key x <= key y).
Proof.
  induction l as [|a l IH]; intros Hne; [congruence|].
  destruct l as [|b l'].
  - exists [], a, []. split; [reflexivity|]. split; intros y [].
  - destruct (IH ltac:(discriminate)) as [l1 [x [l2 [E [H1 H2]]]]].
    destruct (Z_le_gt_dec (key a) (key x)) as [Hle|Hgt].
    + exists [], a, (b :: l'). split; [reflexivity|]. split; [intros y []|].
      intros y Hy. rewrite E in Hy. apply in_app_or in Hy.
      destruct Hy as [Hy|[<-|Hy]].
      * specialize (H1 y Hy). lia.
      * assumption.
      * specialize (H2 y Hy). lia.
    + exists (a :: l1), x, l2. split; [now rewrite E|]. split; [|assumption].
      intros y [<-|Hy]; [lia|now apply H1].
Qed.
End SortFacts.

Lemma indexed_from_app : forall (A : Type) (l1 l2 : list A) k,
  combine (seq k (length (l1 ++ l2))) (l1 ++ l2)
  = combine (seq k (length l1)) l1
    ++ combine (seq (k + length l1) (length l2)) l2.
Proof.
  induction l1 as [|a l1 IH]; intros l2 k; simpl.
  - now rewrite Nat.add_0_r.
  - rewrite IH. now rewrite Nat.add_succ_r.
Qed.

Lemma nth_middle_at : forall (A : Type) (l1 : list A) v l2 d,
  nth (length l1) (l1 ++ v :: l2) d = v.
Proof. induction l1; simpl; auto. Qed.

Lemma remove_nth_middle : forall (A : Type) (l1 : list A) v l2,
  remove_nth (length l1) (l1 ++ v :: l2) = l1 ++ l2.
Proof. induction l1; simpl; intros; [reflexivity|]. now rewrite IHl1. Qed.

Lemma remove_nth_perm : forall (A : Type) (l : list A) i d,
  (i < length l)%nat -> Permutation (nth i l d :: remove_nth i l) l.
Proof.
  induction l as [|a l IH]; intros i d Hi; simpl in *; [lia|].
  destruct i; [reflexivity|].
  simpl. apply perm_trans with (a :: nth i l d :: remove_nth i l);
    [apply perm_swap|constructor; apply IH; lia].
Qed.

Lemma remove_nth_length : forall (A : Type) (l : list A) i,
  (i < length l)%nat -> Datatypes.S (length (remove_nth i l)) = length l.
Proof.
  induction l as [|a l IH]; intros i Hi; simpl in *; [lia|].
  destruct i; [reflexivity|]. simpl. rewrite IH; [reflexivity|lia].
Qed.

(** ** Page replacement *)

Lemma misses_app : forall a b, misses (a ++ b) = (misses a + misses b)%nat.
Proof. intros. unfold misses. now rewrite filter_app, length_app. Qed.

Lemma indexed_length : forall (A : Type) (l : list A), length (indexed l) = length l.
Proof. intros. unfold indexed. rewrite length_combine, length_seq. lia. Qed.

Lemma fifo_step_counts : forall nframes st ip,
  length (fifo_timeline (fifo_step nframes st ip))
  = Datatypes.S (length (fifo_timeline st))
  /\ (fifo_faults (fifo_step nframes st ip) + misses (fifo_timeline st)
      = fifo_faults st + misses (fifo_timeline (fifo_step nframes st ip)))%nat.
Proof.
  intros nframes st [i p]. unfold fifo_step.
  destruct (includes (fifo_frameArr st) p); simpl;
    rewrite misses_app, length_app; unfold misses; simpl; split; lia.
Qed.

Lemma fifo_fold_counts : forall nframes l st,
  length (fifo_timeline (fold_left (fifo_step nframes) l st))
  = (length (fifo_timeline st) + length l)%nat
  /\ (fifo_faults (fold_left (fifo_step nframes) l st) + misses (fifo_timeline st)
      = fifo_faults st + misses (fifo_timeline (fold_left (fifo_step nframes) l st)))%nat.
Proof.
  induction l as [|ip l IH]; intros st.
  - simpl. split; lia.
  - change (fold_left (fifo_step nframes) (ip :: l) st)
      with (fold_left (fifo_step nframes) l (fifo_step nframes st ip)).
    destruct (IH (fifo_step nframes st ip)) as [Hlen Hf].
    destruct (fifo_step_counts nframes st ip) as [Slen Sf].
    simpl length. split; lia.
Qed.

Lemma lru_step_counts : forall nframes st ip,
  length (lru_timeline (lru_step nframes st ip))
  = Datatypes.S (length (lru_timeline st))
  /\ (lru_faults (lru_step nframes st ip) + misses (lru_timeline st)
      = lru_faults st + misses (lru_timeline (lru_step nframes st ip)))%nat.
Proof.
  intros nframes st [i p]. unfold lru_step.
  destruct (indexOf (lru_frameArr st) p); simpl;
    rewrite misses_app, length_app; unfold misses; simpl; split; lia.
Qed.

Lemma lru_fold_counts : forall nframes l st,
  length (lru_timeline (fold_left (lru_step nframes) l st))
  = (length (lru_timeline st) + length l)%nat
  /\ (lru_faults (fold_left (lru_step nframes) l st) + misses (lru_timeline st)
      = lru_faults st + misses (lru_timeline (fold_left (lru_step nframes) l st)))%nat.
Proof.
  induction l as [|ip l IH]; intros st.
  - simpl. split; lia.
  - change (fold_left (lru_step nframes) (ip :: l) st)
      with (fold_left (lru_step nframes) l (lru_step nframes st ip)).
    destruct (IH (lru_step nframes st ip)) as [Hlen Hf].
    destruct (lru_step_counts nframes st ip) as [Slen Sf].
    simpl length. split; lia.
Qed.

Lemma normalize_hit : forall nframes t, hit (normalize nframes t) = hit t.
Proof. intros. unfold normalize. now destruct (_ <? _)%nat. Qed.

Lemma misses_normalize : forall nframes tl,
  misses (map (normalize nframes) tl) = misses tl.
Proof.
  unfold misses. induction tl as [|t tl IH]; simpl; [reflexivity|].
  rewrite normalize_hit. destruct (hit t); simpl; now rewrite ?IH.
Qed.

(** C9. For every reference string and every frame count of at least 1,
    the timelines of [fifoPage] and [lruPage] have one step per
    reference, and the fault counter of each is the number of its steps
    that are not hits. *)
Theorem page_timeline_matches_faults : forall refs nframes,
  (1 <= nframes)%nat ->
  length (timeline (fifoPage refs nframes)) = length refs
  /\ faults (fifoPage refs nframes) = misses (timeline (fifoPage refs nframes))
  /\ length (timeline (lruPage refs nframes)) = length refs
  /\ faults (lruPage refs nframes) = misses (timeline (lruPage refs nframes)).
Proof.
  intros refs nframes _. unfold fifoPage, lruPage. simpl timeline. simpl faults.
  pose proof (fifo_fold_counts nframes (indexed refs)
                (mkFifo (repeat None nframes) 0 0 [])) as [F1 F2].
  pose proof (lru_fold_counts nframes (indexed refs) (mkLru [] [] 0 [])) as [L1 L2].
  simpl fifo_timeline in F1, F2. simpl lru_timeline in L1, L2.
  simpl fifo_faults in F2. simpl lru_faults in L2.
  rewrite indexed_length in F1, L1.
  rewrite length_map, misses_normalize.
  change (misses []) with O in F2, L2. simpl length in F1, L1.
  repeat split; lia.
Qed.

Lemma page_timeline_matches_faults_witness :
  length (timeline (fifoPage classic_refs 3)) = length classic_refs
  /\ faults (fifoPage classic_refs 3) = misses (timeline (fifoPage classic_refs 3))
  /\ length (timeline (lruPage classic_refs 3)) = length classic_refs
  /\ faults (lruPage classic_refs 3) = misses (timeline (lruPage classic_refs 3)).
Proof. apply (page_timeline_matches_faults classic_refs 3%nat). lia. Defined.

(** C4, as stated, fails: on the classic string with 3 frames the fault
    counts are not 9 for FIFO and 10 for LRU. *)
Lemma classic_faults_not_9_and_10 :
  ~ (faults (fifoPage classic_refs 3) = 9%nat
     /\ faults (lruPage classic_refs 3) = 10%nat).
Proof. vm_compute. intros [H _]. discriminate H. Qed.

(** C4, amended. On the reference string 7 0 1 2 0 3 0 4 2 3 0 3 2 with
    3 frames [fifoPage] reports exactly 10 faults and [lruPage] exactly 9,
    and the snapshots and hit flags of every step are those of the hand
    run. *)
Theorem classic_faults_fifo10_lru9 :
  faults (fifoPage classic_refs 3) = 10%nat
  /\ map frames (timeline (fifoPage classic_refs 3)) = fifo_trace
  /\ map hit (timeline (fifoPage classic_refs 3))
     = [false; false; false; false; true; false; false; false; false; false;
        false; true; true]
  /\ faults (lruPage classic_refs 3) = 9%nat
  /\ map frames (timeline (lruPage classic_refs 3)) = lru_trace
  /\ map hit (timeline (lruPage classic_refs 3))
     = [false; false; false; false; true; false; true; false; false; false;
        false; true; true].
Proof. vm_compute. repeat split. Qed.

(** ** Disk scheduling *)

Lemma nearest_fold_keep : forall cur l k i d,
  (forall x, In x l -> d <= Z.abs (x - cur)) ->
  fold_left (nearest_step cur) (combine (seq k (length l)) l) (i, Some d)
  = (i, Some d).
Proof.
  induction l as [|a l IH]; intros k i d H; simpl; [reflexivity|].
  destruct (Z.abs (a - cur) <? d) eqn:E.
  - apply Z.ltb_lt in E. specialize (H a (or_introl eq_refl)). lia.
  - apply IH. intros x Hx. apply H. now right.
Qed.

Lemma nearest_fold_far : forall cur d l k acc,
  (forall x, In x l -> d < Z.abs (x - cur)) ->
  (snd acc = None \/ exists b, snd acc = Some b /\ d < b) ->
  let r := fold_left (nearest_step cur) (combine (seq k (length l)) l) acc in
  snd r = None \/ exists b, snd r = Some b /\ d < b.
Proof.
  induction l as [|a l IH]; intros k acc H Hacc; simpl; [assumption|].
  apply IH; [intros x Hx; apply H; now right|].
  right. specialize (H a (or_introl eq_refl)).
  destruct Hacc as [E|[b [E Hb]]]; rewrite E.
  - eexists; split; [reflexivity|exact H].
  - destruct (Z.abs (a - cur) <? b); simpl.
    + eexists; split; [reflexivity|exact H].
    + rewrite E. eexists; split; [reflexivity|exact Hb].
Qed.

Lemma nearest_fold_index : forall cur l k acc,
  let r := fold_left (nearest_step cur) (combine (seq k (length l)) l) acc in
  fst r = fst acc \/ (k <= fst r < k + length l)%nat.
Proof.
  induction l as [|a l IH]; intros k acc; cbn [length seq combine fold_left];
    [now left|].
  destruct (IH (Datatypes.S k) (nearest_step cur acc (k, a))) as [E|E];
    cbv zeta in E.
  - rewrite E. unfold nearest_step. destruct (snd acc) as [b|].
    + destruct (Z.abs (a - cur) <? b); simpl; [right; lia|now left].
    + simpl. right. lia.
  - right. lia.
Qed.

Lemma nearest_lt : forall q cur, q <> [] -> (nearest q cur < length q)%nat.
Proof.
  intros q cur Hq. unfold nearest, indexed.
  pose proof (nearest_fold_index cur q O (O, None)) as H. cbv zeta in H.
  destruct q; [congruence|]. simpl length in *. simpl fst in H at 2. lia.
Qed.

(** The index kept by the search is that of the first request at the
    least distance. *)
Lemma nearest_first_min : forall q1 v q2 cur,
  (forall x, In x q1 -> Z.abs (v - cur) < Z.abs (x - cur)) ->
  (forall x, In x q2 -> Z.abs (v - cur) <= Z.abs (x - cur)) ->
  nearest (q1 ++ v :: q2) cur = length q1.
Proof.
  intros q1 v q2 cur H1 H2. unfold nearest, indexed.
  rewrite indexed_from_app, fold_left_app. simpl.
  pose proof (nearest_fold_far cur (Z.abs (v - cur)) q1 O (O, None) H1
                (or_introl eq_refl)) as Hr.
  cbv zeta in Hr.
  destruct (fold_left (nearest_step cur) (combine (seq 0 (length q1)) q1) (O, None))
    as [i b]. simpl in Hr. simpl snd.
  destruct Hr as [E|[b' [E Hb]]]; subst b.
  - rewrite nearest_fold_keep; [reflexivity|assumption].
  - destruct (Z.abs (v - cur) <? b') eqn:F; [|apply Z.ltb_ge in F; lia].
    rewrite nearest_fold_keep; [reflexivity|assumption].
Qed.

Lemma pathSSTF_visits : forall queue head,
  exists path, pathSSTF queue head = Some path /\ visits head [] queue path.
Proof.
  intros queue head. unfold pathSSTF.
  apply (while_loop_rule _ _ sstf_step
           (fun st => exists rest, sstf_path st = head :: rest
                                   /\ Permutation (rest ++ sstf_q st) queue)
           (fun st => length (sstf_q st))
           (fun path => visits head [] queue path)).
  - intros [q cur path] [rest [Hp Hperm]]. unfold sstf_step.
    cbn [sstf_q sstf_cur sstf_path] in *.
    destruct q as [|v0 q'].
    + exists rest. split; [assumption|]. now rewrite app_nil_r in Hperm.
    + set (q := v0 :: q') in *.
      assert (Hlt : (nearest q cur < length q)%nat)
        by (apply nearest_lt; discriminate).
      split.
      * exists (rest ++ [nth (nearest q cur) q v0]). split.
        -- subst path. reflexivity.
        -- rewrite <- app_assoc. simpl. rewrite <- Hperm.
           apply Permutation_app_head.
           exact (remove_nth_perm _ q (nearest q cur) v0 Hlt).
      * pose proof (remove_nth_length _ q (nearest q cur) Hlt).
        cbn [sstf_q]. lia.
  - exists []. split; [reflexivity|]. reflexivity.
  - simpl. lia.
Qed.

Lemma filter_split_perm : forall head (queue : list Z),
  Permutation (filter (fun x => x >=? head) queue
               ++ filter (fun x => x <? head) queue) queue.
Proof.
  induction queue as [|x l IH]; simpl; [reflexivity|].
  destruct (x >=? head) eqn:E1; destruct (x <? head) eqn:E2; simpl.
  - apply Z.geb_le in E1. apply Z.ltb_lt in E2. lia.
  - now constructor.
  - rewrite <- Permutation_middle. now constructor.
  - rewrite Z.geb_leb in E1. apply Z.leb_gt in E1. apply Z.ltb_ge in E2. lia.
Qed.

Lemma pathSCAN_visits : forall queue head max,
  visits head [max] queue (pathSCAN queue head max).
Proof.
  intros. unfold pathSCAN. eexists. split; [reflexivity|].
  rewrite <- Permutation_middle. simpl. constructor.
  rewrite <- Permutation_rev, !sort_by_perm. apply filter_split_perm.
Qed.

Lemma pathCSCAN_visits : forall queue head max,
  visits head [max; 0] queue (pathCSCAN queue head max).
Proof.
  intros. unfold pathCSCAN. eexists. split; [reflexivity|].
  rewrite <- Permutation_middle. simpl. constructor.
  rewrite <- Permutation_middle. constructor.
  rewrite !sort_by_perm. apply filter_split_perm.
Qed.

Lemma visits_once : forall head extra queue path c,
  visits head extra queue path -> NoDup queue ->
  In c queue -> c <> head -> ~ In c extra ->
  count_occ Z.eq_dec path c = 1%nat.
Proof.
  intros head extra queue path c [rest [-> Hperm]] Hnd Hin Hh Hx.
  simpl. destruct (Z.eq_dec head c); [congruence|].
  rewrite (proj1 (Permutation_count_occ Z.eq_dec _ _) Hperm).
  rewrite count_occ_app.
  rewrite (proj1 (count_occ_not_In Z.eq_dec extra c) Hx).
  simpl. now apply NoDup_count_occ'.
Qed.

(** C5, as stated, fails: with the single request 53 and the head on 53,
    the path of [pathFCFS] holds cylinder 53 twice. *)
Lemma fcfs_path_visits_head_twice :
  NoDup [53] /\ ~ each_request_once 53 [53] (pathFCFS [53] 53).
Proof.
  split.
  - constructor; [intros []|constructor].
  - intros [_ H]. specialize (H 53 (or_introl eq_refl)). vm_compute in H.
    discriminate H.
Qed.

(** C5, amended. For every list of distinct requests, every head
    position and every [max], each of the four paths starts with the
    head, and what follows is a rearrangement of the requests, for
    [pathSCAN] together with one visit of [max], for [pathCSCAN] together
    with one visit of [max] and one of 0.  So every requested cylinder
    other than the head position (and, for the two sweeps, other than
    those boundary cylinders) is on the path exactly once. *)
Theorem disk_paths_visit_requests : forall queue head max,
  NoDup queue ->
  (visits head [] queue (pathFCFS queue head)
   /\ (exists path, pathSSTF queue head = Some path /\ visits head [] queue path)
   /\ visits head [max] queue (pathSCAN queue head max)
   /\ visits head [max; 0] queue (pathCSCAN queue head max))
  /\ forall c, In c queue -> c <> head ->
       count_occ Z.eq_dec (pathFCFS queue head) c = 1%nat
       /\ (exists path, pathSSTF queue head = Some path
                        /\ count_occ Z.eq_dec path c = 1%nat)
       /\ (c <> max -> count_occ Z.eq_dec (pathSCAN queue head max) c = 1%nat)
       /\ (c <> max -> c <> 0 ->
           count_occ Z.eq_dec (pathCSCAN queue head max) c = 1%nat).
Proof.
  intros queue head max Hnd.
  assert (HF : visits head [] queue (pathFCFS queue head))
    by (eexists; split; reflexivity).
  destruct (pathSSTF_visits queue head) as [p [Hp HS]].
  pose proof (pathSCAN_visits queue head max) as HSC.
  pose proof (pathCSCAN_visits queue head max) as HC.
  split.
  - repeat split; try assumption. exists p. now split.
  - intros c Hin Hh. repeat split.
    + apply (visits_once head [] queue); auto.
    + exists p. split; [assumption|]. apply (visits_once head [] queue); auto.
    + intros Hm. apply (visits_once head [max] queue); auto.
      simpl. intros [E|[]]. congruence.
    + intros Hm H0. apply (visits_once head [max; 0] queue); auto.
      simpl. intros [E|[E|[]]]; congruence.
Qed.

Lemma disk_demo_NoDup : NoDup disk_demo.
Proof.
  unfold disk_demo.
  repeat (constructor; [simpl; intros H; repeat (destruct H as [H|H]; [discriminate H|]); exact H|]).
  constructor.
Qed.

Lemma disk_paths_visit_requests_witness :
  NoDup disk_demo
  /\ (visits 53 [] disk_demo (pathFCFS disk_demo 53)
      /\ (exists path, pathSSTF disk_demo 53 = Some path
                       /\ visits 53 [] disk_demo path)
      /\ visits 53 [199] disk_demo (pathSCAN disk_demo 53 199)
      /\ visits 53 [199; 0] disk_demo (pathCSCAN disk_demo 53 199))
  /\ forall c, In c disk_demo -> c <> 53 ->
       count_occ Z.eq_dec (pathFCFS disk_demo 53) c = 1%nat
       /\ (exists path, pathSSTF disk_demo 53 = Some path
                        /\ count_occ Z.eq_dec path c = 1%nat)
       /\ (c <> 199 -> count_occ Z.eq_dec (pathSCAN disk_demo 53 199) c = 1%nat)
       /\ (c <> 199 -> c <> 0 ->
           count_occ Z.eq_dec (pathCSCAN disk_demo 53 199) c = 1%nat).
Proof.
  split; [exact disk_demo_NoDup|].
  exact (disk_paths_visit_requests disk_demo 53 199 disk_demo_NoDup).
Defined.

(** C6, as stated, fails: from head 50 the requests 60 and 40 are equally
    far, and [pathSSTF] visits 60, the higher cylinder, first. *)
Lemma sstf_tie_visits_higher_first :
  Z.abs (60 - 50) = Z.abs (40 - 50)
  /\ pathSSTF [60; 40] 50 = Some [50; 60; 40].
Proof. split; reflexivity. Qed.

(** C6, amended. In every turn of the loop of [pathSSTF], among the
    unvisited requests nearest to the current head position the one that
    comes first in the queue is visited next: if every request in front
    of [v] is strictly farther than [v] and none behind it is nearer, the
    head moves to [v] and [v] leaves the queue. *)
Theorem sstf_tie_first_in_queue : forall q1 v q2 cur path,
  (forall x, In x q1 -> Z.abs (v - cur) < Z.abs (x - cur)) ->
  (forall x, In x q2 -> Z.abs (v - cur) <= Z.abs (x - cur)) ->
  sstf_step (mkSstf (q1 ++ v :: q2) cur path)
  = inl (mkSstf (q1 ++ q2) v (path ++ [v])).
Proof.
  intros q1 v q2 cur path H1 H2. unfold sstf_step. simpl sstf_q. simpl sstf_cur.
  simpl sstf_path.
  rewrite (nearest_first_min q1 v q2 cur H1 H2).
  destruct (q1 ++ v :: q2) as [|v0 q'] eqn:E.
  - destruct q1; discriminate E.
  - rewrite <- E. rewrite nth_middle_at, remove_nth_middle. reflexivity.
Qed.

Lemma sstf_tie_first_in_queue_witness :
  sstf_step (mkSstf ([] ++ 60 :: [40]) 50 [50])
  = inl (mkSstf ([] ++ [40]) 60 ([50] ++ [60])).
Proof.
  apply (sstf_tie_first_in_queue [] 60 [40] 50 [50]).
  - intros x [].
  - intros x [<-|[]]. vm_compute. discriminate.
Defined.

(** ** Metrics *)

Lemma update_nth_other : forall (A : Type) (f : A -> A) k (l : list A) i,
  i <> k -> nth_error (update_nth f k l) i = nth_error l i.
Proof.
  induction k as [|k IH]; intros [|x l] [|i] H; simpl; try reflexivity;
    try congruence.
  apply IH. congruence.
Qed.

Lemma update_nth_same : forall (A : Type) (f : A -> A) k (l : list A),
  nth_error (update_nth f k l) k = option_map f (nth_error l k).
Proof.
  induction k as [|k IH]; intros [|x l]; simpl; try reflexivity. apply IH.
Qed.

Lemma update_nth_length : forall (A : Type) (f : A -> A) k (l : list A),
  length (update_nth f k l) = length l.
Proof.
  induction k as [|k IH]; intros [|x l]; simpl; try reflexivity.
  now rewrite IH.
Qed.

(** The table leads a pid to a row that carries it. *)
Lemma mBy_sound : forall ms i0 key k,
  mBy ms i0 key = Some k ->
  (i0 <= k)%nat /\ exists m, nth_error ms (k - i0) = Some m /\ m_pid m = key.
Proof.
  induction ms as [|m ms IH]; intros i0 key k H; simpl in H; [discriminate|].
  destruct (mBy ms (Datatypes.S i0) key) as [k'|] eqn:E.
  - inversion H; subst k'. destruct (IH _ _ _ E) as [Hle [m' [Hn Hp]]].
    split; [lia|]. exists m'. split; [|assumption].
    replace (k - i0)%nat with (Datatypes.S (k - Datatypes.S i0)) by lia.
    exact Hn.
  - destruct (String.eqb (m_pid m) key) eqn:F; [|discriminate].
    inversion H; subst k. split; [lia|]. exists m. rewrite Nat.sub_diag.
    split; [reflexivity|]. now apply String.eqb_eq.
Qed.

Lemma record_segment_other : forall ms seg i m,
  nth_error ms i = Some m -> m_pid m <> seg_pid seg ->
  nth_error (record_segment ms seg) i = Some m.
Proof.
  intros ms seg i m Hn Hp. unfold record_segment.
  destruct (mBy ms 0 (seg_pid seg)) as [k|] eqn:E; [|assumption].
  destruct (mBy_sound _ _ _ _ E) as [_ [m' [Hn' Hp']]].
  rewrite Nat.sub_0_r in Hn'.
  rewrite update_nth_other; [assumption|].
  intros ->. congruence.
Qed.

Lemma record_all_other : forall schedule ms i m,
  nth_error ms i = Some m ->
  (forall s, In s schedule -> seg_pid s <> m_pid m) ->
  nth_error (fold_left record_segment schedule ms) i = Some m.
Proof.
  induction schedule as [|seg schedule IH]; intros ms i m Hn H; simpl;
    [assumption|].
  apply IH.
  - apply record_segment_other; [assumption|].
    intros E. apply (H seg (or_introl eq_refl)). now symmetry.
  - intros s Hs. apply H. now right.
Qed.

Lemma executed_absent : forall schedule p,
  (forall s, In s schedule -> seg_pid s <> p) -> executed schedule p = 0.
Proof.
  intros schedule p H. unfold executed.
  replace (filter (fun s => String.eqb (seg_pid s) p) schedule) with (@nil Segment);
    [reflexivity|].
  induction schedule as [|s l IH]; simpl; [reflexivity|].
  destruct (String.eqb (seg_pid s) p) eqn:E.
  - apply String.eqb_eq in E. exfalso. apply (H s (or_introl eq_refl) E).
  - apply IH. intros s' Hs'. apply H. now right.
Qed.

(** C10. For every process of the input whose pid is on no segment of
    the schedule, [computeMetrics] gives a row with [start] and
    [completion] both [null] and with turnaround, waiting and response
    all 0, the arrival standing in for the two missing times. *)
Theorem never_run_metrics : forall schedule processes i p,
  nth_error processes i = Some p ->
  (forall s, In s schedule -> seg_pid s <> pid p) ->
  exists m, nth_error (metrics (computeMetrics schedule processes)) i = Some m
    /\ m_pid m = pid p
    /\ m_start m = None /\ m_completion m = None
    /\ m_turnaround m = 0 /\ m_waiting m = 0 /\ m_response m = Some 0.
Proof.
  intros schedule processes i p Hp Habs.
  unfold computeMetrics. cbn [metrics].
  exists (finish_metrics schedule (init_metrics p)).
  split.
  - rewrite nth_error_map.
    rewrite (record_all_other schedule (map init_metrics processes) i (init_metrics p)).
    + reflexivity.
    + rewrite nth_error_map, Hp. reflexivity.
    + exact Habs.
  - unfold finish_metrics, init_metrics. cbn.
    rewrite (executed_absent schedule (pid p) Habs), Z.sub_diag.
    repeat split; reflexivity.
Qed.

Lemma never_run_metrics_witness :
  exists m, nth_error (metrics (computeMetrics
                                  [mkSegment "P1"%string 0 (Some 7)] demo)) 1
            = Some m
    /\ m_pid m = "P2"%string
    /\ m_start m = None /\ m_completion m = None
    /\ m_turnaround m = 0 /\ m_waiting m = 0 /\ m_response m = Some 0.
Proof.
  apply (never_run_metrics [mkSegment "P1"%string 0 (Some 7)] demo 1
           (mkProcess "P2"%string 2 4 (Some 1))).
  - reflexivity.
  - intros s [<-|[]]. simpl. discriminate.
Defined.

(** C8. On the empty process list each of the five scheduling functions
    returns the empty schedule (whatever the quantum), and
    [computeMetrics] on the empty schedule and the empty list returns no
    rows, utilization 0 and throughput 0: nothing is divided. *)
Theorem empty_input_results :
  fcfs [] = []
  /\ (forall fuel, sjf (Datatypes.S fuel) [] = Some [])
  /\ (forall fuel, srtf (Datatypes.S fuel) [] = Some [])
  /\ (forall fuel, priorityNonPreemptive (Datatypes.S fuel) [] = Some [])
  /\ (forall fuel quantum, roundRobin (Datatypes.S fuel) [] quantum = Some [])
  /\ computeMetrics [] [] = mkMetricsResult [] (Finite 0) (Finite 0).
Proof. repeat split. Qed.

(** ** Banker's safety check *)

Lemma fold_seq_rule : forall (St : Type) (f : St -> nat -> St) (P : nat -> St -> Prop) len k st,
  (forall i s, (k <= i < k + len)%nat -> P i s -> P (Datatypes.S i) (f s i)) ->
  P k st -> P (k + len)%nat (fold_left f (seq k len) st).
Proof.
  induction len as [|len IH]; intros k st Hstep H0; simpl.
  - now rewrite Nat.add_0_r.
  - rewrite <- Nat.add_succ_comm. apply IH.
    + intros i s Hi. apply Hstep. lia.
    + apply Hstep; [lia|assumption].
Qed.

Lemma nth_map_Some : forall (l : list Z) j,
  (j < length l)%nat -> nth j (map Some l) None = Some (nth j l 0).
Proof.
  induction l as [|a l IH]; intros [|j] H; simpl in *; try lia; try reflexivity.
  apply IH. lia.
Qed.

Lemma at_col_in : forall (row : list Z) j,
  (j < length row)%nat -> at_col row j = Some (nth j row 0).
Proof.
  unfold at_col. induction row as [|a l IH]; intros [|j] H; simpl in *;
    try lia; try reflexivity.
  apply IH. lia.
Qed.

Lemma nth_set_nth_same : forall (l : list bool) i d,
  (i < length l)%nat -> nth i (set_nth i true l) d = true.
Proof.
  induction l as [|a l IH]; intros [|i] d H; simpl in *; try lia; try reflexivity.
  apply IH. lia.
Qed.

Lemma nth_set_nth_other : forall (l : list bool) i k d,
  i <> k -> nth i (set_nth k true l) d = nth i l d.
Proof.
  induction l as [|a l IH]; intros [|i] [|k] d H; simpl; try reflexivity;
    try congruence.
  apply IH. congruence.
Qed.

Lemma set_nth_length : forall (A : Type) (l : list A) i v,
  length (set_nth i v l) = length l.
Proof.
  induction l as [|a l IH]; intros [|i] v; simpl; try reflexivity.
  now rewrite IH.
Qed.

Lemma forallb_id_nth : forall (l : list bool),
  forallb (fun f => f) l = true <-> forall i, (i < length l)%nat -> nth i l true = true.
Proof.
  induction l as [|a l IH]; simpl.
  - split; [intros _ i H; lia|reflexivity].
  - rewrite andb_true_iff, IH. split.
    + intros [Ha Hl] [|i] Hi; [assumption|]. apply Hl. lia.
    + intros H. split; [apply (H O); lia|].
      intros i Hi. apply (H (Datatypes.S i)). lia.
Qed.

Lemma bounded_NoDup_length : forall (l : list nat) n,
  NoDup l -> (forall i, In i l -> (i < n)%nat) -> (length l <= n)%nat.
Proof.
  intros l n Hnd Hb.
  apply Nat.le_trans with (length (seq 0 n)); [|rewrite length_seq; lia].
  apply NoDup_incl_length; [assumption|].
  intros i Hi. apply in_seq. specialize (Hb i Hi). lia.
Qed.

(** A duplicate-free list of [n] indices below [n] holds every index
    below [n]. *)
Lemma full_NoDup_all : forall (l : list nat) n,
  NoDup l -> (forall i, In i l -> (i < n)%nat) -> length l = n ->
  forall i, (i < n)%nat -> In i l.
Proof.
  intros l n Hnd Hb Hlen i Hi.
  assert (Hincl : incl l (seq 0 n))
    by (intros k Hk; apply in_seq; specialize (Hb k Hk); lia).
  assert (Hl : (length (seq 0 n) <= length l)%nat) by (rewrite length_seq; lia).
  apply (NoDup_length_incl Hnd Hl Hincl). apply in_seq. lia.
Qed.

Lemma nth_map_seq : forall (A : Type) (f : nat -> A) d len start k,
  (k < len)%nat -> nth k (map f (seq start len)) d = f (start + k)%nat.
Proof.
  induction len as [|len IH]; intros start [|k] H; simpl; try lia.
  - now rewrite Nat.add_0_r.
  - rewrite IH; [|lia]. f_equal. lia.
Qed.

Lemma finish_order_snoc : forall available max alloc order i,
  finish_order available max alloc order ->
  can_finish available max alloc order i ->
  finish_order available max alloc (order ++ [i]).
Proof.
  intros available max alloc order i Ho Hi pre x post E.
  destruct post as [|y post'] using rev_ind.
  - apply app_inj_tail in E. destruct E as [-> ->]. exact Hi.
  - clear IHpost'.
    change (pre ++ x :: post' ++ [y]) with (pre ++ (x :: post') ++ [y]) in E.
    rewrite app_assoc in E. apply app_inj_tail in E. destruct E as [E _].
    apply (Ho pre x post'). exact E.
Qed.

Section BankersScan.
Variable available : list Z.
Variables max alloc : list (list Z).
Hypothesis WD : well_dimensioned available max alloc.

Local Abbreviation nn := (length max).
Local Abbreviation mm := (length available).
Local Abbreviation nd := (map (map Some) (need_matrix mm max alloc)).
Local Abbreviation BInv := (scan_inv available max alloc).
Local Abbreviation ScanInv := (round_inv_at available max alloc).

Lemma max_row_length : forall i, (i < nn)%nat -> length (nth i max []) = mm.
Proof.
  intros i Hi. destruct WD as [_ [H _]].
  rewrite Forall_forall in H. apply H. now apply nth_In.
Qed.

Lemma alloc_row_length : forall i, (i < nn)%nat -> length (nth i alloc []) = mm.
Proof.
  intros i Hi. destruct WD as [Hl [_ H]].
  rewrite Forall_forall in H. apply H. apply nth_In. lia.
Qed.

Lemma need_row_ok : forall i, (i < nn)%nat ->
  need_row mm (nth i max []) (nth_error alloc i)
  = Returned (map Some (map (needZ max alloc i) (seq 0 mm))).
Proof.
  intros i Hi. destruct WD as [Hl _].
  rewrite (nth_error_nth' alloc []) by lia.
  unfold need_row. destruct mm as [|m'] eqn:Em; [reflexivity|].
  rewrite <- Em. f_equal. rewrite map_map. apply map_ext_in.
  intros j Hj. apply in_seq in Hj.
  rewrite !at_col_in; [reflexivity| |].
  - rewrite alloc_row_length; lia.
  - rewrite max_row_length; lia.
Qed.

Lemma need_rows_from : forall rest i,
  (i + length rest = nn)%nat ->
  (forall k, (k < length rest)%nat -> nth k rest [] = nth (i + k) max []) ->
  need_rows mm i rest alloc
  = Returned (map (fun k => map Some (map (needZ max alloc k) (seq 0 mm)))
                  (seq i (length rest))).
Proof.
  induction rest as [|mrow rest IH]; intros i Hlen Hnth; simpl; [reflexivity|].
  simpl in Hlen.
  pose proof (Hnth O ltac:(simpl; lia)) as H0. simpl in H0.
  rewrite Nat.add_0_r in H0. subst mrow.
  rewrite need_row_ok by lia.
  rewrite IH; [reflexivity|lia|].
  intros k Hk. specialize (Hnth (Datatypes.S k) ltac:(simpl; lia)).
  simpl in Hnth. rewrite Hnth. f_equal. lia.
Qed.

Lemma need_rows_ok : need_rows mm 0 max alloc = Returned nd.
Proof.
  rewrite need_rows_from; [|lia|intros; reflexivity].
  unfold need_matrix. now rewrite map_map.
Qed.

Lemma nd_row : forall i, (i < nn)%nat ->
  nth i nd [] = map Some (map (needZ max alloc i) (seq 0 mm)).
Proof.
  intros i Hi. unfold need_matrix. rewrite map_map.
  rewrite nth_map_seq by assumption. reflexivity.
Qed.

Lemma work_after_length : forall done, length (work_after available alloc done) = mm.
Proof.
  intros done. unfold work_after.
  assert (H : forall w, length w = mm ->
            length (fold_left (fun w k => add_row mm w (nth k alloc [])) done w) = mm).
  { induction done as [|k done IH]; intros w Hw; simpl; [assumption|].
    apply IH. unfold add_row. now rewrite length_map, length_seq. }
  now apply H.
Qed.

Lemma work_after_snoc : forall done i,
  work_after available alloc (done ++ [i])
  = add_row mm (work_after available alloc done) (nth i alloc []).
Proof. intros. unfold work_after. now rewrite fold_left_app. Qed.

Lemma finishable_iff : forall done i, (i < nn)%nat ->
  finishable mm (nth i nd []) (map Some (work_after available alloc done)) = true
  <-> can_finish available max alloc done i.
Proof.
  intros done i Hi. unfold finishable, can_finish.
  rewrite forallb_forall, nd_row by assumption.
  split; intros H j Hj.
  - specialize (H j ltac:(apply in_seq; lia)).
    rewrite !nth_map_Some in H
      by (rewrite ?length_map, ?length_seq, ?work_after_length; lia).
    rewrite nth_map_seq in H by lia. simpl in H.
    apply negb_true_iff in H. rewrite Z.gtb_ltb in H. apply Z.ltb_ge in H.
    exact H.
  - apply in_seq in Hj.
    rewrite !nth_map_Some
      by (rewrite ?length_map, ?length_seq, ?work_after_length; lia).
    rewrite nth_map_seq by lia. simpl.
    apply negb_true_iff. rewrite Z.gtb_ltb. apply Z.ltb_ge. apply H. lia.
Qed.

Lemma release_ok : forall done i, (i < nn)%nat ->
  release mm (nth i alloc []) (map Some (work_after available alloc done))
  = map Some (work_after available alloc (done ++ [i])).
Proof.
  intros done i Hi. rewrite work_after_snoc. unfold release, add_row.
  rewrite map_map. apply map_ext_in. intros j Hj. apply in_seq in Hj.
  rewrite nth_map_Some by (rewrite work_after_length; lia).
  rewrite at_col_in by (rewrite alloc_row_length; lia).
  reflexivity.
Qed.

Lemma scan_step_inv : forall L0 k st,
  (k < nn)%nat -> ScanInv L0 k st ->
  ScanInv L0 (Datatypes.S k) (scan_step mm nd alloc st k).
Proof.
  intros L0 k st Hk [HI [HL [Hpt Hpf]]].
  pose proof HI as [Hw [Hfl [Hfin [Hnd [Hb Hord]]]]].
  unfold scan_step.
  destruct (nth k (b_finish st) true) eqn:F.
  - split; [exact HI|]. split; [exact HL|]. split; [exact Hpt|].
    intros Hp i Hi Hni. assert (i = k \/ i < k)%nat as [->|Hlt] by lia.
    + exfalso. apply Hni. now apply Hfin.
    + now apply Hpf.
  - assert (Hnk : ~ In k (b_seq st)).
    { intros Hin. apply Hfin in Hin; [|assumption]. congruence. }
    rewrite Hw.
    destruct (finishable _ _ _) eqn:G.
    + apply finishable_iff in G; [|assumption].
      unfold round_inv_at, scan_inv. cbn [b_work b_finish b_seq b_progress].
      split; [|split; [|split]].
      * split; [now apply release_ok|].
        split; [now rewrite set_nth_length|].
        split; [|split; [|split]].
        -- intros i Hi. split; intros H.
           ++ apply in_or_app. destruct (Nat.eq_dec i k) as [->|Hne].
              ** right. now left.
              ** left. rewrite nth_set_nth_other in H by assumption.
                 now apply Hfin.
           ++ destruct (Nat.eq_dec i k) as [->|Hne].
              ** apply nth_set_nth_same. lia.
              ** rewrite nth_set_nth_other by assumption.
                 apply Hfin; [assumption|].
                 apply in_app_or in H.
                 destruct H as [H|[H|[]]]; [assumption|congruence].
        -- apply (Permutation_NoDup (Permutation_cons_append (b_seq st) k)).
           now constructor.
        -- intros i H. apply in_app_or in H. destruct H as [H|[<-|[]]]; auto.
        -- now apply finish_order_snoc.
      * rewrite length_app. simpl. lia.
      * intros _. rewrite length_app. simpl. lia.
      * discriminate.
    + split; [exact HI|]. split; [exact HL|]. split; [exact Hpt|].
      intros Hp i Hi Hni. assert (i = k \/ i < k)%nat as [->|Hlt] by lia.
      * intros Hc.
        pose proof (proj2 (finishable_iff (b_seq st) k Hk) Hc) as Hc'.
        exact (eq_true_false_abs _ Hc' G).
      * now apply Hpf.
Qed.

Lemma can_finishb_iff : forall done i,
  can_finishb available max alloc done i = true
  <-> can_finish available max alloc done i.
Proof.
  intros. unfold can_finishb, can_finish. rewrite forallb_forall. split.
  - intros H j Hj. apply Z.leb_le. apply H. apply in_seq. lia.
  - intros H j Hj. apply Z.leb_le. apply H. apply in_seq in Hj. lia.
Qed.

(** A step of the source's scan finishes the process the specification's
    scan finishes. *)
Lemma scan_step_seq : forall st k,
  (k < nn)%nat -> BInv st ->
  b_seq (scan_step mm nd alloc st k) = scan_one available max alloc (b_seq st) k.
Proof.
  intros st k Hk [Hw [_ [Hfin _]]]. unfold scan_step, scan_one.
  destruct (nth k (b_finish st) true) eqn:F.
  - apply Hfin in F; [|assumption].
    assert (E : existsb (Nat.eqb k) (b_seq st) = true).
    { apply existsb_exists. exists k. split; [assumption|apply Nat.eqb_refl]. }
    now rewrite E.
  - assert (E : existsb (Nat.eqb k) (b_seq st) = false).
    { destruct (existsb (Nat.eqb k) (b_seq st)) eqn:E; [|reflexivity].
      apply existsb_exists in E. destruct E as [x [Hx Ex]].
      apply Nat.eqb_eq in Ex. subst x. apply Hfin in Hx; [congruence|assumption]. }
    rewrite E, Hw.
    pose proof (finishable_iff (b_seq st) k Hk) as H1.
    pose proof (can_finishb_iff (b_seq st) k) as H2.
    destruct (finishable _ _ _); destruct (can_finishb _ _ _ _ _);
      try reflexivity; exfalso.
    + assert (true = true) as T by reflexivity.
      apply H1, H2 in T. discriminate T.
    + assert (true = true) as T by reflexivity.
      apply H2, H1 in T. discriminate T.
Qed.

Lemma scan_step_quiet : forall st k,
  b_progress (scan_step mm nd alloc st k) = false ->
  scan_step mm nd alloc st k = st.
Proof.
  intros st k. unfold scan_step.
  destruct (nth k (b_finish st) true); [reflexivity|].
  destruct (finishable _ _ _); [discriminate|reflexivity].
Qed.

Lemma round_inv : forall st,
  BInv st ->
  ScanInv (length (b_seq st)) nn
    (fold_left (scan_step mm nd alloc) (seq 0 nn)
               (mkBState (b_work st) (b_finish st) (b_seq st) false))
  /\ b_seq (fold_left (scan_step mm nd alloc) (seq 0 nn)
                      (mkBState (b_work st) (b_finish st) (b_seq st) false))
     = scan_round available max alloc (b_seq st)
  /\ (b_progress (fold_left (scan_step mm nd alloc) (seq 0 nn)
                             (mkBState (b_work st) (b_finish st) (b_seq st) false))
      = false ->
      scan_round available max alloc (b_seq st) = b_seq st).
Proof.
  intros st HI.
  pose proof (fold_seq_rule _ (scan_step mm nd alloc)
                (fun k s => ScanInv (length (b_seq st)) k s
                            /\ b_seq s = fold_left (scan_one available max alloc)
                                                   (seq 0 k) (b_seq st)
                            /\ (b_progress s = false -> b_seq s = b_seq st))
                nn O (mkBState (b_work st) (b_finish st) (b_seq st) false)) as H.
  cbv beta in H. destruct H as [H1 [H2 H3]].
  - intros i s Hi [Hs [Hseq Hq]]. split; [apply scan_step_inv; [lia|assumption]|].
    split.
    + rewrite scan_step_seq; [|lia|apply Hs].
      rewrite seq_S, fold_left_app. simpl. now rewrite Hseq.
    + intros Hp. pose proof (scan_step_quiet s i Hp) as E.
      rewrite E in Hp |- *. now apply Hq.
  - split; [|split; [reflexivity|reflexivity]].
    split; [exact HI|]. cbn [b_seq b_progress].
    split; [lia|]. split; [discriminate|]. intros _ i Hi. lia.
  - cbn [Nat.add] in H1, H2, H3. split; [exact H1|]. split; [exact H2|].
    intros Hp. unfold scan_round. rewrite <- H2. now apply H3.
Qed.

(** The rounds are over within [n + 2] turns, in a state where every
    process finished was finishable when chosen and none of the others
    is finishable any more; the processes finished are those of the
    specification's scan, in its order. *)
Lemma scan_terminates :
  exists st,
    while_loop (round_step nn mm nd alloc) (nn + 2)
               (mkBState (map Some available) (repeat false nn) [] true) = Some st
    /\ BInv st /\ stuck available max alloc (b_seq st)
    /\ scan_to available max alloc [] (b_seq st).
Proof.
  apply (while_loop_rule _ _ (round_step nn mm nd alloc)
           (fun st => BInv st
                      /\ (b_progress st = false -> stuck available max alloc (b_seq st))
                      /\ (if b_progress st
                          then forall final,
                                 scan_to available max alloc (b_seq st) final ->
                                 scan_to available max alloc [] final
                          else scan_to available max alloc [] (b_seq st)))
           (fun st => (nn - length (b_seq st)
                       + (if b_progress st then 1 else 0))%nat)
           (fun st => BInv st /\ stuck available max alloc (b_seq st)
                      /\ scan_to available max alloc [] (b_seq st))).
  - intros st [HI [Hst Hscan]]. unfold round_step.
    destruct (b_progress st) eqn:P.
    + destruct (round_inv st HI) as [[HI' [HL [Hpt Hpf]]] [Hseq Hquiet]].
      set (st' := fold_left _ _ _) in *.
      split; [split; [assumption|split]|].
      * intros Hp i Hi. now apply Hpf.
      * destruct (b_progress st') eqn:P'.
        -- intros final Hfinal. apply Hscan. apply scan_more.
           ++ rewrite <- Hseq. intros E. specialize (Hpt eq_refl).
              rewrite E in Hpt. lia.
           ++ now rewrite <- Hseq.
        -- specialize (Hquiet eq_refl). rewrite Hseq, Hquiet.
           apply Hscan. now apply scan_stop.
      * destruct HI' as [_ [_ [_ [Hnd' [Hb' _]]]]].
        pose proof (bounded_NoDup_length _ _ Hnd' Hb') as Hle.
        destruct (b_progress st') eqn:P'.
        -- specialize (Hpt eq_refl). lia.
        -- lia.
    + split; [assumption|]. split; [now apply Hst|assumption].
  - split; [|split; [discriminate|intros final H; exact H]].
    unfold scan_inv. cbn [b_work b_finish b_seq].
    split; [reflexivity|]. split; [now rewrite repeat_length|].
    split; [|split; [constructor|split]].
    + intros i Hi. split; [|intros []].
      intros H. exfalso. rewrite nth_repeat_lt in H by assumption.
      discriminate H.
    + intros i [].
    + intros pre i post E. destruct pre; discriminate E.
  - cbn [b_seq b_progress]. simpl length. lia.
Qed.
End BankersScan.

(** C2. For every input whose matrices have matching dimensions (and so
    for every such input with [allocation <= max]), [isSafe] returns, and
    what it returns is the outcome of the fixed-point scan: [order], the
    finish order of the scan in rounds ([scan_to]), holds no process
    twice, every process in it was finishable ([need[i][j] <= work[j]]
    for all [j], [work] being [available] plus the allocations of the
    processes finished before) when it was chosen, and after it no other
    process is finishable; [safe] is true exactly if [order] holds every
    process; the sequence returned is [order] when safe and empty when
    not; [need] is [max - allocation]. *)
Theorem isSafe_fixed_point_scan : forall available max alloc,
  well_dimensioned available max alloc ->
  exists order r,
    isSafe available max alloc = Some (Returned r)
    /\ NoDup order
    /\ (forall i, In i order -> (i < length max)%nat)
    /\ finish_order available max alloc order
    /\ stuck available max alloc order
    /\ scan_to available max alloc [] order
    /\ (safe r = true <-> forall i, (i < length max)%nat -> In i order)
    /\ sequence r = (if safe r then order else [])
    /\ need r = map (map Some) (need_matrix (length available) max alloc).
Proof.
  intros available max alloc WD.
  destruct (scan_terminates available max alloc WD)
    as [st [Hrun [[Hw [Hfl [Hfin [Hnd [Hb Hord]]]]] [Hstuck Hscan]]]].
  exists (b_seq st). eexists. unfold isSafe. cbv zeta.
  rewrite (need_rows_ok available max alloc WD), Hrun.
  split; [reflexivity|]. cbn [safe sequence need].
  split; [assumption|]. split; [assumption|]. split; [assumption|].
  split; [assumption|]. split; [assumption|]. split; [|split; reflexivity].
  rewrite forallb_id_nth, Hfl. split; intros H i Hi.
  - apply Hfin; [assumption|]. now apply H.
  - apply Hfin; [assumption|]. now apply H.
Qed.

Lemma isSafe_fixed_point_scan_witness :
  well_dimensioned classic_available classic_max classic_alloc
  /\ exists order r,
    isSafe classic_available classic_max classic_alloc = Some (Returned r)
    /\ NoDup order
    /\ (forall i, In i order -> (i < length classic_max)%nat)
    /\ finish_order classic_available classic_max classic_alloc order
    /\ stuck classic_available classic_max classic_alloc order
    /\ scan_to classic_available classic_max classic_alloc [] order
    /\ (safe r = true <-> forall i, (i < length classic_max)%nat -> In i order)
    /\ sequence r = (if safe r then order else [])
    /\ need r = map (map Some)
                    (need_matrix (length classic_available) classic_max classic_alloc).
Proof.
  assert (WD : well_dimensioned classic_available classic_max classic_alloc).
  { split; [reflexivity|]. split; repeat constructor. }
  split; [exact WD|].
  exact (isSafe_fixed_point_scan classic_available classic_max classic_alloc WD).
Defined.

Lemma unfinished_set : forall finish i,
  nth i finish true = false ->
  (unfinished (set_nth i true finish) + 1 = unfinished finish)%nat.
Proof.
  unfold unfinished.
  induction finish as [|f finish IH]; intros [|i] H; simpl in *; try discriminate.
  - subst f. simpl. lia.
  - specialize (IH i H). destruct f; simpl; lia.
Qed.

Lemma unfinished_repeat : forall n, unfinished (repeat false n) = n.
Proof.
  unfold unfinished. induction n as [|n IH]; simpl; [reflexivity|]. now rewrite IH.
Qed.

(** On any input, a step of the scan never raises the number of
    unfinished processes, and lowers it when it reports progress. *)
Lemma scan_step_unfinished : forall m nd alloc c0 st i,
  (unfinished (b_finish st) <= c0)%nat
  /\ (b_progress st = true -> (unfinished (b_finish st) < c0)%nat) ->
  (unfinished (b_finish (scan_step m nd alloc st i)) <= c0)%nat
  /\ (b_progress (scan_step m nd alloc st i) = true ->
      (unfinished (b_finish (scan_step m nd alloc st i)) < c0)%nat).
Proof.
  intros m nd alloc c0 st i [Hle Hlt]. unfold scan_step.
  destruct (nth i (b_finish st) true) eqn:F; [now split|].
  destruct (finishable _ _ _); [|now split].
  cbn [b_finish b_progress]. pose proof (unfinished_set _ _ F). split; [lia|].
  intros _. lia.
Qed.

(** Whatever the input, the rounds of [isSafe] are over within its fuel. *)
Lemma rounds_end : forall n m nd alloc work,
  exists st,
    while_loop (round_step n m nd alloc) (n + 2)
               (mkBState work (repeat false n) [] true) = Some st.
Proof.
  intros n m nd alloc work.
  destruct (while_loop_rule _ _ (round_step n m nd alloc)
              (fun _ => True)
              (fun st => (unfinished (b_finish st)
                          + (if b_progress st then 1 else 0))%nat)
              (fun _ => True)) with (fuel := (n + 2)%nat)
              (s := mkBState work (repeat false n) [] true) as [st [Hst _]].
  - intros st _. unfold round_step. destruct (b_progress st) eqn:P; [|exact I].
    split; [exact I|].
    pose proof (fold_seq_rule _ (scan_step m nd alloc)
                  (fun _ s => (unfinished (b_finish s) <= unfinished (b_finish st))%nat
                              /\ (b_progress s = true ->
                                  (unfinished (b_finish s) < unfinished (b_finish st))%nat))
                  n O (mkBState (b_work st) (b_finish st) (b_seq st) false)) as H.
    cbv beta in H. destruct H as [Hle Hlt].
    + intros i s _ Hs. now apply scan_step_unfinished.
    + cbn [b_finish b_progress]. split; [lia|discriminate].
    + destruct (b_progress (fold_left _ _ _)); [specialize (Hlt eq_refl)|]; lia.
  - exact I.
  - cbn [b_finish b_progress]. rewrite unfinished_repeat. lia.
  - now exists st.
Qed.

Lemma need_rows_TypeError : forall m rest i alloc,
  need_rows m i rest alloc = TypeError ->
  (0 < m)%nat /\ (length alloc < i + length rest)%nat.
Proof.
  induction rest as [|mrow rest IH]; intros i alloc H; simpl in H; [discriminate|].
  destruct (need_row m mrow (nth_error alloc i)) as [r|] eqn:E.
  - destruct (need_rows m (Datatypes.S i) rest alloc) as [rs|] eqn:F;
      [discriminate|].
    destruct (IH _ _ F) as [Hm Hl]. split; [assumption|]. simpl. lia.
  - unfold need_row in E. destruct m as [|m']; [discriminate|].
    destruct (nth_error alloc i) as [ar|] eqn:G; [discriminate|].
    apply nth_error_None in G. split; [lia|]. simpl. lia.
Qed.

Lemma need_rows_Returned : forall m rest i alloc nd,
  need_rows m i rest alloc = Returned nd ->
  (0 < m)%nat -> rest = [] \/ (i + length rest <= length alloc)%nat.
Proof.
  induction rest as [|mrow rest IH]; intros i alloc nd H Hm; [now left|].
  right. simpl in *.
  destruct (need_row m mrow (nth_error alloc i)) as [r|] eqn:E; [|discriminate].
  destruct (need_rows m (Datatypes.S i) rest alloc) as [rs|] eqn:F;
    [|discriminate].
  assert (Hi : (i < length alloc)%nat).
  { unfold need_row in E. destruct m as [|m']; [lia|].
    destruct (nth_error alloc i) as [ar|] eqn:G; [|discriminate].
    apply nth_error_Some. congruence. }
  destruct (IH _ _ _ F Hm) as [->|Hle]; simpl; lia.
Qed.

(** C7, as stated, fails: [isSafe] returns an ordinary result for an
    allocation above [max] and for rows shorter than [available] (a
    [need] with [NaN] in it), and [roundRobin] returns a schedule for
    quantum 0 on the empty list. *)
Lemma invalid_input_gets_a_result :
  isSafe [0] [[1]] [[2]]
  = Some (Returned (mkBankers true [O] [[Some (-1)]]))
  /\ isSafe [1; 1] [[1]] [[0]]
     = Some (Returned (mkBankers true [O] [[Some 1; None]]))
  /\ roundRobin 1 [] 0 = Some [].
Proof. repeat split. Qed.

(** C7, amended. The engine does not validate its input.  For every
    Banker's input of matching dimensions, whether or not an allocation
    entry exceeds its [max] entry, [isSafe] runs the scan and returns its
    result, [need] being [max - allocation] (negative where the allocation
    is the larger).  On every input [isSafe] comes to an end, and the
    only error it ends in is the [TypeError] of an allocation matrix with
    fewer rows than [max].  [roundRobin] on the empty list returns the
    empty schedule for every quantum. *)
Theorem engine_does_not_validate :
  (forall available max alloc,
     well_dimensioned available max alloc ->
     exists r, isSafe available max alloc = Some (Returned r)
       /\ need r = map (map Some) (need_matrix (length available) max alloc))
  /\ (forall available max alloc,
        (exists o, isSafe available max alloc = Some o)
        /\ (isSafe available max alloc = Some TypeError
            <-> (0 < length available)%nat /\ (length alloc < length max)%nat))
  /\ (forall fuel quantum, roundRobin (Datatypes.S fuel) [] quantum = Some []).
Proof.
  split; [|split].
  - intros available max alloc WD.
    destruct (scan_terminates available max alloc WD) as [st [Hrun _]].
    eexists. unfold isSafe. cbv zeta.
    rewrite (need_rows_ok available max alloc WD), Hrun.
    split; reflexivity.
  - intros available max alloc. unfold isSafe. cbv zeta.
    destruct (need_rows (length available) 0 max alloc) as [nd|] eqn:E.
    + destruct (rounds_end (length max) (length available) nd alloc
                  (map Some available)) as [st Hst].
      rewrite Hst. split; [eexists; reflexivity|]. split.
      * discriminate.
      * intros [Hm Hl].
        destruct (need_rows_Returned _ _ _ _ _ E Hm) as [->|Hle]; simpl in *; lia.
    + split; [eexists; reflexivity|]. split; [|reflexivity]. intros _.
      apply need_rows_TypeError in E. simpl in E. exact E.
  - reflexivity.
Qed.

Lemma engine_does_not_validate_witness :
  well_dimensioned [0] [[1]] [[2]]
  /\ exists r, isSafe [0] [[1]] [[2]] = Some (Returned r)
       /\ need r = map (map Some) (need_matrix (length [0]) [[1]] [[2]]).
Proof.
  assert (WD : well_dimensioned [0] [[1]] [[2]]).
  { split; [reflexivity|]. split; repeat constructor. }
  split; [exact WD|].
  exact (proj1 engine_does_not_validate [0] [[1]] [[2]] WD).
Defined.

(** ** CPU scheduling: shared facts *)

Lemma fold_add_shift : forall (A : Type) (g : A -> Z) l x,
  fold_left (fun a b => a + g b) l x = x + fold_left (fun a b => a + g b) l 0.
Proof.
  induction l as [|b l IH]; intros x; simpl; [lia|].
  rewrite IH. rewrite (IH (g b)). lia.
Qed.

Lemma executed_app : forall s1 s2 x,
  executed (s1 ++ s2) x = executed s1 x + executed s2 x.
Proof.
  intros. unfold executed. rewrite filter_app, fold_left_app.
  apply fold_add_shift.
Qed.

Lemma executed_snoc : forall s x p a b,
  executed (s ++ [mkSegment p a (Some b)]) x
  = executed s x + (if String.eqb p x then b - a else 0).
Proof.
  intros. rewrite executed_app. f_equal. unfold executed. simpl.
  destruct (String.eqb p x); reflexivity.
Qed.

Lemma closed_snoc : forall s p a b,
  Forall closed s -> Forall closed (s ++ [mkSegment p a (Some b)]).
Proof.
  intros. apply Forall_app. split; [assumption|].
  constructor; [discriminate|constructor].
Qed.

Lemma demand_perm : forall l l' x, Permutation l l' -> demand l x = demand l' x.
Proof.
  intros l l' x H. induction H; simpl.
  - reflexivity.
  - now rewrite IHPermutation.
  - destruct (String.eqb (pid x0) x), (String.eqb (pid y) x); lia.
  - congruence.
Qed.

Lemma demand_absent : forall l x, ~ In x (map pid l) -> demand l x = 0.
Proof.
  induction l as [|q l IH]; intros x H; simpl; [reflexivity|].
  destruct (String.eqb (pid q) x) eqn:E.
  - apply String.eqb_eq in E. exfalso. apply H. now left.
  - apply IH. intros Hin. apply H. now right.
Qed.

Lemma demand_unique : forall l p,
  NoDup (map pid l) -> In p l -> demand l (pid p) = burst p.
Proof.
  induction l as [|q l IH]; intros p Hnd Hin; [destruct Hin|].
  simpl in Hnd. inversion Hnd as [|? ? Hq Hl]; subst. simpl.
  destruct Hin as [->|Hin].
  - rewrite String.eqb_refl. rewrite demand_absent by assumption. lia.
  - destruct (String.eqb (pid q) (pid p)) eqn:E.
    + apply String.eqb_eq in E. exfalso. apply Hq. rewrite E.
      now apply in_map.
    + now apply IH.
Qed.

Lemma set_has_true : forall s x, set_has s x = true <-> In x s.
Proof.
  intros. unfold set_has. rewrite existsb_exists. split.
  - intros [y [Hy E]]. apply String.eqb_eq in E. now subst.
  - intros H. exists x. split; [assumption|apply String.eqb_refl].
Qed.

Lemma set_has_false : forall s x, set_has s x = false <-> ~ In x s.
Proof.
  intros. rewrite <- set_has_true. now destruct (set_has s x).
Qed.

(** Fewer pids marked than there are processes: one process is unmarked. *)
Lemma unmarked_process : forall processes (seen : pid_set),
  NoDup (map pid processes) ->
  (length seen < length processes)%nat ->
  exists p, In p processes /\ ~ In (pid p) seen.
Proof.
  intros processes seen Hnd Hlen.
  destruct (find (fun p => negb (set_has seen (pid p))) processes) as [p|] eqn:F.
  - apply find_some in F. destruct F as [Hin Hp]. exists p. split; [assumption|].
    apply set_has_false. now apply negb_true_iff.
  - exfalso.
    assert (Hincl : incl (map pid processes) seen).
    { intros x Hx. apply in_map_iff in Hx. destruct Hx as [p [<- Hp]].
      pose proof (find_none _ _ F p Hp) as Hn. simpl in Hn.
      apply negb_false_iff in Hn. now apply set_has_true. }
    pose proof (NoDup_incl_length Hnd Hincl) as Hl.
    rewrite length_map in Hl. lia.
Qed.

(** As many distinct pids marked as there are processes: all are marked. *)
Lemma all_marked : forall processes (seen : pid_set),
  NoDup seen -> incl seen (map pid processes) ->
  (length processes <= length seen)%nat ->
  forall p, In p processes -> In (pid p) seen.
Proof.
  intros processes seen Hnd Hincl Hlen p Hp.
  assert (Hl : (length (map pid processes) <= length seen)%nat)
    by (rewrite length_map; lia).
  apply (NoDup_length_incl Hnd Hl Hincl). now apply in_map.
Qed.

Lemma max_arrival_ge : forall processes p,
  In p processes -> arrival p <= max_arrival processes.
Proof.
  induction processes as [|q l IH]; intros p H; simpl in *; [destruct H|].
  destruct H as [->|H]; [lia|]. specialize (IH p H). lia.
Qed.

Lemma fold_min_nonneg : forall l x,
  0 <= x -> Forall (fun a => 0 <= a) l -> 0 <= fold_left Z.min l x.
Proof.
  induction l as [|a l IH]; intros x Hx Hl; simpl; [assumption|].
  inversion Hl; subst. apply IH; [lia|assumption].
Qed.

Lemma min_arrival_nonneg : forall processes,
  Forall (fun p => 0 <= arrival p /\ 0 < burst p) processes ->
  0 <= min_arrival processes.
Proof.
  intros [|p ps] H; simpl; [lia|].
  inversion H as [|? ? [Hp _] Hps]; subst.
  apply fold_min_nonneg; [assumption|].
  rewrite Forall_map. eapply Forall_impl; [|exact Hps]. intros a [Ha _]. exact Ha.
Qed.

Lemma sum_burst_pos : forall processes,
  Forall (fun p => 0 <= arrival p /\ 0 < burst p) processes ->
  0 <= sum_burst processes.
Proof.
  induction 1 as [|p l [_ Hp] _ IH]; simpl; lia.
Qed.

(** ** FCFS, SJF and priority: each process runs in one piece *)

Lemma fcfs_fold : forall l t s x,
  Forall closed s ->
  Forall closed (snd (fold_left fcfs_step l (t, s)))
  /\ executed (snd (fold_left fcfs_step l (t, s))) x = executed s x + demand l x.
Proof.
  induction l as [|p l IH]; intros t s x Hs; simpl fold_left.
  - simpl. split; [assumption|lia].
  - unfold fcfs_step at 2 4. cbn [fst snd].
    destruct (IH (Z.max t (arrival p) + burst p)
                 (s ++ [mkSegment (pid p) (Z.max t (arrival p))
                                  (Some (Z.max t (arrival p) + burst p))]) x
                 (closed_snoc _ _ _ _ Hs)) as [Hc He].
    split; [assumption|]. rewrite He, executed_snoc. simpl demand.
    destruct (String.eqb (pid p) x); lia.
Qed.

Lemma fcfs_conserves : forall processes,
  valid_processes processes -> conserves processes (fcfs processes).
Proof.
  intros processes [Hnd _]. unfold fcfs. split.
  - apply (fcfs_fold (sort_by arrival processes) 0 [] EmptyString).
    constructor.
  - intros p Hp.
    destruct (fcfs_fold (sort_by arrival processes) 0 [] (pid p) (Forall_nil _))
      as [_ He].
    rewrite He. change (executed [] (pid p)) with 0.
    rewrite (demand_perm _ _ (pid p) (sort_by_perm _ arrival processes)).
    rewrite demand_unique by assumption. lia.
Qed.

Lemma set_add_fresh : forall s x, ~ In x s -> set_add s x = s ++ [x].
Proof.
  intros s x H. unfold set_add. apply set_has_false in H. now rewrite H.
Qed.

(** Running a process not yet marked, in one piece, and marking it. *)
Lemma marked_inv_run : forall processes marked schedule p t,
  NoDup (map pid processes) ->
  marked_inv processes marked schedule ->
  In p processes -> ~ In (pid p) marked ->
  marked_inv processes (set_add marked (pid p))
             (schedule ++ [mkSegment (pid p) t (Some (t + burst p))]).
Proof.
  intros processes marked schedule p t Hpids [Hnd [Hincl [Hcl Hex]]] Hp Hnew.
  rewrite set_add_fresh by assumption.
  split; [|split; [|split]].
  - apply (Permutation_NoDup (Permutation_cons_append marked (pid p))).
    now constructor.
  - intros x Hx. apply in_app_or in Hx. destruct Hx as [Hx|[<-|[]]].
    + now apply Hincl.
    + now apply in_map.
  - now apply closed_snoc.
  - intros x. rewrite executed_snoc, Hex.
    destruct (String.eqb (pid p) x) eqn:E.
    + apply String.eqb_eq in E. subst x.
      assert (H1 : set_has marked (pid p) = false) by now apply set_has_false.
      assert (H2 : set_has (marked ++ [pid p]) (pid p) = true).
      { apply set_has_true. apply in_or_app. right. now left. }
      rewrite H1, H2, demand_unique by assumption. lia.
    + assert (H : set_has (marked ++ [pid p]) x = set_has marked x).
      { unfold set_has. rewrite existsb_app. simpl.
        rewrite String.eqb_sym, E. now rewrite !orb_false_r. }
      rewrite H. lia.
Qed.

Lemma marked_inv_done : forall processes marked schedule,
  NoDup (map pid processes) ->
  marked_inv processes marked schedule ->
  (length processes <= length marked)%nat ->
  conserves processes schedule.
Proof.
  intros processes marked schedule Hpids [Hnd [Hincl [Hcl Hex]]] Hlen.
  split; [assumption|]. intros p Hp.
  pose proof (all_marked processes marked Hnd Hincl Hlen p Hp) as Hin.
  apply set_has_true in Hin. rewrite Hex, Hin. now apply demand_unique.
Qed.

Lemma marked_length : forall processes marked schedule,
  marked_inv processes marked schedule ->
  (length marked <= length processes)%nat.
Proof.
  intros processes marked schedule [Hnd [Hincl _]].
  pose proof (NoDup_incl_length Hnd Hincl) as H. now rewrite length_map in H.
Qed.

Lemma prio_step_ok : forall processes st,
  valid_processes processes ->
  marked_inv processes (prio_done st) (prio_schedule st) ->
  match prio_step processes st with
  | inl st' =>
      marked_inv processes (prio_done st') (prio_schedule st')
      /\ (marked_measure processes (prio_done st') (prio_t st')
          < marked_measure processes (prio_done st) (prio_t st))%nat
  | inr schedule => conserves processes schedule
  end.
Proof.
  intros processes [t done schedule] [Hpids Hpos] HI. unfold prio_step.
  cbn [prio_t prio_done prio_schedule].
  destruct (length done <? length processes)%nat eqn:G.
  - apply Nat.ltb_lt in G.
    set (ready := filter _ processes).
    destruct (sort_by (fun p => nullish (priority p) 0) ready) as [|p rest] eqn:Es.
    + apply sort_by_nil_inv in Es. cbn [prio_t prio_done prio_schedule].
      split; [assumption|].
      destruct (unmarked_process processes done Hpids G) as [p [Hp Hnp]].
      assert (Hlate : t < arrival p).
      { destruct (arrival p <=? t) eqn:A; [|now apply Z.leb_gt in A].
        exfalso. assert (Hin : In p ready).
        { apply filter_In. split; [assumption|]. rewrite A.
          apply set_has_false in Hnp. now rewrite Hnp. }
        rewrite Es in Hin. destruct Hin. }
      pose proof (max_arrival_ge processes p Hp).
      unfold marked_measure. lia.
    + assert (Hin : In p ready).
      { apply (Permutation_in p (sort_by_perm _ (fun q => nullish (priority q) 0) ready)).
        rewrite Es. now left. }
      apply filter_In in Hin. destruct Hin as [Hp Hc].
      apply andb_true_iff in Hc. destruct Hc as [_ Hnd].
      apply negb_true_iff, set_has_false in Hnd.
      cbn [prio_t prio_done prio_schedule].
      split; [now apply marked_inv_run|].
      rewrite Forall_forall in Hpos. destruct (Hpos p Hp) as [_ Hb].
      unfold marked_measure. rewrite set_add_fresh by assumption.
      rewrite length_app. simpl. lia.
  - apply Nat.ltb_ge in G. now apply (marked_inv_done processes done).
Qed.

Lemma marked_inv_init : forall processes, marked_inv processes [] [].
Proof.
  intros. split; [constructor|]. split; [intros x []|].
  split; [constructor|]. intros x. reflexivity.
Qed.

Lemma fuel_covers_marked : forall processes,
  valid_processes processes ->
  (marked_measure processes [] (min_arrival processes) < enough_fuel processes)%nat.
Proof.
  intros processes [_ Hpos]. unfold marked_measure, enough_fuel.
  pose proof (min_arrival_nonneg processes Hpos).
  pose proof (sum_burst_pos processes Hpos). simpl length. lia.
Qed.

Lemma priority_conserves : forall processes fuel,
  valid_processes processes -> (enough_fuel processes <= fuel)%nat ->
  exists schedule, priorityNonPreemptive fuel processes = Some schedule
                   /\ conserves processes schedule.
Proof.
  intros processes fuel Hv Hfuel. unfold priorityNonPreemptive.
  apply (while_loop_rule _ _ (prio_step processes)
           (fun st => marked_inv processes (prio_done st) (prio_schedule st))
           (fun st => marked_measure processes (prio_done st) (prio_t st))
           (conserves processes)).
  - intros st HI. now apply prio_step_ok.
  - apply marked_inv_init.
  - pose proof (fuel_covers_marked processes Hv).
    cbn [prio_done prio_t]. lia.
Qed.

Lemma sjf_admit_keeps : forall seen t l ready r,
  In r ready -> In r (fold_left (sjf_admit seen t) l ready).
Proof.
  induction l as [|q l IH]; intros ready r H; simpl; [assumption|].
  apply IH. unfold sjf_admit.
  destruct (_ && _); [apply in_or_app; now left|assumption].
Qed.

Lemma has_pid_iff : forall (ready : list Process) x,
  existsb (fun r => String.eqb (pid r) x) ready = true <-> In x (map pid ready).
Proof.
  intros. rewrite existsb_exists, in_map_iff. split.
  - intros [r [Hr E]]. apply String.eqb_eq in E. now exists r.
  - intros [r [E Hr]]. exists r. split; [assumption|]. now apply String.eqb_eq.
Qed.

(** The admission loop keeps the ready list duplicate-free and inside
    the unseen processes, and leaves out no unseen process that has
    arrived. *)
Lemma sjf_admit_all : forall processes seen t l ready,
  incl l processes ->
  NoDup (map pid ready) ->
  (forall r, In r ready -> In r processes /\ ~ In (pid r) seen) ->
  let ready' := fold_left (sjf_admit seen t) l ready in
  NoDup (map pid ready')
  /\ (forall r, In r ready' -> In r processes /\ ~ In (pid r) seen)
  /\ (forall q, In q l -> ~ In (pid q) seen -> arrival q <= t ->
        In (pid q) (map pid ready')).
Proof.
  induction l as [|a l IH]; intros ready Hl Hnd Hin; cbn zeta; simpl fold_left.
  - split; [assumption|]. split; [assumption|]. intros q [].
  - assert (Hl' : incl l processes) by (intros x Hx; apply Hl; now right).
    assert (Ha : In a processes) by (apply Hl; now left).
    unfold sjf_admit at 2 4 6.
    destruct (negb (set_has seen (pid a)) && (arrival a <=? t)
              && negb (existsb (fun r => String.eqb (pid r) (pid a)) ready)) eqn:C.
    + apply andb_true_iff in C. destruct C as [C C3].
      apply andb_true_iff in C. destruct C as [C1 C2].
      apply negb_true_iff in C1, C3. apply set_has_false in C1.
      assert (Hna : ~ In (pid a) (map pid ready)).
      { intros H. apply has_pid_iff in H. congruence. }
      destruct (IH (ready ++ [a]) Hl') as [I1 [I2 I3]].
      * rewrite map_app. simpl.
        apply (Permutation_NoDup (Permutation_cons_append _ (pid a))).
        now constructor.
      * intros r Hr. apply in_app_or in Hr. destruct Hr as [Hr|[<-|[]]]; auto.
      * split; [assumption|]. split; [assumption|].
        intros q [<-|Hq] Hs Ht; [|now apply I3].
        apply in_map. apply sjf_admit_keeps. apply in_or_app. right. now left.
    + destruct (IH ready Hl' Hnd Hin) as [I1 [I2 I3]].
      split; [assumption|]. split; [assumption|].
      intros q [<-|Hq] Hs Ht; [|now apply I3].
      apply set_has_false in Hs. apply Z.leb_le in Ht. rewrite Hs, Ht in C.
      simpl in C. apply negb_false_iff in C. apply has_pid_iff in C.
      apply in_map_iff in C. destruct C as [r [E Hr]]. rewrite <- E.
      apply in_map. now apply sjf_admit_keeps.
Qed.

Lemma sjf_step_ok : forall processes st,
  valid_processes processes ->
  sjf_inv processes st ->
  match sjf_step processes st with
  | inl st' =>
      sjf_inv processes st'
      /\ (marked_measure processes (sjf_seen st') (sjf_t st')
          < marked_measure processes (sjf_seen st) (sjf_t st))%nat
  | inr schedule => conserves processes schedule
  end.
Proof.
  intros processes [ready t schedule seen] [Hpids Hpos] [HI [Hnd Hin]].
  unfold sjf_step. cbn [sjf_ready sjf_t sjf_schedule sjf_seen] in *.
  destruct (length seen <? length processes)%nat eqn:G.
  - apply Nat.ltb_lt in G.
    destruct (sjf_admit_all processes seen t processes ready
                (incl_refl _) Hnd Hin) as [A1 [A2 A3]].
    cbn zeta in A1, A2, A3.
    set (ready' := fold_left (sjf_admit seen t) processes ready) in *.
    destruct (sort_by burst ready') as [|p rest] eqn:Es.
    + apply sort_by_nil_inv in Es.
      split; [split; [assumption|split; assumption]|].
      cbn [sjf_seen sjf_t].
      destruct (unmarked_process processes seen Hpids G) as [p [Hp Hnp]].
      assert (Hlate : t < arrival p).
      { destruct (Z_lt_le_dec t (arrival p)) as [|Hle]; [assumption|].
        exfalso. specialize (A3 p Hp Hnp Hle). rewrite Es in A3. destruct A3. }
      pose proof (max_arrival_ge processes p Hp).
      unfold marked_measure. lia.
    + pose proof (sort_by_perm _ burst ready') as Hperm. rewrite Es in Hperm.
      assert (Hp : In p ready').
      { apply (Permutation_in p Hperm). now left. }
      destruct (A2 p Hp) as [Hpp Hps].
      assert (Hnd' : NoDup (map pid (p :: rest))).
      { apply (Permutation_NoDup (Permutation_map pid (Permutation_sym Hperm))).
        assumption. }
      simpl in Hnd'. inversion Hnd' as [|? ? Hpr Hrest]; subst.
      cbn [sjf_ready sjf_t sjf_schedule sjf_seen].
      split; [split; [now apply marked_inv_run|split; [assumption|]]|].
      * intros r Hr.
        assert (Hr' : In r ready')
          by (apply (Permutation_in r Hperm); now right).
        destruct (A2 r Hr') as [Hrp Hrs]. split; [assumption|].
        rewrite set_add_fresh by assumption. intros H.
        apply in_app_or in H. destruct H as [H|[H|[]]]; [auto|].
        apply Hpr. rewrite H. now apply in_map.
      * rewrite Forall_forall in Hpos. destruct (Hpos p Hpp) as [_ Hb].
        unfold marked_measure. rewrite set_add_fresh by assumption.
        rewrite length_app. simpl. lia.
  - apply Nat.ltb_ge in G. now apply (marked_inv_done processes seen).
Qed.

Lemma sjf_conserves : forall processes fuel,
  valid_processes processes -> (enough_fuel processes <= fuel)%nat ->
  exists schedule, sjf fuel processes = Some schedule
                   /\ conserves processes schedule.
Proof.
  intros processes fuel Hv Hfuel. unfold sjf.
  apply (while_loop_rule _ _ (sjf_step processes)
           (sjf_inv processes)
           (fun st => marked_measure processes (sjf_seen st) (sjf_t st))
           (conserves processes)).
  - intros st HI. now apply sjf_step_ok.
  - split; [apply marked_inv_init|]. split; [constructor|]. intros r [].
  - pose proof (fuel_covers_marked processes Hv).
    cbn [sjf_seen sjf_t]. lia.
Qed.

(** ** Jobs with a remaining time *)

Lemma indexed_from_nth : forall (A : Type) (l : list A) k i x,
  In (i, x) (combine (seq k (length l)) l) <->
  (k <= i)%nat /\ nth_error l (i - k) = Some x.
Proof.
  induction l as [|a l IH]; intros k i x; simpl.
  - split; [intros []|]. intros [_ H]. destruct (i - k)%nat; discriminate H.
  - rewrite IH. split.
    + intros [E|[Hle Hn]].
      * inversion E; subst. rewrite Nat.sub_diag. split; [lia|reflexivity].
      * split; [lia|]. replace (i - k)%nat with (Datatypes.S (i - Datatypes.S k)) by lia.
        exact Hn.
    + intros [Hle Hn]. destruct (Nat.eq_dec i k) as [->|Hne].
      * rewrite Nat.sub_diag in Hn. simpl in Hn. left. congruence.
      * right. split; [lia|].
        replace (i - k)%nat with (Datatypes.S (i - Datatypes.S k)) in Hn by lia.
        exact Hn.
Qed.

Lemma indexed_nth : forall (A : Type) (l : list A) i x,
  In (i, x) (indexed l) <-> nth_error l i = Some x.
Proof.
  intros. unfold indexed. rewrite indexed_from_nth, Nat.sub_0_r.
  split; [now intros [_ H]|]. intros H. split; [lia|assumption].
Qed.

Lemma job_procs_update : forall r k procs,
  map job_proc (update_nth (dec_remaining r) k procs) = map job_proc procs.
Proof.
  induction k as [|k IH]; intros [|j procs]; simpl; try reflexivity.
  now rewrite IH.
Qed.

Lemma done_work_update : forall r k procs j x,
  nth_error procs k = Some j ->
  done_work (update_nth (dec_remaining r) k procs) x
  = done_work procs x + (if String.eqb (pid (job_proc j)) x then r else 0).
Proof.
  induction k as [|k IH]; intros [|a procs] j x H; simpl in H; try discriminate.
  - inversion H; subst. simpl.
    destruct (String.eqb (pid (job_proc j)) x); lia.
  - simpl. rewrite (IH procs j x H).
    destruct (String.eqb (pid (job_proc a)) x),
             (String.eqb (pid (job_proc j)) x); lia.
Qed.

Lemma sum_remaining_update : forall r k procs j,
  nth_error procs k = Some j ->
  sum_remaining (update_nth (dec_remaining r) k procs) = sum_remaining procs - r.
Proof.
  induction k as [|k IH]; intros [|a procs] j H; simpl in H; try discriminate.
  - simpl. lia.
  - simpl. rewrite (IH procs j H). lia.
Qed.

Lemma sum_remaining_nonneg : forall procs,
  (forall j, In j procs -> 0 <= remaining j) -> 0 <= sum_remaining procs.
Proof.
  induction procs as [|a procs IH]; intros H; simpl; [lia|].
  pose proof (H a (or_introl eq_refl)).
  assert (0 <= sum_remaining procs) by (apply IH; intros; apply H; now right).
  lia.
Qed.

Lemma sum_remaining_ge : forall procs j,
  (forall j, In j procs -> 0 <= remaining j) -> In j procs ->
  remaining j <= sum_remaining procs.
Proof.
  induction procs as [|a procs IH]; intros j H Hj; [destruct Hj|]. simpl.
  assert (Hrest : forall j, In j procs -> 0 <= remaining j)
    by (intros; apply H; now right).
  pose proof (sum_remaining_nonneg procs Hrest).
  pose proof (H a (or_introl eq_refl)).
  destruct Hj as [->|Hj]; [lia|]. specialize (IH j Hrest Hj). lia.
Qed.

Lemma in_update_nth : forall r k procs j',
  In j' (update_nth (dec_remaining r) k procs) ->
  In j' procs \/ exists j, nth_error procs k = Some j /\ j' = dec_remaining r j.
Proof.
  induction k as [|k IH]; intros [|a procs] j' H; simpl in *; try tauto.
  - destruct H as [<-|H]; [right; now exists a|left; now right].
  - destruct H as [<-|H]; [left; now left|].
    destruct (IH procs j' H) as [H'|H']; [left; now right|now right].
Qed.

(** Jobs all run to the end have done the whole demand. *)
Lemma done_work_finished : forall procs x,
  (forall j, In j procs -> remaining j = 0) ->
  done_work procs x = demand (map job_proc procs) x.
Proof.
  induction procs as [|a procs IH]; intros x H; simpl; [reflexivity|].
  rewrite IH by (intros; apply H; now right).
  rewrite (H a (or_introl eq_refl)).
  destruct (String.eqb (pid (job_proc a)) x); lia.
Qed.

Lemma done_work_fresh : forall processes x,
  done_work (map job_of processes) x = 0.
Proof.
  induction processes as [|p l IH]; intros x; simpl; [reflexivity|].
  rewrite IH. destruct (String.eqb (pid p) x); lia.
Qed.

Lemma sum_remaining_fresh : forall processes,
  sum_remaining (map job_of processes) = sum_burst processes.
Proof.
  induction processes as [|p l IH]; simpl; [reflexivity|]. now rewrite IH.
Qed.

Lemma job_procs_fresh : forall processes, map job_proc (map job_of processes) = processes.
Proof.
  induction processes as [|p l IH]; simpl; [reflexivity|]. now rewrite IH.
Qed.

(** ** The open segment of SRTF *)

Lemma close_at_closed : forall t schedule,
  Forall closed schedule -> map (close_at t) schedule = schedule.
Proof.
  induction 1 as [|s l Hs _ IH]; simpl; [reflexivity|].
  rewrite IH. f_equal. destruct s as [p a [e|]]; [reflexivity|].
  exfalso. now apply Hs.
Qed.

Lemma ran_closed : forall t schedule x,
  Forall closed schedule -> ran t schedule x = executed schedule x.
Proof. intros. unfold ran. now rewrite close_at_closed. Qed.

Lemma ran_open : forall t front p s x,
  Forall closed front ->
  ran t (front ++ [mkSegment p s None]) x
  = executed front x + (if String.eqb p x then t - s else 0).
Proof.
  intros. unfold ran. rewrite map_app, close_at_closed by assumption.
  apply executed_snoc.
Qed.

Lemma set_last_end_snoc : forall t front s,
  set_last_end t (front ++ [s])
  = front ++ [mkSegment (seg_pid s) (seg_start s) (Some t)].
Proof.
  induction front as [|a front IH]; intros s; [reflexivity|].
  simpl. rewrite IH. destruct (front ++ [s]) eqn:E; [|reflexivity].
  destruct front; discriminate E.
Qed.

Lemma last_open_snoc : forall front p s,
  last_open (front ++ [mkSegment p s None]) = true.
Proof. intros. unfold last_open. now rewrite rev_app_distr. Qed.

(** ** SRTF *)

Lemma srtf_ready_in : forall procs t i j,
  In (i, j) (srtf_ready procs t)
  <-> nth_error procs i = Some j /\ arrival (job_proc j) <= t /\ 0 < remaining j.
Proof.
  intros. unfold srtf_ready. rewrite filter_In, indexed_nth. cbn [snd].
  rewrite andb_true_iff, Z.leb_le, Z.gtb_ltb, Z.ltb_lt. tauto.
Qed.

(** Closing the segment of the job that loses the processor leaves a
    schedule of closed segments that accounts for the same running times. *)
Lemma srtf_close_ok : forall processes st,
  srtf_inv processes st ->
  Forall closed (srtf_close (srtf_current st) (srtf_t st) (srtf_schedule st))
  /\ forall x, executed (srtf_close (srtf_current st) (srtf_t st) (srtf_schedule st)) x
               = done_work (srtf_procs st) x.
Proof.
  intros processes [procs t sch cur] [_ [_ [Hran Hcur]]].
  cbn [srtf_procs srtf_t srtf_schedule srtf_current] in *.
  destruct cur as [c|]; cbn [srtf_close].
  - destruct Hcur as [j [front [s [_ [_ [_ [-> Hfront]]]]]]].
    rewrite last_open_snoc, set_last_end_snoc. cbn [seg_pid seg_start].
    split; [now apply closed_snoc|].
    intros x. rewrite <- Hran, ran_open, executed_snoc by assumption. reflexivity.
  - split; [assumption|]. intros x. rewrite <- Hran. symmetry. now apply ran_closed.
Qed.

(** One time unit of the job at position [c], whose segment is the open
    one at the end of the schedule. *)
Lemma srtf_tick_ok : forall processes procs t sch c,
  srtf_inv processes (mkSrtf procs t sch (Some c)) ->
  srtf_inv processes (srtf_tick procs t sch c)
  /\ (srtf_measure processes (srtf_tick procs t sch c)
      < Z.to_nat (sum_remaining procs) + Z.to_nat (max_arrival processes - t))%nat.
Proof.
  intros processes procs t sch c [Hmap [Hrem [Hran Hcur]]].
  cbn [srtf_procs srtf_t srtf_schedule srtf_current] in *.
  destruct Hcur as [j [front [s [Hj [Hpos [Harr [-> Hfront]]]]]]].
  assert (Hin : In j procs) by (eapply nth_error_In; eassumption).
  pose proof (sum_remaining_ge procs j Hrem Hin) as Hsum.
  assert (Hrem1 : forall j', In j' (update_nth (dec_remaining 1) c procs) ->
                             0 <= remaining j').
  { intros j' H. apply in_update_nth in H. destruct H as [H|[j0 [H0 ->]]].
    - now apply Hrem.
    - rewrite Hj in H0. inversion H0; subst j0. simpl. lia. }
  assert (Hwork : forall x,
            done_work (update_nth (dec_remaining 1) c procs) x
            = executed front x
              + (if String.eqb (pid (job_proc j)) x then t + 1 - s else 0)).
  { intros x. rewrite (done_work_update 1 c procs j x Hj), <- Hran.
    rewrite ran_open by assumption.
    destruct (String.eqb (pid (job_proc j)) x); lia. }
  unfold srtf_tick. cbv zeta.
  rewrite update_nth_same, Hj. cbn [option_map dec_remaining remaining].
  unfold srtf_measure.
  destruct (remaining j - 1 =? 0) eqn:E; unfold srtf_inv;
    cbn [srtf_procs srtf_t srtf_schedule srtf_current];
    rewrite (sum_remaining_update 1 c procs j Hj).
  - split; [|lia].
    rewrite set_last_end_snoc. cbn [seg_pid seg_start].
    split; [now rewrite job_procs_update|]. split; [assumption|].
    split; [|now apply closed_snoc].
    intros x. rewrite ran_closed by now apply closed_snoc.
    rewrite executed_snoc. now rewrite Hwork.
  - apply Z.eqb_neq in E. split; [|lia].
    split; [now rewrite job_procs_update|]. split; [assumption|].
    split.
    + intros x. rewrite ran_open by assumption. now rewrite Hwork.
    + exists (dec_remaining 1 j), front, s.
      rewrite update_nth_same, Hj. cbn.
      repeat split; try assumption; lia.
Qed.

Lemma srtf_keep_some : forall procs cur next c,
  srtf_keep procs cur next = Some c -> cur = Some c.
Proof.
  intros procs [c'|] next c H; simpl in H; [|discriminate].
  destruct (pid_at procs c') as [cp|]; [|discriminate].
  destruct (String.eqb cp (pid (job_proc next))); [|discriminate].
  congruence.
Qed.

Lemma srtf_step_ok : forall processes st,
  valid_processes processes ->
  srtf_inv processes st ->
  match srtf_step st with
  | inl st' =>
      srtf_inv processes st'
      /\ (srtf_measure processes st' < srtf_measure processes st)%nat
  | inr schedule => conserves processes schedule
  end.
Proof.
  intros processes st [Hpids _] HI. pose proof HI as [Hmap [Hrem [Hran Hcur]]].
  unfold srtf_step.
  destruct (existsb (fun j => remaining j >? 0) (srtf_procs st)) eqn:G.
  - destruct (sort_by _ (srtf_ready (srtf_procs st) (srtf_t st)))
      as [|[ni next] rest] eqn:Es.
    + apply sort_by_nil_inv in Es.
      assert (Hnone : srtf_current st = None).
      { destruct (srtf_current st) as [c|]; [|reflexivity]. exfalso.
        destruct Hcur as [j [_ [_ [Hj [Hpos [Harr _]]]]]].
        assert (H : In (c, j) (srtf_ready (srtf_procs st) (srtf_t st)))
          by (apply srtf_ready_in; auto).
        rewrite Es in H. destruct H. }
      rewrite Hnone in *.
      apply existsb_exists in G. destruct G as [j [Hj Hpos]].
      rewrite Z.gtb_ltb in Hpos. apply Z.ltb_lt in Hpos.
      assert (Hlate : srtf_t st < arrival (job_proc j)).
      { destruct (Z_lt_le_dec (srtf_t st) (arrival (job_proc j))) as [|Hle];
          [assumption|]. exfalso.
        apply In_nth_error in Hj. destruct Hj as [i Hi].
        assert (H : In (i, j) (srtf_ready (srtf_procs st) (srtf_t st)))
          by (apply srtf_ready_in; auto).
        rewrite Es in H. destruct H. }
      assert (Hp : In (job_proc j) processes)
        by (rewrite <- Hmap; now apply in_map).
      pose proof (max_arrival_ge processes _ Hp).
      split.
      * split; [assumption|]. split; [assumption|].
        cbn [srtf_procs srtf_t srtf_schedule srtf_current].
        split; [|assumption].
        intros x. rewrite <- Hran. now rewrite !ran_closed.
      * unfold srtf_measure. cbn [srtf_procs srtf_t]. lia.
    + assert (Hnext : In (ni, next) (srtf_ready (srtf_procs st) (srtf_t st))).
      { apply (Permutation_in _ (sort_by_perm _ (fun ij => remaining (snd ij)) _)).
        rewrite Es. now left. }
      apply srtf_ready_in in Hnext. destruct Hnext as [Hn [Harr Hpos]].
      cbv zeta.
      destruct (srtf_keep (srtf_procs st) (srtf_current st) next) as [c|] eqn:K.
      * apply srtf_keep_some in K.
        apply srtf_tick_ok. destruct st as [procs t sch cur].
        cbn [srtf_procs srtf_t srtf_schedule srtf_current] in *. now subst cur.
      * destruct (srtf_close_ok processes st HI) as [Hcl Hex].
        apply srtf_tick_ok.
        split; [assumption|]. split; [assumption|].
        cbn [srtf_procs srtf_t srtf_schedule srtf_current].
        split.
        -- intros x. rewrite ran_open by assumption. rewrite Hex.
           destruct (String.eqb (pid (job_proc next)) x); lia.
        -- exists next. eexists. exists (srtf_t st).
           repeat split; try assumption; reflexivity.
  - assert (Hzero : forall j, In j (srtf_procs st) -> remaining j = 0).
    { intros j Hj. specialize (Hrem j Hj).
      destruct (Z_lt_le_dec 0 (remaining j)) as [Hpos|]; [|lia]. exfalso.
      assert (existsb (fun j => remaining j >? 0) (srtf_procs st) = true).
      { apply existsb_exists. exists j. split; [assumption|].
        rewrite Z.gtb_ltb. now apply Z.ltb_lt. }
      congruence. }
    assert (Hcl : Forall closed (srtf_schedule st)).
    { destruct (srtf_current st) as [c|]; [|assumption]. exfalso.
      destruct Hcur as [j [_ [_ [Hj [Hpos _]]]]].
      apply nth_error_In in Hj. specialize (Hzero j Hj). lia. }
    split; [assumption|]. intros p Hp.
    rewrite <- (ran_closed (srtf_t st)) by assumption.
    rewrite Hran, done_work_finished, Hmap by assumption.
    now apply demand_unique.
Qed.

Lemma srtf_conserves : forall processes fuel,
  valid_processes processes -> (enough_fuel processes <= fuel)%nat ->
  exists schedule, srtf fuel processes = Some schedule
                   /\ conserves processes schedule.
Proof.
  intros processes fuel Hv Hfuel. unfold srtf.
  apply (while_loop_rule _ _ srtf_step (srtf_inv processes)
           (srtf_measure processes) (conserves processes)).
  - intros st HI. now apply srtf_step_ok.
  - destruct Hv as [_ Hpos]. unfold srtf_inv.
    cbn [srtf_procs srtf_t srtf_schedule srtf_current].
    split; [apply job_procs_fresh|]. split; [|split; [|constructor]].
    + intros j Hj. apply in_map_iff in Hj. destruct Hj as [p [<- Hp]].
      rewrite Forall_forall in Hpos. destruct (Hpos p Hp). simpl. lia.
    + intros x. now rewrite done_work_fresh.
  - destruct Hv as [_ Hpos]. unfold srtf_measure, enough_fuel in *.
    cbn [srtf_procs srtf_t]. rewrite sum_remaining_fresh.
    pose proof (min_arrival_nonneg processes Hpos).
    pose proof (sum_burst_pos processes Hpos). lia.
Qed.

(** ** Round robin *)

Lemma rr_enqueue_spec : forall rest t i ready,
  exists cnt,
    rr_enqueue rest t i ready = ((i + cnt)%nat, ready ++ seq i cnt)
    /\ (cnt <= length rest)%nat
    /\ (forall j, nth_error rest cnt = Some j -> t < arrival (job_proc j)).
Proof.
  induction rest as [|j rest IH]; intros t i ready.
  - exists O. simpl. rewrite Nat.add_0_r, app_nil_r.
    split; [reflexivity|]. split; [lia|]. intros j H. discriminate H.
  - simpl. destruct (arrival (job_proc j) <=? t) eqn:A.
    + destruct (IH t (Datatypes.S i) (ready ++ [i])) as [cnt [E [Hc Hn]]].
      exists (Datatypes.S cnt). rewrite E. simpl.
      rewrite <- app_assoc, Nat.add_succ_r. simpl.
      split; [reflexivity|]. split; [lia|]. exact Hn.
    + exists O. simpl. rewrite Nat.add_0_r, app_nil_r.
      split; [reflexivity|]. split; [lia|].
      intros j' H. inversion H; subst. now apply Z.leb_gt in A.
Qed.

(** Admitting the arrived jobs keeps the invariant, and stops in front
    of a job that has not arrived. *)
Lemma rr_enqueue_inv : forall sorted hold procs ready t0 t i sch i1 ready1,
  (forall p, In p sorted -> 0 < burst p) ->
  rr_inv sorted hold (mkRR procs ready t0 i sch) ->
  rr_enqueue (skipn i procs) t i ready = (i1, ready1) ->
  rr_inv sorted hold (mkRR procs ready1 t i1 sch)
  /\ (forall j, nth_error procs i1 = Some j -> t < arrival (job_proc j))
  /\ exists cnt, i1 = (i + cnt)%nat /\ ready1 = ready ++ seq i cnt.
Proof.
  intros sorted hold procs ready t0 t i sch i1 ready1 Hpos
         [Hmap [Hcl [Hex [Hnd [Hi [Hready [Hhold Hjobs]]]]]]] E.
  cbn [rr_procs rr_ready rr_t rr_i rr_schedule] in *.
  destruct (rr_enqueue_spec (skipn i procs) t i ready) as [cnt [E' [Hc Hn]]].
  rewrite E in E'. inversion E'; subst i1 ready1. clear E E'.
  rewrite length_skipn in Hc.
  split; [|split].
  - unfold rr_inv. cbn [rr_procs rr_ready rr_t rr_i rr_schedule].
    split; [assumption|]. split; [assumption|]. split; [assumption|].
    split; [|split; [lia|split; [|split]]].
    + apply NoDup_app; [assumption|apply seq_NoDup|].
      intros k Hk Hs. apply in_seq in Hs. destruct (Hready k Hk). lia.
    + intros k Hk. apply in_app_or in Hk. destruct Hk as [Hk|Hk].
      * destruct (Hready k Hk). split; [lia|assumption].
      * apply in_seq in Hk. split; [lia|].
        intros Hh. symmetry in Hh. specialize (Hhold k Hh). lia.
    + intros h Hh. specialize (Hhold h Hh). lia.
    + intros k j Hk. destruct (Hjobs k j Hk) as [J0 [J1 [J2 J3]]].
      split; [assumption|]. split; [intros; apply J1; lia|]. split.
      * intros Hin. apply in_app_or in Hin. destruct Hin as [Hin|Hin]; [auto|].
        apply in_seq in Hin. rewrite J1 by lia. apply Hpos.
        rewrite <- Hmap. apply in_map. eapply nth_error_In; eassumption.
      * intros Hlt Hnin Hh. apply J3; [|intros H; apply Hnin; apply in_or_app; now left
                                       |assumption].
        destruct (Nat.lt_ge_cases k i) as [|Hge]; [assumption|]. exfalso.
        apply Hnin. apply in_or_app. right. apply in_seq. lia.
  - intros j Hj. apply Hn. now rewrite nth_error_skipn.
  - exists cnt. split; reflexivity.
Qed.

Lemma rr_waiting_le : forall st, (rr_waiting st <= 1)%nat.
Proof.
  intros st. unfold rr_waiting.
  destruct (rr_ready st); [|lia].
  destruct (nth_error (rr_procs st) (rr_i st)) as [j|]; [|lia].
  destruct (rr_t st <? arrival (job_proc j)); lia.
Qed.

(** Taking the head of the queue off for its slice. *)
Lemma rr_inv_pop : forall sorted procs pi ready t i sch,
  rr_inv sorted None (mkRR procs (pi :: ready) t i sch) ->
  rr_inv sorted (Some pi) (mkRR procs ready t i sch).
Proof.
  intros sorted procs pi ready t i sch
         [Hmap [Hcl [Hex [Hnd [Hi [Hready [Hhold Hjobs]]]]]]].
  cbn [rr_procs rr_ready rr_t rr_i rr_schedule] in *.
  apply NoDup_cons_iff in Hnd. destruct Hnd as [Hpi Hnd'].
  unfold rr_inv. cbn [rr_procs rr_ready rr_t rr_i rr_schedule].
  split; [assumption|]. split; [assumption|]. split; [assumption|].
  split; [assumption|]. split; [assumption|]. split; [|split].
  - intros k Hk. destruct (Hready k (or_intror Hk)) as [Hlt _].
    split; [assumption|]. intros H. inversion H; subst. contradiction.
  - intros h H. inversion H; subst. apply Hready. now left.
  - intros k j Hk. destruct (Hjobs k j Hk) as [J0 [J1 [J2 J3]]].
    split; [assumption|]. split; [assumption|]. split.
    + intros Hin. apply J2. now right.
    + intros Hlt Hnin Hne. apply J3; [assumption| |discriminate].
      intros [->|Hin]; [now apply Hne|contradiction].
Qed.

(** Running the job held for [run] time units. *)
Lemma rr_inv_run : forall sorted procs pi p ready t t1 i sch run,
  rr_inv sorted (Some pi) (mkRR procs ready t i sch) ->
  nth_error procs pi = Some p ->
  run <= remaining p ->
  rr_inv sorted (Some pi)
         (mkRR (update_nth (dec_remaining run) pi procs) ready t1 i
               (sch ++ [mkSegment (pid (job_proc p)) t (Some (t + run))])).
Proof.
  intros sorted procs pi p ready t t1 i sch run
         [Hmap [Hcl [Hex [Hnd [Hi [Hready [Hhold Hjobs]]]]]]] Hp Hrun.
  cbn [rr_procs rr_ready rr_t rr_i rr_schedule] in *.
  unfold rr_inv. cbn [rr_procs rr_ready rr_t rr_i rr_schedule].
  split; [now rewrite job_procs_update|]. split; [now apply closed_snoc|].
  split; [|split; [assumption|split; [now rewrite update_nth_length|]]].
  - intros x. rewrite executed_snoc, Hex, (done_work_update run pi procs p x Hp).
    destruct (String.eqb (pid (job_proc p)) x); lia.
  - split; [assumption|]. split; [assumption|].
    intros k j Hk. destruct (Nat.eq_dec k pi) as [->|Hne].
    + rewrite update_nth_same, Hp in Hk. inversion Hk; subst j. simpl.
      destruct (Hjobs pi p Hp) as [J0 _].
      pose proof (Hhold pi eq_refl) as Hlt.
      split; [lia|]. split; [intros; lia|]. split.
      * intros Hin. destruct (Hready pi Hin) as [_ H]. now contradiction H.
      * intros _ _ H. now contradiction H.
    + rewrite update_nth_other in Hk by assumption. now apply Hjobs.
Qed.

(** Putting the job held back at the end of the queue if it has time
    left, dropping it otherwise. *)
Lemma rr_inv_push : forall sorted procs pi p ready t i sch,
  rr_inv sorted (Some pi) (mkRR procs ready t i sch) ->
  nth_error procs pi = Some p ->
  rr_inv sorted None
         (mkRR procs (if remaining p >? 0 then ready ++ [pi] else ready) t i sch).
Proof.
  intros sorted procs pi p ready t i sch
         [Hmap [Hcl [Hex [Hnd [Hi [Hready [Hhold Hjobs]]]]]]] Hp.
  cbn [rr_procs rr_ready rr_t rr_i rr_schedule] in *.
  assert (Hpi : ~ In pi ready).
  { intros H. destruct (Hready pi H) as [_ Hne]. now apply Hne. }
  pose proof (Hhold pi eq_refl) as Hlt.
  unfold rr_inv. cbn [rr_procs rr_ready rr_t rr_i rr_schedule].
  split; [assumption|]. split; [assumption|]. split; [assumption|].
  rewrite Z.gtb_ltb. destruct (0 <? remaining p) eqn:R.
  - apply Z.ltb_lt in R. split; [|split; [assumption|split; [|split]]].
    + apply (Permutation_NoDup (Permutation_cons_append ready pi)).
      now constructor.
    + intros k Hk. split; [|discriminate].
      apply in_app_or in Hk. destruct Hk as [Hk|[<-|[]]]; [|assumption].
      now apply Hready.
    + intros h H. discriminate H.
    + intros k j Hk. destruct (Hjobs k j Hk) as [J0 [J1 [J2 J3]]].
      split; [assumption|]. split; [assumption|]. split.
      * intros Hin. apply in_app_or in Hin. destruct Hin as [Hin|[<-|[]]]; [auto|].
        rewrite Hp in Hk. inversion Hk; subst. assumption.
      * intros Hk' Hnin _. apply J3; [assumption| |].
        -- intros H. apply Hnin. apply in_or_app. now left.
        -- intros H. inversion H; subst. apply Hnin. apply in_or_app. right. now left.
  - apply Z.ltb_ge in R. split; [assumption|split; [assumption|split; [|split]]].
    + intros k Hk. split; [|discriminate]. now apply Hready.
    + intros h H. discriminate H.
    + intros k j Hk. destruct (Hjobs k j Hk) as [J0 [J1 [J2 J3]]].
      split; [assumption|]. split; [assumption|]. split; [assumption|].
      intros Hk' Hnin _. destruct (Nat.eq_dec k pi) as [->|Hne].
      * rewrite Hp in Hk. inversion Hk; subst. lia.
      * apply J3; [assumption|assumption|]. intros H. inversion H. contradiction.
Qed.

Lemma rr_step_ok : forall sorted q st,
  1 <= q ->
  (forall p, In p sorted -> 0 < burst p) ->
  rr_inv sorted None st ->
  match rr_step q st with
  | inl st' => rr_inv sorted None st' /\ (rr_measure st' < rr_measure st)%nat
  | inr schedule =>
      Forall closed schedule /\ forall x, executed schedule x = demand sorted x
  end.
Proof.
  intros sorted q [procs ready t i sch] Hq Hpos HI. unfold rr_step.
  cbn [rr_procs rr_ready rr_t rr_i rr_schedule].
  destruct (negb (length ready =? 0)%nat || (i <? length procs)%nat) eqn:G.
  - destruct (rr_enqueue (skipn i procs) t i ready) as [i1 ready1] eqn:E1.
    destruct (rr_enqueue_inv sorted None procs ready t t i sch i1 ready1 Hpos HI E1)
      as [HI1 [Hlate1 [cnt1 [Ei1 Er1]]]].
    destruct ready1 as [|pi ready2].
    + symmetry in Er1. apply app_eq_nil in Er1. destruct Er1 as [-> Hseq].
      assert (cnt1 = O) by (destruct cnt1; [reflexivity|discriminate Hseq]).
      subst cnt1. rewrite Nat.add_0_r in Ei1. subst i1.
      simpl in G. apply Nat.ltb_lt in G.
      destruct (nth_error procs i) as [j|] eqn:Hj;
        [|apply nth_error_None in Hj; lia].
      split; [exact HI1|].
      pose proof (Hlate1 j eq_refl) as Hlate.
      unfold rr_measure, rr_waiting. cbn [rr_procs rr_ready rr_t rr_i].
      rewrite Hj, Z.ltb_irrefl.
      apply Z.ltb_lt in Hlate. rewrite Hlate. lia.
    + pose proof HI1 as [_ [_ [_ [_ [Hi1 [Hready1 [_ Hjobs1]]]]]]].
      cbn [rr_procs rr_ready rr_t rr_i rr_schedule] in *.
      destruct (Hready1 pi (or_introl eq_refl)) as [Hpi _].
      destruct (nth_error procs pi) as [p|] eqn:Hp;
        [|apply nth_error_None in Hp; lia].
      destruct (Hjobs1 pi p Hp) as [_ [_ [Hrem _]]].
      specialize (Hrem (or_introl eq_refl)).
      set (run := Z.min q (remaining p)).
      assert (Hrun : 1 <= run <= remaining p) by (unfold run; lia).
      pose proof (rr_inv_run sorted procs pi p ready2 t (t + run) i1 sch run
                    (rr_inv_pop _ _ _ _ _ _ _ HI1) Hp (proj2 Hrun)) as HI2.
      destruct (rr_enqueue (skipn i1 (update_nth (dec_remaining run) pi procs))
                           (t + run) i1 ready2) as [i2 ready3] eqn:E2.
      destruct (rr_enqueue_inv _ _ _ _ _ _ _ _ _ _ Hpos HI2 E2) as [HI3 _].
      assert (Hp' : nth_error (update_nth (dec_remaining run) pi procs) pi
                    = Some (dec_remaining run p))
        by (now rewrite update_nth_same, Hp).
      pose proof (rr_inv_push _ _ _ _ _ _ _ _ HI3 Hp') as HI4.
      cbn [dec_remaining remaining] in HI4.
      split; [exact HI4|].
      pose proof HI as [_ [_ [_ [_ [_ [_ [_ Hjobs]]]]]]].
      cbn [rr_procs] in Hjobs.
      assert (Hnn : forall j, In j procs -> 0 <= remaining j).
      { intros j Hj. apply In_nth_error in Hj. destruct Hj as [k Hk].
        now destruct (Hjobs k j Hk). }
      pose proof (sum_remaining_ge procs p Hnn (nth_error_In _ _ Hp)) as Hsum.
      unfold rr_measure. cbn [rr_procs].
      rewrite (sum_remaining_update run pi procs p Hp).
      match goal with |- (_ + rr_waiting ?s < _)%nat =>
        pose proof (rr_waiting_le s) end.
      lia.
  - apply orb_false_iff in G. destruct G as [G1 G2].
    apply negb_false_iff, Nat.eqb_eq in G1. apply Nat.ltb_ge in G2.
    destruct ready; [|discriminate G1].
    destruct HI as [Hmap [Hcl [Hex [_ [Hi [_ [_ Hjobs]]]]]]].
    cbn [rr_procs rr_ready rr_t rr_i rr_schedule] in *.
    split; [assumption|]. intros x.
    rewrite Hex, done_work_finished, Hmap; [reflexivity|].
    intros j Hj. apply In_nth_error in Hj. destruct Hj as [k Hk].
    destruct (Hjobs k j Hk) as [_ [_ [_ J3]]].
    apply J3; [|intros []|discriminate].
    assert (k < length procs)%nat by (apply nth_error_Some; congruence). lia.
Qed.

Lemma sum_remaining_perm : forall l l',
  Permutation l l' -> sum_remaining l = sum_remaining l'.
Proof.
  intros l l' H. induction H; simpl; lia.
Qed.

Lemma done_work_untouched : forall procs x,
  (forall j, In j procs -> remaining j = burst (job_proc j)) ->
  done_work procs x = 0.
Proof.
  induction procs as [|a procs IH]; intros x H; simpl; [reflexivity|].
  rewrite IH by (intros; apply H; now right).
  rewrite (H a (or_introl eq_refl)).
  destruct (String.eqb (pid (job_proc a)) x); lia.
Qed.

Lemma roundRobin_conserves : forall processes quantum fuel,
  valid_processes processes -> 1 <= quantum ->
  (enough_fuel processes <= fuel)%nat ->
  exists schedule, roundRobin fuel processes quantum = Some schedule
                   /\ conserves processes schedule.
Proof.
  intros processes quantum fuel [Hpids Hvalid] Hq Hfuel. unfold roundRobin.
  set (procs0 := sort_by (fun j => arrival (job_proc j)) (map job_of processes)).
  cbv zeta.
  set (t0 := match procs0 with j :: _ => arrival (job_proc j) | [] => 0 end).
  assert (Hperm0 : Permutation procs0 (map job_of processes))
    by apply sort_by_perm.
  assert (Hperm : Permutation (map job_proc procs0) processes).
  { apply (Permutation_map job_proc) in Hperm0.
    now rewrite job_procs_fresh in Hperm0. }
  assert (Hfresh : forall j, In j procs0 ->
                     remaining j = burst (job_proc j) /\ 0 < burst (job_proc j)).
  { intros j Hj. apply (Permutation_in j Hperm0) in Hj.
    apply in_map_iff in Hj. destruct Hj as [p [<- Hp]].
    rewrite Forall_forall in Hvalid. destruct (Hvalid p Hp). simpl. split; [reflexivity|lia]. }
  assert (Hpos : forall p, In p (map job_proc procs0) -> 0 < burst p).
  { intros p Hp. apply in_map_iff in Hp. destruct Hp as [j [<- Hj]].
    now apply Hfresh. }
  destruct (while_loop_rule _ _ (rr_step quantum)
              (rr_inv (map job_proc procs0) None) rr_measure
              (fun schedule => Forall closed schedule
                 /\ forall x, executed schedule x = demand (map job_proc procs0) x)
              (fun st HI => rr_step_ok _ quantum st Hq Hpos HI)
              fuel (mkRR procs0 [] t0 O []))
    as [schedule [Hrun [Hcl Hex]]].
  - unfold rr_inv. cbn [rr_procs rr_ready rr_t rr_i rr_schedule].
    split; [reflexivity|]. split; [constructor|]. split; [|split; [constructor|]].
    + intros x. rewrite done_work_untouched; [reflexivity|].
      intros j Hj. now apply Hfresh.
    + split; [lia|]. split; [intros k []|]. split; [discriminate|].
      intros k j Hk. apply nth_error_In in Hk. destruct (Hfresh j Hk) as [E Hb].
      split; [lia|]. split; [intros; assumption|]. split; [intros []|]. lia.
  - pose proof (rr_waiting_le (mkRR procs0 [] t0 O [])).
    unfold rr_measure. set (w := rr_waiting _) in *. cbn [rr_procs].
    rewrite (sum_remaining_perm _ _ Hperm0), sum_remaining_fresh.
    pose proof (sum_burst_pos processes Hvalid).
    assert (Hw : (w <= 2 * length processes)%nat).
    { destruct processes as [|p0 ps]; [reflexivity|simpl length; lia]. }
    clearbody w. unfold enough_fuel in Hfuel. lia.
  - exists schedule. split; [assumption|]. split; [assumption|].
    intros p Hp. rewrite Hex, (demand_perm _ _ (pid p) Hperm).
    now apply demand_unique.
Qed.

(** With a quantum below 1 a slice takes no time off the job, which goes
    back to the queue: once there is a job, every turn leads to another. *)
Lemma rr_step_bad_quantum : forall sorted q st,
  q <= 0 ->
  (forall p, In p sorted -> 0 < burst p) ->
  rr_inv sorted None st
  /\ (rr_ready st <> [] \/ (rr_i st < length (rr_procs st))%nat) ->
  exists st', rr_step q st = inl st'
    /\ rr_inv sorted None st'
    /\ (rr_ready st' <> [] \/ (rr_i st' < length (rr_procs st'))%nat).
Proof.
  intros sorted q [procs ready t i sch] Hq Hpos [HI Hbusy]. unfold rr_step.
  cbn [rr_procs rr_ready rr_t rr_i rr_schedule] in *.
  assert (G : (negb (length ready =? 0)%nat || (i <? length procs)%nat) = true).
  { destruct Hbusy as [Hr|Hi].
    - destruct ready; [congruence|reflexivity].
    - apply orb_true_iff. right. now apply Nat.ltb_lt. }
  rewrite G.
  destruct (rr_enqueue (skipn i procs) t i ready) as [i1 ready1] eqn:E1.
  destruct (rr_enqueue_inv sorted None procs ready t t i sch i1 ready1 Hpos HI E1)
    as [HI1 [_ [cnt1 [Ei1 Er1]]]].
  destruct ready1 as [|pi ready2].
  - symmetry in Er1. apply app_eq_nil in Er1. destruct Er1 as [-> Hseq].
    assert (cnt1 = O) by (destruct cnt1; [reflexivity|discriminate Hseq]).
    subst cnt1. rewrite Nat.add_0_r in Ei1. subst i1.
    eexists. split; [reflexivity|]. split; [exact HI1|].
    cbn [rr_procs rr_ready rr_i]. right.
    destruct Hbusy as [H|H]; [congruence|assumption].
  - pose proof HI1 as [_ [_ [_ [_ [Hi1 [Hready1 [_ Hjobs1]]]]]]].
    cbn [rr_procs rr_ready rr_t rr_i rr_schedule] in *.
    destruct (Hready1 pi (or_introl eq_refl)) as [Hpi _].
    destruct (nth_error procs pi) as [p|] eqn:Hp;
      [|apply nth_error_None in Hp; lia].
    destruct (Hjobs1 pi p Hp) as [_ [_ [Hrem _]]].
    specialize (Hrem (or_introl eq_refl)).
    set (run := Z.min q (remaining p)).
    assert (Hrun : run <= 0) by (unfold run; lia).
    pose proof (rr_inv_run sorted procs pi p ready2 t (t + run) i1 sch run
                  (rr_inv_pop _ _ _ _ _ _ _ HI1) Hp ltac:(lia)) as HI2.
    destruct (rr_enqueue (skipn i1 (update_nth (dec_remaining run) pi procs))
                         (t + run) i1 ready2) as [i2 ready3] eqn:E2.
    destruct (rr_enqueue_inv _ _ _ _ _ _ _ _ _ _ Hpos HI2 E2) as [HI3 _].
    assert (Hp' : nth_error (update_nth (dec_remaining run) pi procs) pi
                  = Some (dec_remaining run p))
      by (now rewrite update_nth_same, Hp).
    pose proof (rr_inv_push _ _ _ _ _ _ _ _ HI3 Hp') as HI4.
    cbn [dec_remaining remaining] in HI4.
    eexists. split; [reflexivity|]. split; [exact HI4|].
    cbn [rr_ready]. left.
    assert (Hgt : (remaining p - run >? 0) = true)
      by (rewrite Z.gtb_ltb; apply Z.ltb_lt; lia).
    rewrite Hgt. intros E. destruct ready3; discriminate E.
Qed.

(** X13. With a quantum below 1 and at least one process, the loop of
    [roundRobin] does not end: no amount of fuel gives a schedule. *)
Lemma roundRobin_bad_quantum_runs_on : forall processes quantum fuel,
  valid_processes processes -> processes <> [] -> quantum <= 0 ->
  roundRobin fuel processes quantum = None.
Proof.
  intros processes quantum fuel [_ Hvalid] Hne Hq. unfold roundRobin.
  set (procs0 := sort_by (fun j => arrival (job_proc j)) (map job_of processes)).
  cbv zeta.
  assert (Hperm0 : Permutation procs0 (map job_of processes))
    by apply sort_by_perm.
  assert (Hfresh : forall j, In j procs0 ->
                     remaining j = burst (job_proc j) /\ 0 < burst (job_proc j)).
  { intros j Hj. apply (Permutation_in j Hperm0) in Hj.
    apply in_map_iff in Hj. destruct Hj as [p [<- Hp]].
    rewrite Forall_forall in Hvalid. destruct (Hvalid p Hp). simpl. split; [reflexivity|lia]. }
  assert (Hpos : forall p, In p (map job_proc procs0) -> 0 < burst p).
  { intros p Hp. apply in_map_iff in Hp. destruct Hp as [j [<- Hj]].
    now apply Hfresh. }
  apply (while_loop_never _ _ (rr_step quantum)
           (fun st => rr_inv (map job_proc procs0) None st
                      /\ (rr_ready st <> [] \/ (rr_i st < length (rr_procs st))%nat))).
  - intros st HI. now apply rr_step_bad_quantum.
  - split.
    + unfold rr_inv. cbn [rr_procs rr_ready rr_t rr_i rr_schedule].
      split; [reflexivity|]. split; [constructor|]. split; [|split; [constructor|]].
      * intros x. rewrite done_work_untouched; [reflexivity|].
        intros j Hj. now apply Hfresh.
      * split; [lia|]. split; [intros k []|]. split; [discriminate|].
        intros k j Hk. apply nth_error_In in Hk. destruct (Hfresh j Hk) as [E Hb].
        split; [lia|]. split; [intros; assumption|]. split; [intros []|]. lia.
    + right. cbn [rr_i rr_procs].
      rewrite (Permutation_length Hperm0), length_map.
      destruct processes; [congruence|simpl; lia].
Qed.

(** ** Conservation and the tie rule of SRTF *)

(** C1. For every process list with unique pids, arrivals from 0 on and
    positive bursts, and every quantum of at least 1, each of the five
    scheduling functions returns a schedule (the loops end within the
    fuel) in which every segment has its end and the durations
    [end - start] of the segments carrying the pid of a process add up
    to the burst of that process. *)
Theorem schedules_conserve_burst : forall processes quantum fuel,
  valid_processes processes ->
  1 <= quantum ->
  (enough_fuel processes <= fuel)%nat ->
  conserves processes (fcfs processes)
  /\ (exists s, sjf fuel processes = Some s /\ conserves processes s)
  /\ (exists s, srtf fuel processes = Some s /\ conserves processes s)
  /\ (exists s, priorityNonPreemptive fuel processes = Some s
                /\ conserves processes s)
  /\ (exists s, roundRobin fuel processes quantum = Some s
                /\ conserves processes s).
Proof.
  intros processes quantum fuel Hv Hq Hfuel.
  split; [now apply fcfs_conserves|].
  split; [now apply sjf_conserves|].
  split; [now apply srtf_conserves|].
  split; [now apply priority_conserves|].
  now apply roundRobin_conserves.
Qed.

Lemma demo_valid : valid_processes demo.
Proof.
  split.
  - simpl. repeat (constructor;
      [simpl; intros H; repeat (destruct H as [H|H]; [discriminate H|]); exact H|]).
    constructor.
  - repeat constructor; simpl; lia.
Qed.

Lemma schedules_conserve_burst_witness :
  valid_processes demo /\ 1 <= 2
  /\ conserves demo (fcfs demo)
  /\ (exists s, sjf (enough_fuel demo) demo = Some s /\ conserves demo s)
  /\ (exists s, srtf (enough_fuel demo) demo = Some s /\ conserves demo s)
  /\ (exists s, priorityNonPreemptive (enough_fuel demo) demo = Some s
                /\ conserves demo s)
  /\ (exists s, roundRobin (enough_fuel demo) demo 2 = Some s
                /\ conserves demo s).
Proof.
  split; [exact demo_valid|]. split; [lia|].
  apply (schedules_conserve_burst demo 2 (enough_fuel demo) demo_valid);
    [lia|apply Nat.le_refl].
Defined.




Lemma srtf_keep_none : forall procs cur next,
  srtf_keep procs cur next = None -> other_pid procs cur next.
Proof.
  intros procs [c|] next H; simpl in *; [|exact I].
  destruct (pid_at procs c) as [cp|]; [|discriminate].
  destruct (String.eqb cp (pid (job_proc next))) eqn:E; [discriminate|].
  apply String.eqb_neq in E. congruence.
Qed.









(** * Further properties *)

(** ** Sorting *)

Section SortOrder.
Variable A : Type.
Variable key : A -> Z.




End SortOrder.

(** ** Disk scheduling *)

(** X1. In every turn of the loop of [pathSSTF] with requests left, the
    head moves to a request that no other unvisited request is nearer
    than, and exactly that request leaves the queue. *)
Theorem sstf_moves_to_nearest : forall q cur path,
  q <> [] ->
  exists q1 v q2,
    q = q1 ++ v :: q2
    /\ (forall x, In x q -> Z.abs (v - cur) <= Z.abs (x - cur))
    /\ sstf_step (mkSstf q cur path) = inl (mkSstf (q1 ++ q2) v (path ++ [v])).
Proof.
  intros q cur path Hne.
  destruct (first_least_split Z (fun x => Z.abs (x - cur)) q Hne)
    as [q1 [v [q2 [E [H1 H2]]]]].
  exists q1, v, q2. split; [assumption|]. split.
  - intros x Hx. rewrite E in Hx. apply in_app_or in Hx.
    destruct Hx as [Hx|[<-|Hx]]; [specialize (H1 x Hx); lia|lia|now apply H2].
  - unfold sstf_step. cbn [sstf_q sstf_cur sstf_path]. subst q.
    rewrite (nearest_first_min q1 v q2 cur H1 H2).
    destruct (q1 ++ v :: q2) as [|v0 q'] eqn:E; [destruct q1; discriminate E|].
    rewrite <- E. now rewrite nth_middle_at, remove_nth_middle.
Qed.

Lemma sstf_moves_to_nearest_witness :
  exists q1 v q2,
    disk_demo = q1 ++ v :: q2
    /\ (forall x, In x disk_demo -> Z.abs (v - 53) <= Z.abs (x - 53))
    /\ sstf_step (mkSstf disk_demo 53 [53])
       = inl (mkSstf (q1 ++ q2) v ([53] ++ [v])).
Proof.
  apply (sstf_moves_to_nearest disk_demo 53 [53]). discriminate.
Defined.









Lemma fold_min_spec : forall l a,
  (fold_left Z.min l a <= a)
  /\ (forall y, In y l -> fold_left Z.min l a <= y)
  /\ In (fold_left Z.min l a) (a :: l).
Proof.
  induction l as [|b l IH]; intros a; simpl.
  - split; [lia|]. split; [intros y []|now left].
  - destruct (IH (Z.min a b)) as [H1 [H2 H3]]. split; [lia|]. split.
    + intros y [<-|Hy]; [lia|now apply H2].
    + destruct H3 as [H3|H3]; [|right; now right].
      rewrite <- H3. destruct (Z.min_spec a b) as [[_ ->]|[_ ->]];
        [now left|right; now left].
Qed.











(** ** Page replacement *)

Lemma fold_left_inv : forall (St X : Type) (f : St -> X -> St) (Inv : St -> Prop),
  (forall st x, Inv st -> Inv (f st x)) ->
  forall l st, Inv st -> Inv (fold_left f l st).
Proof.
  intros St X f Inv Hstep. induction l as [|x l IH]; intros st H; simpl; auto.
Qed.

Lemma includes_In : forall fr p, includes fr p = true <-> In (Some p) fr.
Proof.
  intros fr p. unfold includes. rewrite existsb_exists. split.
  - intros [[q|] [Hq E]]; simpl in E; [|discriminate].
    apply Z.eqb_eq in E. now subst q.
  - intros H. exists (Some p). split; [assumption|]. simpl. apply Z.eqb_refl.
Qed.

Lemma resident_In : forall fr p, In p (resident fr) <-> In (Some p) fr.
Proof.
  intros fr p. unfold resident. rewrite in_flat_map. split.
  - intros [[q|] [Hq Hp]]; [|destruct Hp]. destruct Hp as [<-|[]]. assumption.
  - intros H. exists (Some p). split; [assumption|now left].
Qed.

Lemma set_nth_In : forall (A : Type) (l : list A) i v,
  (i < length l)%nat -> In v (set_nth i v l).
Proof.
  induction l as [|a l IH]; intros [|i] v H; simpl in *; try lia.
  - now left.
  - right. apply IH. lia.
Qed.

Lemma set_nth_In_inv : forall (A : Type) (l : list A) i v x,
  In x (set_nth i v l) -> x = v \/ In x l.
Proof.
  induction l as [|a l IH]; intros [|i] v x H; simpl in *; try tauto.
  - destruct H as [<-|H]; [now left|right; now right].
  - destruct H as [<-|H]; [right; now left|].
    destruct (IH i v x H) as [->|H']; [now left|right; now right].
Qed.

(** Writing a page not yet resident over one frame keeps the resident
    pages distinct. *)
Lemma resident_set_fresh : forall fr i p,
  ~ In (Some p) fr -> NoDup (resident fr) ->
  NoDup (resident (set_nth i (Some p) fr)).
Proof.
  induction fr as [|a fr IH]; intros [|i] p Hp Hnd; simpl in *; try assumption.
  - assert (Hfr : NoDup (resident fr)).
    { destruct a; [now inversion Hnd|assumption]. }
    constructor; [|assumption].
    intros H. apply resident_In in H. apply Hp. now right.
  - assert (Hp' : ~ In (Some p) fr) by (intros H; apply Hp; now right).
    destruct a as [q|]; simpl in *.
    + inversion Hnd as [|? ? Hq Hfr]; subst. constructor; [|now apply IH].
      intros H. apply resident_In in H. apply set_nth_In_inv in H.
      destruct H as [E|H].
      * inversion E; subst. apply Hp. now left.
      * apply Hq. now apply resident_In.
    + now apply IH.
Qed.

Lemma last_cons_default_any : forall (A : Type) (l : list A) a b,
  last (b :: l) a = last l b.
Proof.
  induction l as [|c l IH]; intros a b; [reflexivity|].
  change (last (b :: c :: l) a) with (last (c :: l) a).
  now rewrite (IH a c), (IH b c).
Qed.

Lemma hits_follow_snoc : forall tl prev s,
  hits_follow prev tl ->
  hit s = includes (last_frames prev tl) (page s) ->
  (hit s = true -> frames s = last_frames prev tl) ->
  hits_follow prev (tl ++ [s]).
Proof.
  unfold last_frames. induction tl as [|a tl IH]; intros prev s H Hh Hf.
  - simpl in *. repeat split; assumption.
  - destruct H as [H1 [H2 H3]]. simpl. split; [assumption|]. split; [assumption|].
    apply IH; [assumption| |].
    + simpl map in Hh. now rewrite last_cons_default_any in Hh.
    + intros E. specialize (Hf E). simpl map in Hf.
      now rewrite last_cons_default_any in Hf.
Qed.

Lemma last_frames_snoc : forall prev tl s,
  last_frames prev (tl ++ [s]) = frames s.
Proof. intros. unfold last_frames. rewrite map_app. simpl. apply last_last. Qed.

Lemma fifo_step_inv : forall nframes st ip,
  (1 <= nframes)%nat -> fifo_inv nframes st -> fifo_inv nframes (fifo_step nframes st ip).
Proof.
  intros nframes st [i p] Hn [Hlen [Hptr [Hnd [Hall [Hhits Hlast]]]]].
  unfold fifo_step, fifo_inv.
  destruct (includes (fifo_frameArr st) p) eqn:Hin;
    cbn [fifo_frameArr fifo_ptr fifo_faults fifo_timeline].
  - split; [assumption|]. split; [assumption|]. split; [assumption|].
    split; [|split; [|apply last_frames_snoc]].
    + apply Forall_app. split; [assumption|]. constructor; [|constructor].
      split; [assumption|]. split; [now apply includes_In|assumption].
    + apply hits_follow_snoc; [assumption| |]; cbn [hit page frames].
      * now rewrite Hlast, Hin.
      * intros _. now rewrite Hlast.
  - assert (Hfresh : ~ In (Some p) (fifo_frameArr st)).
    { intros H. apply includes_In in H. congruence. }
    split; [now rewrite set_nth_length|].
    split; [apply Nat.mod_upper_bound; lia|].
    split; [now apply resident_set_fresh|].
    split; [|split; [|apply last_frames_snoc]].
    + apply Forall_app. split; [assumption|]. constructor; [|constructor].
      split; [cbn [frames]; now rewrite set_nth_length|].
      split; [apply set_nth_In; cbn; lia|now apply resident_set_fresh].
    + apply hits_follow_snoc; [assumption| |]; cbn [hit page frames].
      * now rewrite Hlast, Hin.
      * discriminate.
Qed.

Lemma fifo_init_inv : forall nframes,
  (1 <= nframes)%nat -> fifo_inv nframes (mkFifo (repeat None nframes) 0 0 []).
Proof.
  intros nframes Hn. unfold fifo_inv.
  cbn [fifo_frameArr fifo_ptr fifo_faults fifo_timeline].
  split; [apply repeat_length|]. split; [lia|]. split; [|repeat split; constructor].
  induction nframes as [|k IH]; [constructor|].
  destruct k; [constructor|]. apply IH. lia.
Qed.

Lemma pad_frames_length : forall nframes fr,
  (length fr <= nframes)%nat -> length (pad_frames nframes fr) = nframes.
Proof.
  intros. unfold pad_frames. rewrite length_app, length_map, repeat_length. lia.
Qed.

Lemma pad_frames_In : forall nframes fr p,
  In (Some p) (pad_frames nframes fr) <-> In p fr.
Proof.
  intros. unfold pad_frames. rewrite in_app_iff, in_map_iff. split.
  - intros [[q [E Hq]]|H]; [inversion E; now subst|].
    apply repeat_spec in H. discriminate H.
  - intros H. left. now exists p.
Qed.

Lemma resident_pad : forall nframes fr, resident (pad_frames nframes fr) = fr.
Proof.
  intros. unfold pad_frames, resident. rewrite flat_map_app.
  assert (H1 : flat_map (fun o : option Z => match o with Some p => [p] | None => [] end)
                        (map Some fr) = fr).
  { induction fr as [|a fr IH]; simpl; [reflexivity|]. now rewrite IH. }
  assert (H2 : forall k, flat_map (fun o : option Z => match o with Some p => [p] | None => [] end)
                                  (repeat None k) = []).
  { induction k; simpl; auto. }
  now rewrite H1, H2, app_nil_r.
Qed.

Lemma indexOf_None : forall fr p, indexOf fr p = None <-> ~ In p fr.
Proof.
  induction fr as [|a fr IH]; intros p; simpl; [tauto|].
  destruct (a =? p) eqn:E.
  - apply Z.eqb_eq in E. split; [discriminate|]. intros H. exfalso. apply H. now left.
  - apply Z.eqb_neq in E. destruct (indexOf fr p) as [k|] eqn:F.
    + split; [discriminate|]. intros H. exfalso.
      assert (Hn : ~ In p fr) by (intros H'; apply H; now right).
      apply IH in Hn. congruence.
    + split; [|reflexivity]. intros _ [H|H]; [congruence|].
      revert H. now apply IH.
Qed.

Lemma indexOf_Some : forall fr p k,
  indexOf fr p = Some k -> (k < length fr)%nat /\ nth_error fr k = Some p.
Proof.
  induction fr as [|a fr IH]; intros p k H; simpl in H; [discriminate|].
  destruct (a =? p) eqn:E.
  - inversion H; subst k. apply Z.eqb_eq in E. subst a. simpl. split; [lia|reflexivity].
  - destruct (indexOf fr p) as [k'|] eqn:F; [|discriminate].
    inversion H; subst k. destruct (IH p k' F) as [H1 H2]. simpl. split; [lia|assumption].
Qed.

Lemma normalize_padded : forall nframes i p fr h,
  (length fr <= nframes)%nat ->
  normalize nframes (mkStep i p (pad_frames nframes fr) h)
  = mkStep i p (pad_frames nframes fr) h.
Proof.
  intros. unfold normalize. cbn [frames]. rewrite pad_frames_length by assumption.
  now rewrite Nat.ltb_irrefl.
Qed.

Lemma normalize_raw : forall nframes i p fr h,
  (length fr <= nframes)%nat ->
  normalize nframes (mkStep i p (map Some fr) h)
  = mkStep i p (pad_frames nframes fr) h.
Proof.
  intros nframes i p fr h Hle. unfold normalize, pad_frames.
  cbn [frames step_no page hit]. rewrite length_map.
  destruct (length fr <? nframes)%nat eqn:E; [reflexivity|].
  apply Nat.ltb_ge in E. replace (nframes - length fr)%nat with O by lia.
  simpl. now rewrite app_nil_r.
Qed.

(** The page the victim search of [lruPage] settles on is in the frame
    array, and no page of the array was used longer ago. *)
Lemma lru_victim_least : forall m fr first,
  In first fr ->
  In (lru_victim m fr first) fr
  /\ forall q, In q fr -> lu_time m (lru_victim m fr first) <= lu_time m q.
Proof.
  intros m fr first Hfirst. unfold lru_victim.
  set (f := fun (acc : Z * Z) (q : Z) =>
              let t := lu_time m q in if t <? snd acc then (q, t) else acc).
  assert (H : forall l acc,
            snd acc = lu_time m (fst acc) ->
            let r := fold_left f l acc in
            snd r = lu_time m (fst r)
            /\ (fst r = fst acc \/ In (fst r) l)
            /\ snd r <= snd acc
            /\ forall q, In q l -> snd r <= lu_time m q).
  { induction l as [|a l IH]; intros acc Hacc; cbn zeta; simpl fold_left.
    - split; [assumption|]. split; [now left|]. split; [lia|]. intros q [].
    - assert (Hf : snd (f acc a) = lu_time m (fst (f acc a))
                   /\ (fst (f acc a) = fst acc \/ fst (f acc a) = a)
                   /\ snd (f acc a) <= snd acc
                   /\ snd (f acc a) <= lu_time m a).
      { unfold f. cbv zeta. destruct (lu_time m a <? snd acc) eqn:E; simpl.
        - apply Z.ltb_lt in E. split; [reflexivity|]. split; [now right|]. lia.
        - apply Z.ltb_ge in E. split; [assumption|]. split; [now left|]. lia. }
      destruct Hf as [F1 [F2 [F3 F4]]].
      destruct (IH (f acc a) F1) as [I1 [I2 [I3 I4]]]. cbv zeta in I1, I2, I3, I4.
      split; [assumption|]. split; [|split; [lia|]].
      + destruct I2 as [I2|I2]; [|right; now right].
        rewrite I2. destruct F2 as [F2|F2]; [now left|right; now left].
      + intros q [<-|Hq]; [lia|now apply I4]. }
  destruct (H fr (first, lu_time m first) eq_refl) as [H1 [H2 [_ H4]]].
  cbv zeta in H1, H2, H4. simpl fst in H2. split.
  - destruct H2 as [->|H2]; assumption.
  - intros q Hq. rewrite <- H1. now apply H4.
Qed.

Lemma NoDup_set_nth_fresh : forall (fr : list Z) i p,
  ~ In p fr -> NoDup fr -> NoDup (set_nth i p fr).
Proof.
  induction fr as [|a fr IH]; intros [|i] p Hp Hnd; simpl; try assumption.
  - inversion Hnd; subst. constructor; [|assumption].
    intros H. apply Hp. now right.
  - inversion Hnd as [|? ? Ha Hfr]; subst. constructor.
    + intros H. apply set_nth_In_inv in H. destruct H as [->|H]; [|contradiction].
      apply Hp. now left.
    + apply IH; [|assumption]. intros H. apply Hp. now right.
Qed.

(** The frame array after a fault of [lruPage]: still within the frame
    count, still without repetition, and holding the page referenced. *)
Lemma lru_fault_frames : forall nframes m fr p,
  (1 <= nframes)%nat -> (length fr <= nframes)%nat -> NoDup fr -> ~ In p fr ->
  let fr' :=
    if (length fr <? nframes)%nat then fr ++ [p]
    else match fr with
         | [] => []
         | first :: _ =>
             match indexOf fr (lru_victim m fr first) with
             | Some evIdx => set_nth evIdx p fr
             | None => fr
             end
         end in
  (length fr' <= nframes)%nat /\ NoDup fr' /\ In p fr'.
Proof.
  intros nframes m fr p Hn Hlen Hnd Hp. cbv zeta.
  destruct (length fr <? nframes)%nat eqn:E.
  - apply Nat.ltb_lt in E. split; [rewrite length_app; simpl; lia|].
    split; [|apply in_or_app; right; now left].
    apply (Permutation_NoDup (Permutation_cons_append fr p)). now constructor.
  - apply Nat.ltb_ge in E. destruct fr as [|first rest] eqn:Efr; [simpl in E; lia|].
    rewrite <- Efr in *.
    assert (Hfirst : In first fr) by (rewrite Efr; now left).
    destruct (lru_victim_least m fr first Hfirst) as [Hv _].
    destruct (indexOf fr (lru_victim m fr first)) as [ev|] eqn:F.
    + apply indexOf_Some in F. destruct F as [Hev _].
      split; [now rewrite set_nth_length|].
      split; [now apply NoDup_set_nth_fresh|now apply set_nth_In].
    + apply indexOf_None in F. contradiction.
Qed.

Lemma lru_push_inv : forall nframes st fr' i p h lu faults,
  lru_inv nframes st ->
  (length fr' <= nframes)%nat -> NoDup fr' -> In p fr' ->
  h = includes (pad_frames nframes (lru_frameArr st)) p ->
  (h = true -> fr' = lru_frameArr st) ->
  forall s, normalize nframes s = mkStep i p (pad_frames nframes fr') h ->
  lru_inv nframes (mkLru fr' lu faults (lru_timeline st ++ [s])).
Proof.
  intros nframes st fr' i p h lu faults [Hlen [Hnd [Hall [Hhits Hlast]]]]
         Hlen' Hnd' Hin Hh Hsame s Hs.
  unfold lru_inv. cbn [lru_frameArr lru_timeline].
  rewrite map_app. simpl map. rewrite Hs.
  split; [assumption|]. split; [assumption|].
  split; [|split; [|apply last_frames_snoc]].
  - apply Forall_app. split; [assumption|]. constructor; [|constructor].
    unfold snapshot_ok. cbn [frames page].
    split; [now apply pad_frames_length|].
    split; [now apply pad_frames_In|now rewrite resident_pad].
  - apply hits_follow_snoc; [assumption| |]; cbn [hit page frames]; rewrite Hlast.
    + assumption.
    + intros E. now rewrite (Hsame E).
Qed.

Lemma lru_step_inv : forall nframes st ip,
  (1 <= nframes)%nat -> lru_inv nframes st -> lru_inv nframes (lru_step nframes st ip).
Proof.
  intros nframes st [i p] Hn HI. pose proof HI as [Hlen [Hnd _]].
  unfold lru_step.
  destruct (indexOf (lru_frameArr st) p) as [k|] eqn:F.
  - apply indexOf_Some in F. destruct F as [_ Hk]. apply nth_error_In in Hk.
    apply (lru_push_inv nframes st (lru_frameArr st) i p true); try assumption.
    + symmetry. apply includes_In. now apply pad_frames_In.
    + reflexivity.
    + now apply normalize_padded.
  - apply indexOf_None in F.
    destruct (lru_fault_frames nframes (lru_lastUsed st) (lru_frameArr st) p
                Hn Hlen Hnd F) as [L1 [L2 L3]].
    cbv zeta in L1, L2, L3. cbv zeta.
    apply (lru_push_inv nframes st _ i p false); try assumption.
    + symmetry. destruct (includes _ p) eqn:E; [|reflexivity].
      apply includes_In, pad_frames_In in E. contradiction.
    + discriminate.
    + now apply normalize_raw.
Qed.

Lemma lru_init_inv : forall nframes, lru_inv nframes (mkLru [] [] 0 []).
Proof.
  intros nframes. unfold lru_inv. cbn [lru_frameArr lru_timeline map].
  split; [simpl; lia|]. split; [constructor|]. split; [constructor|].
  split; [exact I|]. unfold last_frames, pad_frames. simpl. now rewrite Nat.sub_0_r.
Qed.

(** X4. With at least one frame, every step of the timelines of
    [fifoPage] and [lruPage] shows a snapshot of exactly one slot per
    frame, which holds the page just referenced and holds no page
    twice. *)
Theorem snapshots_hold_the_page : forall refs nframes,
  (1 <= nframes)%nat ->
  Forall (snapshot_ok nframes) (timeline (fifoPage refs nframes))
  /\ Forall (snapshot_ok nframes) (timeline (lruPage refs nframes)).
Proof.
  intros refs nframes Hn. unfold fifoPage, lruPage. cbn [timeline]. split.
  - apply (fold_left_inv _ _ (fifo_step nframes) (fifo_inv nframes)).
    + intros st x. now apply fifo_step_inv.
    + now apply fifo_init_inv.
  - apply (fold_left_inv _ _ (lru_step nframes) (lru_inv nframes)).
    + intros st x. now apply lru_step_inv.
    + apply lru_init_inv.
Qed.

Lemma snapshots_hold_the_page_witness :
  Forall (snapshot_ok 3) (timeline (fifoPage classic_refs 3))
  /\ Forall (snapshot_ok 3) (timeline (lruPage classic_refs 3)).
Proof. apply (snapshots_hold_the_page classic_refs 3%nat). lia. Defined.

(** X5. With at least one frame, along the timelines of [fifoPage] and
    [lruPage], starting from empty frames, a step is marked a hit
    exactly if its page was in the frames the step before left, and a
    hit leaves the frames as they were. *)
Theorem hits_are_resident_pages : forall refs nframes,
  (1 <= nframes)%nat ->
  hits_follow (repeat None nframes) (timeline (fifoPage refs nframes))
  /\ hits_follow (repeat None nframes) (timeline (lruPage refs nframes)).
Proof.
  intros refs nframes Hn. unfold fifoPage, lruPage. cbn [timeline]. split.
  - apply (fold_left_inv _ _ (fifo_step nframes) (fifo_inv nframes)).
    + intros st x. now apply fifo_step_inv.
    + now apply fifo_init_inv.
  - apply (fold_left_inv _ _ (lru_step nframes) (lru_inv nframes)).
    + intros st x. now apply lru_step_inv.
    + apply lru_init_inv.
Qed.

Lemma hits_are_resident_pages_witness :
  hits_follow (repeat None 3) (timeline (fifoPage classic_refs 3))
  /\ hits_follow (repeat None 3) (timeline (lruPage classic_refs 3)).
Proof. apply (hits_are_resident_pages classic_refs 3%nat). lia. Defined.

Section AppendOnly.
Variables St X E : Type.
Variable f : St -> X -> St.
Variable out : St -> list E.
Hypothesis f_appends : forall st x, exists e, out (f st x) = out st ++ [e].

(** A loop that only pushes keeps what it has pushed, one entry a turn. *)
Lemma fold_appends : forall l st,
  exists ext, out (fold_left f l st) = out st ++ ext /\ length ext = length l.
Proof.
  induction l as [|x l IH]; intros st; simpl.
  - exists []. now rewrite app_nil_r.
  - destruct (IH (f st x)) as [ext [E1 E2]]. destruct (f_appends st x) as [e Ee].
    exists (e :: ext). rewrite E1, Ee, <- app_assoc. simpl. split; [reflexivity|lia].
Qed.
End AppendOnly.

Lemma fifo_step_appends : forall nframes st ip,
  exists e, fifo_timeline (fifo_step nframes st ip) = fifo_timeline st ++ [e].
Proof.
  intros nframes st [i p]. unfold fifo_step.
  destruct (includes (fifo_frameArr st) p); eexists; reflexivity.
Qed.

Lemma lru_step_appends : forall nframes st ip,
  exists e, lru_timeline (lru_step nframes st ip) = lru_timeline st ++ [e].
Proof.
  intros nframes st [i p]. unfold lru_step.
  destruct (indexOf (lru_frameArr st) p); eexists; reflexivity.
Qed.

Lemma fifo_fold_labels : forall nframes l k st,
  map step_no (fifo_timeline (fold_left (fifo_step nframes) (combine (seq k (length l)) l) st))
  = map step_no (fifo_timeline st) ++ seq k (length l)
  /\ map page (fifo_timeline (fold_left (fifo_step nframes) (combine (seq k (length l)) l) st))
     = map page (fifo_timeline st) ++ l.
Proof.
  induction l as [|p l IH]; intros k st; cbn [length seq combine fold_left].
  - now rewrite !app_nil_r.
  - destruct (IH (Datatypes.S k) (fifo_step nframes st (k, p))) as [H1 H2].
    rewrite H1, H2.
    assert (E : fifo_timeline (fifo_step nframes st (k, p))
                = fifo_timeline st ++ [mkStep k p (fifo_frameArr (fifo_step nframes st (k, p)))
                                              (includes (fifo_frameArr st) p)]).
    { unfold fifo_step. destruct (includes (fifo_frameArr st) p); reflexivity. }
    rewrite E, !map_app, <- !app_assoc. split; reflexivity.
Qed.

Lemma lru_fold_labels : forall nframes l k st,
  map step_no (lru_timeline (fold_left (lru_step nframes) (combine (seq k (length l)) l) st))
  = map step_no (lru_timeline st) ++ seq k (length l)
  /\ map page (lru_timeline (fold_left (lru_step nframes) (combine (seq k (length l)) l) st))
     = map page (lru_timeline st) ++ l.
Proof.
  induction l as [|p l IH]; intros k st; cbn [length seq combine fold_left].
  - now rewrite !app_nil_r.
  - destruct (IH (Datatypes.S k) (lru_step nframes st (k, p))) as [H1 H2].
    rewrite H1, H2.
    assert (E : exists fr h, lru_timeline (lru_step nframes st (k, p))
                             = lru_timeline st ++ [mkStep k p fr h]).
    { unfold lru_step. destruct (indexOf (lru_frameArr st) p);
        eexists; eexists; reflexivity. }
    destruct E as [fr [h E]].
    rewrite E, !map_app, <- !app_assoc. split; reflexivity.
Qed.

Lemma normalize_labels : forall nframes t,
  step_no (normalize nframes t) = step_no t /\ page (normalize nframes t) = page t.
Proof. intros. unfold normalize. destruct (_ <? _)%nat; split; reflexivity. Qed.

(** X6. With at least one frame, the timelines of [fifoPage] and
    [lruPage] follow the reference string: step [k] is numbered [k] and
    is about the [k]-th reference. *)
Theorem timeline_follows_refs : forall refs nframes,
  (1 <= nframes)%nat ->
  map step_no (timeline (fifoPage refs nframes)) = seq 0 (length refs)
  /\ map page (timeline (fifoPage refs nframes)) = refs
  /\ map step_no (timeline (lruPage refs nframes)) = seq 0 (length refs)
  /\ map page (timeline (lruPage refs nframes)) = refs.
Proof.
  intros refs nframes _. unfold fifoPage, lruPage, indexed. cbn [timeline].
  destruct (fifo_fold_labels nframes refs O (mkFifo (repeat None nframes) 0 0 []))
    as [F1 F2].
  destruct (lru_fold_labels nframes refs O (mkLru [] [] 0 [])) as [L1 L2].
  split; [exact F1|]. split; [exact F2|].
  rewrite !map_map.
  rewrite (map_ext _ step_no (fun t => proj1 (normalize_labels nframes t))).
  rewrite (map_ext _ page (fun t => proj2 (normalize_labels nframes t))).
  split; [exact L1|exact L2].
Qed.

Lemma timeline_follows_refs_witness :
  map step_no (timeline (fifoPage classic_refs 3)) = seq 0 (length classic_refs)
  /\ map page (timeline (fifoPage classic_refs 3)) = classic_refs
  /\ map step_no (timeline (lruPage classic_refs 3)) = seq 0 (length classic_refs)
  /\ map page (timeline (lruPage classic_refs 3)) = classic_refs.
Proof. apply (timeline_follows_refs classic_refs 3%nat). lia. Defined.

Lemma fifo_ptr_follows_faults : forall nframes l st,
  fifo_ptr st = (fifo_faults st mod nframes)%nat ->
  fifo_ptr (fold_left (fifo_step nframes) l st)
  = (fifo_faults (fold_left (fifo_step nframes) l st) mod nframes)%nat.
Proof.
  intros nframes l st H.
  apply (fold_left_inv _ _ (fifo_step nframes)
           (fun s => fifo_ptr s = (fifo_faults s mod nframes)%nat)); [|assumption].
  intros s [i p] Hs. unfold fifo_step.
  destruct (includes (fifo_frameArr s) p); cbn [fifo_ptr fifo_faults]; [assumption|].
  rewrite Hs, Nat.Div0.add_mod_idemp_l. f_equal. lia.
Qed.

(** The state of [fifoPage] when it comes to the reference after [pre],
    and what the timeline returned shows of it. *)
Lemma fifo_at_reference : forall nframes pre p post,
  let st := fold_left (fifo_step nframes) (indexed pre)
                      (mkFifo (repeat None nframes) 0 0 []) in
  let tl := timeline (fifoPage (pre ++ p :: post) nframes) in
  firstn (length pre) tl = fifo_timeline st
  /\ nth_error tl (length pre)
     = Some (mkStep (length pre) p
                    (fifo_frameArr (fifo_step nframes st (length pre, p)))
                    (includes (fifo_frameArr st) p)).
Proof.
  intros nframes pre p post st tl. subst tl. unfold fifoPage, indexed.
  cbn [timeline]. rewrite indexed_from_app, fold_left_app.
  cbn [length seq combine fold_left]. fold (indexed pre). fold st.
  rewrite Nat.add_0_l.
  destruct (fold_appends _ _ _ (fifo_step nframes) fifo_timeline
              (fifo_step_appends nframes)
              (combine (seq (Datatypes.S (length pre)) (length post)) post)
              (fifo_step nframes st (length pre, p))) as [ext [E _]].
  rewrite E.
  assert (Hs : fifo_timeline (fifo_step nframes st (length pre, p))
               = fifo_timeline st
                 ++ [mkStep (length pre) p
                            (fifo_frameArr (fifo_step nframes st (length pre, p)))
                            (includes (fifo_frameArr st) p)]).
  { unfold fifo_step. destruct (includes (fifo_frameArr st) p); reflexivity. }
  rewrite Hs.
  assert (Hlen : length (fifo_timeline st) = length pre).
  { destruct (fifo_fold_counts nframes (indexed pre)
                (mkFifo (repeat None nframes) 0 0 [])) as [H _].
    fold st in H. rewrite H, indexed_length. reflexivity. }
  rewrite <- !app_assoc. split.
  - rewrite <- Hlen. rewrite firstn_app, firstn_all, Nat.sub_diag. simpl.
    now rewrite app_nil_r.
  - rewrite nth_error_app2 by lia. rewrite Hlen, Nat.sub_diag. reflexivity.
Qed.

(** X7. [fifoPage] replaces its frames in turn: with at least one frame,
    the step of a fault shows the frames the step before left with one
    slot overwritten by the page referenced, and that slot is the number
    of earlier faults modulo the frame count, whatever hits lie between. *)
Theorem fifo_replaces_in_turn : forall refs nframes pre p post b,
  (1 <= nframes)%nat ->
  refs = pre ++ p :: post ->
  nth_error (timeline (fifoPage refs nframes)) (length pre) = Some b ->
  hit b = false ->
  frames b
  = set_nth (misses (firstn (length pre) (timeline (fifoPage refs nframes)))
             mod nframes)%nat
            (Some p)
            (last_frames (repeat None nframes)
               (firstn (length pre) (timeline (fifoPage refs nframes)))).
Proof.
  intros refs nframes pre p post b Hn -> Hb Hhit.
  destruct (fifo_at_reference nframes pre p post) as [Hpre Hnth].
  cbv zeta in Hpre, Hnth. rewrite Hpre. rewrite Hnth in Hb.
  inversion Hb; subst b; clear Hb. cbn [hit frames] in *.
  set (st := fold_left (fifo_step nframes) (indexed pre)
                       (mkFifo (repeat None nframes) 0 0 [])) in *.
  assert (HI : fifo_inv nframes st).
  { apply (fold_left_inv _ _ (fifo_step nframes) (fifo_inv nframes)).
    - intros s x. now apply fifo_step_inv.
    - now apply fifo_init_inv. }
  destruct HI as [_ [_ [_ [_ [_ Hlast]]]]]. rewrite Hlast.
  assert (Hptr : fifo_ptr st = (fifo_faults st mod nframes)%nat)
    by (apply fifo_ptr_follows_faults; cbn; now rewrite Nat.Div0.mod_0_l).
  destruct (fifo_fold_counts nframes (indexed pre)
              (mkFifo (repeat None nframes) 0 0 [])) as [_ Hf].
  fold st in Hf. cbn [fifo_faults fifo_timeline] in Hf.
  change (misses []) with O in Hf.
  replace (misses (fifo_timeline st)) with (fifo_faults st) by lia.
  rewrite <- Hptr. unfold fifo_step. rewrite Hhit. reflexivity.
Qed.

Lemma fifo_replaces_in_turn_witness :
  frames (mkStep 3 2 [Some 2; Some 0; Some 1] false)
  = set_nth (misses (firstn (length [7; 0; 1])
                            (timeline (fifoPage classic_refs 3))) mod 3)%nat
            (Some 2)
            (last_frames (repeat None 3)
               (firstn (length [7; 0; 1]) (timeline (fifoPage classic_refs 3)))).
Proof.
  apply (fifo_replaces_in_turn classic_refs 3%nat [7; 0; 1] 2
           [0; 3; 0; 4; 2; 3; 0; 3; 2]
           (mkStep 3 2 [Some 2; Some 0; Some 1] false)).
  - lia.
  - reflexivity.
  - reflexivity.
  - reflexivity.
Defined.

Lemma lu_time_set : forall m p i q,
  lu_time (lu_set m p i) q = if p =? q then Z.of_nat i else lu_time m q.
Proof.
  intros. unfold lu_time, lu_set. simpl. now destruct (p =? q).
Qed.

Lemma lru_step_lastUsed : forall nframes st i p,
  lru_lastUsed (lru_step nframes st (i, p)) = lu_set (lru_lastUsed st) p i.
Proof.
  intros. unfold lru_step. now destruct (indexOf (lru_frameArr st) p).
Qed.

(** [lastUsed] holds, for every page, the index of its last reference. *)
Lemma lru_fold_lastUsed : forall nframes q l k st,
  lu_time (lru_lastUsed (fold_left (lru_step nframes) (combine (seq k (length l)) l) st)) q
  = fold_left (fun acc ix => if snd ix =? q then Z.of_nat (fst ix) else acc)
              (combine (seq k (length l)) l) (lu_time (lru_lastUsed st) q).
Proof.
  induction l as [|p l IH]; intros k st; cbn [length seq combine fold_left];
    [reflexivity|].
  rewrite IH, lru_step_lastUsed, lu_time_set. reflexivity.
Qed.

Lemma set_nth_map_Some : forall (fr : list Z) k p,
  set_nth k (Some p) (map Some fr) = map Some (set_nth k p fr).
Proof.
  induction fr as [|a fr IH]; intros [|k] p; simpl; try reflexivity.
  now rewrite IH.
Qed.

Lemma pad_frames_full : forall nframes fr,
  ~ In None (pad_frames nframes fr) -> pad_frames nframes fr = map Some fr.
Proof.
  intros nframes fr H. unfold pad_frames in *.
  destruct (nframes - length fr)%nat as [|k].
  - simpl. apply app_nil_r.
  - exfalso. apply H. apply in_or_app. right. now left.
Qed.

(** The state of [lruPage] when it comes to the reference after [pre],
    and what the timeline returned shows of it. *)
Lemma lru_at_reference : forall nframes pre p post,
  let st := fold_left (lru_step nframes) (indexed pre) (mkLru [] [] 0 []) in
  let tl := timeline (lruPage (pre ++ p :: post) nframes) in
  firstn (length pre) tl = map (normalize nframes) (lru_timeline st)
  /\ exists e, lru_timeline (lru_step nframes st (length pre, p))
               = lru_timeline st ++ [e]
               /\ nth_error tl (length pre) = Some (normalize nframes e).
Proof.
  intros nframes pre p post st tl. subst tl. unfold lruPage, indexed.
  cbn [timeline]. rewrite indexed_from_app, fold_left_app.
  cbn [length seq combine fold_left]. fold (indexed pre). fold st.
  rewrite Nat.add_0_l.
  destruct (fold_appends _ _ _ (lru_step nframes) lru_timeline
              (lru_step_appends nframes)
              (combine (seq (Datatypes.S (length pre)) (length post)) post)
              (lru_step nframes st (length pre, p))) as [ext [E _]].
  rewrite E.
  destruct (lru_step_appends nframes st (length pre, p)) as [e He].
  rewrite He.
  assert (Hlen : length (map (normalize nframes) (lru_timeline st)) = length pre).
  { destruct (lru_fold_counts nframes (indexed pre) (mkLru [] [] 0 [])) as [H _].
    fold st in H. rewrite length_map, H, indexed_length. reflexivity. }
  rewrite <- !app_assoc, !map_app. split.
  - rewrite <- Hlen. rewrite firstn_app, firstn_all, Nat.sub_diag. simpl.
    now rewrite app_nil_r.
  - exists e. split; [reflexivity|].
    rewrite nth_error_app2 by lia. rewrite Hlen, Nat.sub_diag. reflexivity.
Qed.

(** X8. [lruPage] evicts the least recently used page: with at least one
    frame, when a reference faults and the frames the step before left
    are all occupied, the step shows those frames with one page [v]
    replaced by the page referenced, and no page in the frames had its
    last reference before that of [v]. *)
Theorem lru_evicts_least_recent : forall refs nframes pre p post b,
  (1 <= nframes)%nat ->
  refs = pre ++ p :: post ->
  nth_error (timeline (lruPage refs nframes)) (length pre) = Some b ->
  hit b = false ->
  ~ In None (last_frames (repeat None nframes)
               (firstn (length pre) (timeline (lruPage refs nframes)))) ->
  exists k v,
    nth_error (last_frames (repeat None nframes)
                 (firstn (length pre) (timeline (lruPage refs nframes)))) k
    = Some (Some v)
    /\ frames b
       = set_nth k (Some p)
                 (last_frames (repeat None nframes)
                    (firstn (length pre) (timeline (lruPage refs nframes))))
    /\ forall q,
         In (Some q) (last_frames (repeat None nframes)
                        (firstn (length pre) (timeline (lruPage refs nframes)))) ->
         last_index pre v <= last_index pre q.
Proof.
  intros refs nframes pre p post b Hn -> Hb Hhit Hfull.
  destruct (lru_at_reference nframes pre p post) as [Hpre [e [He Hnth]]].
  cbv zeta in Hpre, He, Hnth. rewrite Hpre in *. rewrite Hnth in Hb.
  inversion Hb; subst b; clear Hb Hnth Hpre.
  set (st := fold_left (lru_step nframes) (indexed pre) (mkLru [] [] 0 [])) in *.
  assert (HI : lru_inv nframes st).
  { apply (fold_left_inv _ _ (lru_step nframes) (lru_inv nframes)).
    - intros s x. now apply lru_step_inv.
    - apply lru_init_inv. }
  destruct HI as [Hlen [Hnd [_ [_ Hlast]]]]. rewrite Hlast in *.
  assert (Htime : forall q, lu_time (lru_lastUsed st) q = last_index pre q).
  { intros q. unfold st, indexed, last_index, indexed.
    now rewrite lru_fold_lastUsed. }
  rewrite normalize_hit in Hhit.
  rewrite (pad_frames_full _ _ Hfull) in *.
  assert (Hge : (nframes <= length (lru_frameArr st))%nat).
  { unfold pad_frames in Hfull.
    destruct (nframes - length (lru_frameArr st))%nat eqn:E; [lia|].
    exfalso. apply Hfull. apply in_or_app. right. now left. }
  unfold lru_step in He.
  destruct (indexOf (lru_frameArr st) p) as [k0|] eqn:F.
  - apply app_inv_head in He. inversion He; subst e. discriminate Hhit.
  - apply indexOf_None in F.
    assert (Hltb : (length (lru_frameArr st) <? nframes)%nat = false)
      by (apply Nat.ltb_ge; lia).
    rewrite Hltb in He.
    destruct (lru_frameArr st) as [|first rest] eqn:Efr; [simpl in Hge; lia|].
    rewrite <- Efr in *.
    assert (Hfirst : In first (lru_frameArr st)) by (rewrite Efr; now left).
    destruct (lru_victim_least (lru_lastUsed st) (lru_frameArr st) first Hfirst)
      as [Hv Hmin].
    set (v := lru_victim (lru_lastUsed st) (lru_frameArr st) first) in *.
    destruct (indexOf (lru_frameArr st) v) as [ev|] eqn:G;
      [|apply indexOf_None in G; contradiction].
    apply indexOf_Some in G. destruct G as [Hev Hnthv].
    apply app_inv_head in He. inversion He; subst e. clear He.
    exists ev, v. split; [|split].
    + rewrite nth_error_map, Hnthv. reflexivity.
    + rewrite normalize_raw by (rewrite set_nth_length; lia).
      cbn [frames]. rewrite set_nth_map_Some. unfold pad_frames.
      rewrite set_nth_length.
      replace (nframes - length (lru_frameArr st))%nat with O by lia.
      simpl. apply app_nil_r.
    + intros q Hq. apply in_map_iff in Hq. destruct Hq as [q' [E Hq]].
      inversion E; subst q'. rewrite <- !Htime. now apply Hmin.
Qed.

Lemma lru_evicts_least_recent_witness :
  exists k v,
    nth_error (last_frames (repeat None 3)
                 (firstn (length [7; 0; 1]) (timeline (lruPage classic_refs 3)))) k
    = Some (Some v)
    /\ frames (mkStep 3 2 [Some 2; Some 0; Some 1] false)
       = set_nth k (Some 2)
                 (last_frames (repeat None 3)
                    (firstn (length [7; 0; 1]) (timeline (lruPage classic_refs 3))))
    /\ forall q,
         In (Some q) (last_frames (repeat None 3)
                        (firstn (length [7; 0; 1]) (timeline (lruPage classic_refs 3)))) ->
         last_index [7; 0; 1] v <= last_index [7; 0; 1] q.
Proof.
  apply (lru_evicts_least_recent classic_refs 3%nat [7; 0; 1] 2
           [0; 3; 0; 4; 2; 3; 0; 3; 2]
           (mkStep 3 2 [Some 2; Some 0; Some 1] false)).
  - lia.
  - reflexivity.
  - reflexivity.
  - reflexivity.
  - vm_compute. intros H. repeat (destruct H as [H|H]; [discriminate H|]). exact H.
Defined.

(** ** CPU schedules in time *)

Section WhilePartial.
Variables S R : Type.
Variable step : S -> S + R.
Variable Inv : S -> Prop.
Variable Post : R -> Prop.

Hypothesis step_keeps :
  forall s, Inv s ->
    match step s with
    | inl s' => Inv s'
    | inr r => Post r
    end.

(** What an invariant gives of the result, once the loop has one. *)
Lemma while_loop_result :
  forall fuel s r, Inv s -> while_loop step fuel s = Some r -> Post r.
Proof.
  induction fuel as [|fuel IH]; intros s r HI H; [discriminate|].
  simpl in H. specialize (step_keeps s HI).
  destruct (step s) as [s'|r'].
  - now apply (IH s').
  - inversion H; subst. assumption.
Qed.
End WhilePartial.

Lemma final_end_snoc : forall lo l p a b,
  final_end lo (l ++ [mkSegment p a (Some b)]) = b.
Proof. intros. unfold final_end. now rewrite fold_left_app. Qed.

Lemma chained_snoc : forall l lo p a b,
  chained lo l -> final_end lo l <= a -> a <= b ->
  chained lo (l ++ [mkSegment p a (Some b)]).
Proof.
  induction l as [|s l IH]; intros lo p a b Hc Hf Hab; simpl in *.
  - split; [assumption|]. exists b. repeat split; assumption.
  - destruct Hc as [Hlo [e [He [Hse Hc]]]]. split; [assumption|].
    exists e. split; [assumption|]. split; [assumption|].
    apply IH; try assumption. unfold final_end in *. simpl in Hf.
    now rewrite He in Hf.
Qed.

Lemma chained_snoc_inv : forall l lo p a b,
  chained lo (l ++ [mkSegment p a (Some b)]) ->
  chained lo l /\ final_end lo l <= a /\ a <= b.
Proof.
  induction l as [|s l IH]; intros lo p a b Hc; simpl in *.
  - destruct Hc as [Hlo [e [He [Hse _]]]]. inversion He; subst.
    split; [exact I|]. split; assumption.
  - destruct Hc as [Hlo [e [He [Hse Hc]]]].
    destruct (IH e p a b Hc) as [H1 [H2 H3]].
    split; [|split; [|assumption]].
    + split; [assumption|]. exists e. repeat split; assumption.
    + unfold final_end in *. simpl. now rewrite He.
Qed.

Lemma chained_final_end : forall l lo, chained lo l -> lo <= final_end lo l.
Proof.
  induction l as [|s l IH]; intros lo Hc; [unfold final_end; simpl; lia|].
  destruct Hc as [Hlo [e [He [Hse Hc]]]]. specialize (IH e Hc).
  unfold final_end in *. simpl. rewrite He. simpl. lia.
Qed.

Lemma timed_push : forall processes lo t schedule p b,
  timed processes lo t schedule ->
  In p processes -> arrival p <= t -> t <= b ->
  timed processes lo b (schedule ++ [mkSegment (pid p) t (Some b)]).
Proof.
  intros processes lo t schedule p b [Hc [Hf Ha]] Hp Harr Htb.
  split; [now apply chained_snoc|]. split; [rewrite final_end_snoc; lia|].
  apply Forall_app. split; [assumption|]. constructor; [|constructor].
  exists p. repeat split; assumption.
Qed.

Lemma timed_later : forall processes lo t t' schedule,
  timed processes lo t schedule -> t <= t' -> timed processes lo t' schedule.
Proof.
  intros processes lo t t' schedule [Hc [Hf Ha]] Ht.
  split; [assumption|]. split; [lia|assumption].
Qed.




Lemma timed_init : forall processes lo, timed processes lo lo [].
Proof.
  intros. split; [exact I|]. split; [unfold final_end; simpl; lia|constructor].
Qed.

Lemma prio_step_timed : forall processes lo st,
  (forall p, In p processes -> 0 <= burst p) ->
  timed processes lo (prio_t st) (prio_schedule st) ->
  match prio_step processes st with
  | inl st' => timed processes lo (prio_t st') (prio_schedule st')
  | inr schedule => chained lo schedule /\ arrived processes schedule
  end.
Proof.
  intros processes lo [t done schedule] Hb HT. unfold prio_step.
  cbn [prio_t prio_done prio_schedule] in *.
  destruct (length done <? length processes)%nat.
  - set (ready := filter _ processes).
    destruct (sort_by (fun p => nullish (priority p) 0) ready) as [|p rest] eqn:Es;
      cbn [prio_t prio_schedule].
    + apply (timed_later _ _ t); [assumption|lia].
    + assert (Hin : In p ready).
      { apply (Permutation_in p (sort_by_perm _ (fun q => nullish (priority q) 0) ready)).
        rewrite Es. now left. }
      apply filter_In in Hin. destruct Hin as [Hp Hc].
      apply andb_true_iff in Hc. destruct Hc as [Harr _]. apply Z.leb_le in Harr.
      specialize (Hb p Hp). apply timed_push; try assumption. lia.
  - destruct HT as [Hc [_ Ha]]. now split.
Qed.

Lemma valid_bursts : forall processes,
  valid_processes processes -> forall p, In p processes -> 0 <= burst p.
Proof.
  intros processes [_ H] p Hp. rewrite Forall_forall in H.
  destruct (H p Hp). lia.
Qed.

(** X10. For every valid process list, the segments of the schedule of
    [priorityNonPreemptive] follow one another in time without overlap,
    from the first arrival on, and none starts before the arrival of its
    process. *)
Theorem priority_schedule_in_time : forall processes fuel,
  valid_processes processes -> (enough_fuel processes <= fuel)%nat ->
  exists s, priorityNonPreemptive fuel processes = Some s
    /\ chained (min_arrival processes) s
    /\ arrived processes s.
Proof.
  intros processes fuel Hv Hfuel.
  destruct (priority_conserves processes fuel Hv Hfuel) as [s [Hs _]].
  exists s. split; [assumption|]. unfold priorityNonPreemptive in Hs.
  apply (while_loop_result _ _ (prio_step processes)
           (fun st => timed processes (min_arrival processes)
                            (prio_t st) (prio_schedule st))
           (fun s => chained (min_arrival processes) s /\ arrived processes s)
           (fun st HI => prio_step_timed processes _ st (valid_bursts _ Hv) HI)
           fuel (mkPrio (min_arrival processes) [] []) s (timed_init _ _) Hs).
Qed.

Lemma priority_schedule_in_time_witness :
  valid_processes demo
  /\ exists s, priorityNonPreemptive (enough_fuel demo) demo = Some s
       /\ chained (min_arrival demo) s
       /\ arrived demo s.
Proof.
  split; [exact demo_valid|].
  apply (priority_schedule_in_time demo (enough_fuel demo) demo_valid).
  apply Nat.le_refl.
Defined.

Lemma sjf_admit_arrived : forall processes seen t l ready,
  incl l processes ->
  (forall r, In r ready -> In r processes /\ arrival r <= t) ->
  forall r, In r (fold_left (sjf_admit seen t) l ready) ->
            In r processes /\ arrival r <= t.
Proof.
  induction l as [|a l IH]; intros ready Hl Hr r Hin; simpl in Hin; [now apply Hr|].
  apply (IH (sjf_admit seen t ready a)); try assumption.
  - intros x Hx. apply Hl. now right.
  - intros x Hx. unfold sjf_admit in Hx.
    destruct (negb (set_has seen (pid a)) && (arrival a <=? t)
              && negb (existsb (fun r0 => String.eqb (pid r0) (pid a)) ready)) eqn:C;
      [|now apply Hr].
    apply in_app_or in Hx. destruct Hx as [Hx|[<-|[]]]; [now apply Hr|].
    apply andb_true_iff in C. destruct C as [C _].
    apply andb_true_iff in C. destruct C as [_ C]. apply Z.leb_le in C.
    split; [apply Hl; now left|assumption].
Qed.

Lemma sjf_step_timed : forall processes lo st,
  (forall p, In p processes -> 0 <= burst p) ->
  timed processes lo (sjf_t st) (sjf_schedule st)
  /\ (forall r, In r (sjf_ready st) -> In r processes /\ arrival r <= sjf_t st) ->
  match sjf_step processes st with
  | inl st' =>
      timed processes lo (sjf_t st') (sjf_schedule st')
      /\ (forall r, In r (sjf_ready st') -> In r processes /\ arrival r <= sjf_t st')
  | inr schedule => chained lo schedule /\ arrived processes schedule
  end.
Proof.
  intros processes lo [ready t schedule seen] Hb [HT Hr]. unfold sjf_step.
  cbn [sjf_ready sjf_t sjf_schedule sjf_seen] in *.
  destruct (length seen <? length processes)%nat.
  - pose proof (sjf_admit_arrived processes seen t processes ready
                  (incl_refl _) Hr) as Hr'.
    set (ready' := fold_left (sjf_admit seen t) processes ready) in *.
    destruct (sort_by burst ready') as [|p rest] eqn:Es;
      cbn [sjf_ready sjf_t sjf_schedule].
    + split; [apply (timed_later _ _ t); [assumption|lia]|].
      intros r Hin. destruct (Hr' r Hin). split; [assumption|lia].
    + pose proof (sort_by_perm _ burst ready') as Hperm. rewrite Es in Hperm.
      destruct (Hr' p (Permutation_in p Hperm (or_introl eq_refl))) as [Hp Harr].
      pose proof (Hb p Hp) as Hbp.
      split; [apply timed_push; try assumption; lia|].
      intros r Hin.
      destruct (Hr' r (Permutation_in r Hperm (or_intror Hin))).
      split; [assumption|lia].
  - destruct HT as [Hc [_ Ha]]. now split.
Qed.

(** X11. For every valid process list, the segments of the schedule of
    [sjf] follow one another in time without overlap, from the first
    arrival on, and none starts before the arrival of its process. *)
Theorem sjf_schedule_in_time : forall processes fuel,
  valid_processes processes -> (enough_fuel processes <= fuel)%nat ->
  exists s, sjf fuel processes = Some s
    /\ chained (min_arrival processes) s
    /\ arrived processes s.
Proof.
  intros processes fuel Hv Hfuel.
  destruct (sjf_conserves processes fuel Hv Hfuel) as [s [Hs _]].
  exists s. split; [assumption|]. unfold sjf in Hs.
  apply (while_loop_result _ _ (sjf_step processes)
           (fun st => timed processes (min_arrival processes)
                            (sjf_t st) (sjf_schedule st)
                      /\ (forall r, In r (sjf_ready st) ->
                                    In r processes /\ arrival r <= sjf_t st))
           (fun s => chained (min_arrival processes) s /\ arrived processes s)
           (fun st HI => sjf_step_timed processes _ st (valid_bursts _ Hv) HI)
           fuel (mkSjf [] (min_arrival processes) [] []) s) in Hs; [assumption|].
  split; [apply timed_init|]. intros r [].
Qed.

Lemma sjf_schedule_in_time_witness :
  valid_processes demo
  /\ exists s, sjf (enough_fuel demo) demo = Some s
       /\ chained (min_arrival demo) s
       /\ arrived demo s.
Proof.
  split; [exact demo_valid|].
  apply (sjf_schedule_in_time demo (enough_fuel demo) demo_valid).
  apply Nat.le_refl.
Defined.

Lemma arrived_same_starts : forall processes s1 s2,
  map (fun s => (seg_pid s, seg_start s)) s1 = map (fun s => (seg_pid s, seg_start s)) s2 ->
  arrived processes s1 -> arrived processes s2.
Proof.
  unfold arrived. induction s1 as [|a s1 IH]; intros [|b s2] E H; simpl in E;
    try discriminate; [constructor|].
  inversion E as [[Ep Es Erest]]. inversion H as [|? ? Ha Hrest]; subst.
  constructor; [|now apply IH].
  destruct Ha as [p [Hp [Hpid Harr]]]. exists p. rewrite <- Ep, <- Es. now repeat split.
Qed.

Lemma close_at_starts : forall t schedule,
  map (fun s => (seg_pid s, seg_start s)) (map (close_at t) schedule)
  = map (fun s => (seg_pid s, seg_start s)) schedule.
Proof. intros. rewrite map_map. reflexivity. Qed.

Lemma set_last_end_starts : forall t schedule,
  map (fun s => (seg_pid s, seg_start s)) (set_last_end t schedule)
  = map (fun s => (seg_pid s, seg_start s)) schedule.
Proof.
  induction schedule as [|a l IH]; [reflexivity|].
  destruct l as [|b l]; [reflexivity|].
  change (set_last_end t (a :: b :: l)) with (a :: set_last_end t (b :: l)).
  rewrite !map_cons. rewrite map_cons in IH. rewrite IH. reflexivity.
Qed.

Lemma srtf_close_is_close_at : forall processes st,
  srtf_inv processes st ->
  srtf_close (srtf_current st) (srtf_t st) (srtf_schedule st)
  = map (close_at (srtf_t st)) (srtf_schedule st).
Proof.
  intros processes [procs t sch cur] [_ [_ [_ Hcur]]].
  cbn [srtf_procs srtf_t srtf_schedule srtf_current] in *.
  destruct cur as [c|]; cbn [srtf_close].
  - destruct Hcur as [j [front [s [_ [_ [_ [-> Hfront]]]]]]].
    rewrite last_open_snoc, set_last_end_snoc, map_app, close_at_closed by assumption.
    reflexivity.
  - now rewrite close_at_closed.
Qed.

(** One time unit run on the open segment at the end of the schedule
    keeps the schedule in time. *)
Lemma srtf_tick_timed : forall processes lo procs t front p s c,
  Forall closed front -> chained lo front -> final_end lo front <= s -> s <= t ->
  arrived processes (front ++ [mkSegment p s None]) ->
  let st' := srtf_tick procs t (front ++ [mkSegment p s None]) c in
  chained lo (map (close_at (srtf_t st')) (srtf_schedule st'))
  /\ final_end lo (map (close_at (srtf_t st')) (srtf_schedule st')) <= srtf_t st'
  /\ arrived processes (srtf_schedule st').
Proof.
  intros processes lo procs t front p s c Hcl Hc Hf Hst Ha st'.
  assert (Hmap : srtf_t st' = t + 1
                 /\ map (close_at (t + 1)) (srtf_schedule st')
                    = front ++ [mkSegment p s (Some (t + 1))]
                 /\ arrived processes (srtf_schedule st')).
  { subst st'. unfold srtf_tick. cbv zeta.
    destruct (nth_error _ c) as [j|];
      [destruct (remaining j =? 0)|];
      cbn [srtf_t srtf_schedule]; (split; [reflexivity|]).
    - rewrite set_last_end_snoc. cbn [seg_pid seg_start].
      rewrite map_app, close_at_closed by assumption. split; [reflexivity|].
      apply (arrived_same_starts _ (front ++ [mkSegment p s None])); [|assumption].
      now rewrite !map_app.
    - rewrite map_app, close_at_closed by assumption. now split.
    - rewrite map_app, close_at_closed by assumption. now split. }
  destruct Hmap as [-> [-> Harr]].
  split; [apply chained_snoc; try assumption; lia|].
  split; [rewrite final_end_snoc; lia|assumption].
Qed.

Lemma srtf_step_timed : forall processes lo st,
  valid_processes processes ->
  srtf_inv processes st
  /\ chained lo (map (close_at (srtf_t st)) (srtf_schedule st))
  /\ final_end lo (map (close_at (srtf_t st)) (srtf_schedule st)) <= srtf_t st
  /\ arrived processes (srtf_schedule st) ->
  match srtf_step st with
  | inl st' =>
      srtf_inv processes st'
      /\ chained lo (map (close_at (srtf_t st')) (srtf_schedule st'))
      /\ final_end lo (map (close_at (srtf_t st')) (srtf_schedule st')) <= srtf_t st'
      /\ arrived processes (srtf_schedule st')
  | inr schedule => chained lo schedule /\ arrived processes schedule
  end.
Proof.
  intros processes lo st Hv [HI [Hc [Hf Ha]]].
  pose proof (srtf_step_ok processes st Hv HI) as Hok.
  pose proof HI as [Hmap [_ [_ Hcur]]].
  unfold srtf_step in *.
  destruct (existsb (fun j => remaining j >? 0) (srtf_procs st)).
  - destruct (sort_by _ (srtf_ready (srtf_procs st) (srtf_t st)))
      as [|[ni next] rest] eqn:Es.
    + destruct Hok as [HI' _]. split; [assumption|].
      cbn [srtf_t srtf_schedule].
      destruct (srtf_current st) as [c|].
      * destruct Hcur as [j [front [s [_ [_ [_ [E Hfront]]]]]]]. rewrite E in *.
        rewrite map_app, close_at_closed in Hc, Hf by assumption.
        unfold close_at in Hc, Hf.
        cbn [map seg_pid seg_start seg_end nullish] in Hc, Hf.
        apply chained_snoc_inv in Hc. destruct Hc as [C1 [C2 C3]].
        rewrite map_app, close_at_closed by assumption.
        unfold close_at. cbn [map seg_pid seg_start seg_end nullish].
        split; [apply chained_snoc; try assumption; lia|].
        split; [rewrite final_end_snoc; lia|assumption].
      * rewrite close_at_closed in * by assumption.
        split; [assumption|]. split; [lia|assumption].
    + assert (Hnext : In (ni, next) (srtf_ready (srtf_procs st) (srtf_t st))).
      { apply (Permutation_in _ (sort_by_perm _ (fun ij => remaining (snd ij)) _)).
        rewrite Es. now left. }
      apply srtf_ready_in in Hnext. destruct Hnext as [Hn [Harr _]].
      cbv zeta in *.
      destruct (srtf_keep (srtf_procs st) (srtf_current st) next) as [c|] eqn:K.
      * destruct Hok as [HI' _]. split; [assumption|].
        apply srtf_keep_some in K. rewrite K in Hcur.
        destruct Hcur as [j [front [s [_ [_ [_ [E Hfront]]]]]]]. rewrite E in *.
        rewrite map_app, close_at_closed in Hc, Hf by assumption.
        unfold close_at in Hc, Hf.
        cbn [map seg_pid seg_start seg_end nullish] in Hc, Hf.
        apply chained_snoc_inv in Hc. destruct Hc as [C1 [C2 C3]].
        now apply srtf_tick_timed.
      * destruct Hok as [HI' _]. split; [assumption|].
        rewrite (srtf_close_is_close_at processes st HI).
        apply srtf_tick_timed.
        -- rewrite <- (srtf_close_is_close_at processes st HI).
           apply (srtf_close_ok processes st HI).
        -- assumption.
        -- assumption.
        -- lia.
        -- apply Forall_app. split.
           ++ apply (arrived_same_starts _ (srtf_schedule st)); [|assumption].
              now rewrite close_at_starts.
           ++ constructor; [|constructor]. exists (job_proc next).
              split; [rewrite <- Hmap; apply in_map; eapply nth_error_In; eassumption|].
              split; [reflexivity|assumption].
  - destruct Hok as [Hcl _]. rewrite close_at_closed in Hc by assumption.
    now split.
Qed.

(** X12. For every valid process list, the segments of the schedule of
    [srtf] follow one another in time without overlap, from the first
    arrival on, and none starts before the arrival of its process. *)
Theorem srtf_schedule_in_time : forall processes fuel,
  valid_processes processes -> (enough_fuel processes <= fuel)%nat ->
  exists s, srtf fuel processes = Some s
    /\ chained (min_arrival processes) s
    /\ arrived processes s.
Proof.
  intros processes fuel Hv Hfuel.
  destruct (srtf_conserves processes fuel Hv Hfuel) as [s [Hs _]].
  exists s. split; [assumption|]. unfold srtf in Hs.
  apply (while_loop_result _ _ srtf_step
           (fun st => srtf_inv processes st
              /\ chained (min_arrival processes)
                         (map (close_at (srtf_t st)) (srtf_schedule st))
              /\ final_end (min_arrival processes)
                           (map (close_at (srtf_t st)) (srtf_schedule st)) <= srtf_t st
              /\ arrived processes (srtf_schedule st))
           (fun s => chained (min_arrival processes) s /\ arrived processes s)
           (fun st HI => srtf_step_timed processes _ st Hv HI)
           fuel (mkSrtf (map job_of processes) (min_arrival processes) [] None) s)
    in Hs; [assumption|].
  split.
  - destruct Hv as [_ Hpos]. unfold srtf_inv.
    cbn [srtf_procs srtf_t srtf_schedule srtf_current].
    split; [apply job_procs_fresh|]. split; [|split; [|constructor]].
    + intros j Hj. apply in_map_iff in Hj. destruct Hj as [p [<- Hp]].
      rewrite Forall_forall in Hpos. destruct (Hpos p Hp). simpl. lia.
    + intros x. now rewrite done_work_fresh.
  - cbn [srtf_t srtf_schedule map]. split; [exact I|].
    split; [unfold final_end; simpl; lia|constructor].
Qed.

Lemma srtf_schedule_in_time_witness :
  valid_processes demo
  /\ exists s, srtf (enough_fuel demo) demo = Some s
       /\ chained (min_arrival demo) s
       /\ arrived demo s.
Proof.
  split; [exact demo_valid|].
  apply (srtf_schedule_in_time demo (enough_fuel demo) demo_valid).
  apply Nat.le_refl.
Defined.

Lemma roundRobin_bad_quantum_runs_on_witness :
  valid_processes demo /\ roundRobin (enough_fuel demo) demo 0 = None.
Proof.
  split; [exact demo_valid|].
  apply (roundRobin_bad_quantum_runs_on demo 0 (enough_fuel demo) demo_valid);
    [discriminate|lia].
Defined.

(** ** Round robin in time *)

Lemma rr_enqueue_admits : forall rest t i ready i1 ready1,
  rr_enqueue rest t i ready = (i1, ready1) ->
  forall k j, (i + k < i1)%nat -> nth_error rest k = Some j ->
    arrival (job_proc j) <= t.
Proof.
  induction rest as [|a rest IH]; intros t i ready i1 ready1 E k j Hk Hj.
  - destruct k; discriminate Hj.
  - simpl in E. destruct (arrival (job_proc a) <=? t) eqn:A.
    + destruct k as [|k].
      * simpl in Hj. inversion Hj; subst. now apply Z.leb_le.
      * simpl in Hj. apply (IH t (Datatypes.S i) (ready ++ [i]) i1 ready1 E k j); [lia|assumption].
    + inversion E; subst. lia.
Qed.

(** The jobs in front of the position the admission loop stops at have
    all arrived. *)
Lemma rr_enqueue_admitted : forall procs t i ready i1 ready1,
  rr_enqueue (skipn i procs) t i ready = (i1, ready1) ->
  (forall k p, (k < i)%nat -> nth_error (map job_proc procs) k = Some p ->
     arrival p <= t) ->
  forall k p, (k < i1)%nat -> nth_error (map job_proc procs) k = Some p ->
    arrival p <= t.
Proof.
  intros procs t i ready i1 ready1 E H0 k p Hk Hp.
  destruct (Nat.lt_ge_cases k i) as [Hlt|Hge]; [now apply (H0 k)|].
  rewrite nth_error_map in Hp.
  destruct (nth_error procs k) as [j|] eqn:Hj; [|discriminate].
  inversion Hp; subst p.
  apply (rr_enqueue_admits _ _ _ _ _ _ E (k - i)%nat j); [lia|].
  rewrite nth_error_skipn. now replace (i + (k - i))%nat with k by lia.
Qed.

Lemma min_arrival_le : forall processes p,
  In p processes -> min_arrival processes <= arrival p.
Proof.
  intros [|p0 ps] p Hp; [destruct Hp|]. unfold min_arrival.
  destruct (fold_min_spec (map arrival ps) (arrival p0)) as [H1 [H2 _]].
  destruct Hp as [<-|Hp]; [assumption|]. apply H2. now apply in_map.
Qed.

Lemma rr_step_timed : forall processes sorted lo q st,
  1 <= q ->
  (forall p, In p sorted -> 0 < burst p) ->
  (forall p, In p sorted -> In p processes) ->
  rr_inv sorted None st /\ rr_timed processes lo q st ->
  match rr_step q st with
  | inl st' => rr_inv sorted None st' /\ rr_timed processes lo q st'
  | inr schedule =>
      chained lo schedule /\ arrived processes schedule /\ slices q schedule
  end.
Proof.
  intros processes sorted lo q [procs ready t i sch] Hq Hpos Hsub
         [HI [Ht [Hs Hadm]]].
  pose proof (rr_step_ok sorted q _ Hq Hpos HI) as Hok.
  unfold rr_step in *. unfold rr_timed in *.
  cbn [rr_procs rr_ready rr_t rr_i rr_schedule] in *.
  destruct (negb (length ready =? 0)%nat || (i <? length procs)%nat) eqn:G.
  - destruct (rr_enqueue (skipn i procs) t i ready) as [i1 ready1] eqn:E1.
    destruct (rr_enqueue_inv sorted None procs ready t t i sch i1 ready1 Hpos HI E1)
      as [HI1 [Hlate1 _]].
    pose proof (rr_enqueue_admitted procs t i ready i1 ready1 E1 Hadm) as Hadm1.
    destruct ready1 as [|pi ready2].
    + destruct Hok as [HI' _]. split; [exact HI'|].
      cbn [rr_procs rr_ready rr_t rr_i rr_schedule].
      destruct (nth_error procs i1) as [j|] eqn:Hj.
      * pose proof (Hlate1 j eq_refl) as Hlate.
        split; [apply (timed_later _ _ t); [assumption|lia]|].
        split; [assumption|].
        intros k p Hk Hp. specialize (Hadm1 k p Hk Hp). lia.
      * split; [apply (timed_later _ _ t); [assumption|lia]|].
        split; [assumption|].
        intros k p Hk Hp. specialize (Hadm1 k p Hk Hp). lia.
    + pose proof HI1 as [Hmap [_ [_ [_ [Hi1 [Hready1 [_ Hjobs1]]]]]]].
      cbn [rr_procs rr_ready rr_t rr_i rr_schedule] in *.
      destruct (Hready1 pi (or_introl eq_refl)) as [Hpi _].
      destruct (nth_error procs pi) as [p|] eqn:Hp;
        [|apply nth_error_None in Hp; lia].
      destruct (Hjobs1 pi p Hp) as [_ [_ [Hrem _]]].
      specialize (Hrem (or_introl eq_refl)).
      cbv zeta in *.
      assert (Hrun : 1 <= Z.min q (remaining p) <= q) by lia.
      destruct (rr_enqueue (skipn i1 (update_nth (dec_remaining (Z.min q (remaining p))) pi procs))
                           (t + Z.min q (remaining p)) i1 ready2)
        as [i2 ready3] eqn:E2.
      destruct Hok as [HI' _]. split; [exact HI'|].
      cbn [rr_procs rr_ready rr_t rr_i rr_schedule].
      assert (Hparr : arrival (job_proc p) <= t).
      { apply (Hadm1 pi); [assumption|]. now rewrite nth_error_map, Hp. }
      split; [|split].
      * apply timed_push; [assumption| |assumption|lia].
        apply Hsub. rewrite <- Hmap. apply in_map. eapply nth_error_In; eassumption.
      * apply Forall_app. split; [assumption|]. constructor; [|constructor].
        exists (t + Z.min q (remaining p)). cbn [seg_end seg_start].
        split; [reflexivity|lia].
      * apply (rr_enqueue_admitted _ _ i1 ready2 i2 ready3 E2).
        intros k p' Hk Hp'. rewrite job_procs_update in Hp'.
        specialize (Hadm1 k p' Hk Hp'). lia.
  - destruct Ht as [Hc [_ Ha]]. split; [assumption|]. split; assumption.
Qed.

(** X14. For every valid process list and every quantum of at least 1,
    [roundRobin] returns a schedule whose segments follow one another in
    time without overlap, from the first arrival on; none starts before
    the arrival of its process, and each lasts at least 1 and at most
    [quantum] time units. *)
Theorem roundRobin_slices_in_time : forall processes quantum fuel,
  valid_processes processes -> 1 <= quantum ->
  (enough_fuel processes <= fuel)%nat ->
  exists s, roundRobin fuel processes quantum = Some s
    /\ chained (min_arrival processes) s
    /\ arrived processes s
    /\ slices quantum s.
Proof.
  intros processes quantum fuel Hv Hq Hfuel.
  destruct (roundRobin_conserves processes quantum fuel Hv Hq Hfuel) as [s [Hs _]].
  exists s. split; [assumption|]. unfold roundRobin in Hs.
  destruct Hv as [_ Hvalid].
  set (procs0 := sort_by (fun j => arrival (job_proc j)) (map job_of processes)) in *.
  cbv zeta in Hs.
  set (t0 := match procs0 with j :: _ => arrival (job_proc j) | [] => 0 end) in *.
  assert (Hperm0 : Permutation procs0 (map job_of processes))
    by apply sort_by_perm.
  assert (Hperm : Permutation (map job_proc procs0) processes).
  { apply (Permutation_map job_proc) in Hperm0.
    now rewrite job_procs_fresh in Hperm0. }
  assert (Hfresh : forall j, In j procs0 ->
                     remaining j = burst (job_proc j) /\ 0 < burst (job_proc j)).
  { intros j Hj. apply (Permutation_in j Hperm0) in Hj.
    apply in_map_iff in Hj. destruct Hj as [p [<- Hp]].
    rewrite Forall_forall in Hvalid. destruct (Hvalid p Hp). simpl.
    split; [reflexivity|lia]. }
  assert (Hpos : forall p, In p (map job_proc procs0) -> 0 < burst p).
  { intros p Hp. apply in_map_iff in Hp. destruct Hp as [j [<- Hj]].
    now apply Hfresh. }
  assert (Hsub : forall p, In p (map job_proc procs0) -> In p processes)
    by (intros p Hp; now apply (Permutation_in p Hperm)).
  assert (Hlo : min_arrival processes <= t0).
  { subst t0. destruct procs0 as [|j0 rest] eqn:E0.
    - simpl in Hperm. apply Permutation_nil in Hperm. rewrite Hperm.
      simpl. lia.
    - apply min_arrival_le. apply Hsub. now left. }
  apply (while_loop_result _ _ (rr_step quantum)
           (fun st => rr_inv (map job_proc procs0) None st
                      /\ rr_timed processes (min_arrival processes) quantum st)
           (fun s => chained (min_arrival processes) s /\ arrived processes s
                     /\ slices quantum s)
           (fun st HI => rr_step_timed processes _ _ quantum st Hq Hpos Hsub HI)
           fuel (mkRR procs0 [] t0 O []) s); [|assumption].
  split.
  - unfold rr_inv. cbn [rr_procs rr_ready rr_t rr_i rr_schedule].
    split; [reflexivity|]. split; [constructor|]. split; [|split; [constructor|]].
    + intros x. rewrite done_work_untouched; [reflexivity|].
      intros j Hj. now apply Hfresh.
    + split; [lia|]. split; [intros k []|]. split; [discriminate|].
      intros k j Hk. apply nth_error_In in Hk. destruct (Hfresh j Hk) as [E Hb].
      split; [lia|]. split; [intros; assumption|]. split; [intros []|]. lia.
  - unfold rr_timed. cbn [rr_procs rr_ready rr_t rr_i rr_schedule].
    split; [|split; [constructor|intros k p Hk; lia]].
    split; [exact I|]. split; [unfold final_end; simpl; lia|constructor].
Qed.

Lemma roundRobin_slices_in_time_witness :
  valid_processes demo
  /\ exists s, roundRobin (enough_fuel demo) demo 2 = Some s
       /\ chained (min_arrival demo) s
       /\ arrived demo s
       /\ slices 2 s.
Proof.
  split; [exact demo_valid|].
  apply (roundRobin_slices_in_time demo 2 (enough_fuel demo) demo_valid);
    [lia|apply Nat.le_refl].
Defined.

(** ** Metrics of the processes that run *)

Lemma mBy_absent : forall ms i0 key,
  ~ In key (map m_pid ms) -> mBy ms i0 key = None.
Proof.
  intros ms i0 key H. destruct (mBy ms i0 key) as [k|] eqn:E; [|reflexivity].
  exfalso. apply H. destruct (mBy_sound _ _ _ _ E) as [_ [m [Hn Hp]]].
  rewrite <- Hp. apply in_map. eapply nth_error_In; eassumption.
Qed.

(** With unique pids the table leads from the pid of a row to that row. *)
Lemma mBy_unique : forall ms i0 i m,
  NoDup (map m_pid ms) -> nth_error ms i = Some m ->
  mBy ms i0 (m_pid m) = Some (i0 + i)%nat.
Proof.
  induction ms as [|a ms IH]; intros i0 i m Hnd Hn; [destruct i; discriminate|].
  simpl in Hnd. apply NoDup_cons_iff in Hnd. destruct Hnd as [Ha Hnd].
  destruct i as [|i]; simpl in Hn.
  - inversion Hn; subst a. simpl.
    rewrite (mBy_absent ms (Datatypes.S i0) (m_pid m) Ha), String.eqb_refl.
    now rewrite Nat.add_0_r.
  - simpl. rewrite (IH (Datatypes.S i0) i m Hnd Hn). f_equal. lia.
Qed.

Lemma update_nth_pids : forall seg k ms,
  map m_pid (update_nth (touch seg) k ms) = map m_pid ms.
Proof.
  induction k as [|k IH]; intros [|m ms]; simpl; try reflexivity.
  now rewrite IH.
Qed.

Lemma record_segment_pids : forall ms seg,
  map m_pid (record_segment ms seg) = map m_pid ms.
Proof.
  intros. unfold record_segment.
  destruct (mBy ms 0 (seg_pid seg)); [apply update_nth_pids|reflexivity].
Qed.

Lemma record_fold_pids : forall schedule ms,
  map m_pid (fold_left record_segment schedule ms) = map m_pid ms.
Proof.
  induction schedule as [|seg schedule IH]; intros ms; simpl; [reflexivity|].
  now rewrite IH, record_segment_pids.
Qed.

(** With unique pids, the loop over the schedule leaves in every row the
    segments of its pid, in schedule order. *)
Lemma record_fold_row : forall schedule ms i m,
  NoDup (map m_pid ms) -> nth_error ms i = Some m ->
  nth_error (fold_left record_segment schedule ms) i
  = Some (touch_all (segments_of schedule (m_pid m)) m).
Proof.
  induction schedule as [|seg schedule IH]; intros ms i m Hnd Hn;
    [exact Hn|].
  cbn [fold_left]. unfold segments_of. cbn [filter].
  destruct (String.eqb (seg_pid seg) (m_pid m)) eqn:E.
  - apply String.eqb_eq in E.
    assert (Hrec : nth_error (record_segment ms seg) i = Some (touch seg m)).
    { unfold record_segment. rewrite E, (mBy_unique ms 0 i m Hnd Hn).
      rewrite update_nth_same, Hn. reflexivity. }
    rewrite (IH (record_segment ms seg) i (touch seg m)); [reflexivity| |assumption].
    now rewrite record_segment_pids.
  - apply String.eqb_neq in E.
    apply IH; [now rewrite record_segment_pids|].
    apply record_segment_other; [assumption|congruence].
Qed.

Lemma touch_all_fields : forall segs m,
  m_pid (touch_all segs m) = m_pid m
  /\ m_arrival (touch_all segs m) = m_arrival m
  /\ m_start (touch_all segs m)
     = match m_start m with
       | Some s => Some s
       | None => match segs with
                 | [] => None
                 | f :: _ => Some (seg_start f)
                 end
       end
  /\ m_completion (touch_all segs m) = last (map seg_end segs) (m_completion m).
Proof.
  induction segs as [|f segs IH]; intros m.
  - simpl. destruct (m_start m); repeat split; reflexivity.
  - change (touch_all (f :: segs) m) with (touch_all segs (touch f m)).
    destruct (IH (touch f m)) as [H1 [H2 [H3 H4]]].
    rewrite H1, H2, H3, H4. cbn [touch m_pid m_arrival m_start m_completion].
    split; [reflexivity|]. split; [reflexivity|]. split.
    + destruct (m_start m); reflexivity.
    + cbn [map]. now rewrite last_cons_default_any.
Qed.

(** The row of a process, with unique pids. *)
Lemma metrics_row : forall schedule processes i p,
  NoDup (map pid processes) -> nth_error processes i = Some p ->
  nth_error (metrics (computeMetrics schedule processes)) i
  = Some (finish_metrics schedule
            (touch_all (segments_of schedule (pid p)) (init_metrics p))).
Proof.
  intros schedule processes i p Hnd Hp. unfold computeMetrics. cbn [metrics].
  rewrite nth_error_map.
  rewrite (record_fold_row schedule (map init_metrics processes) i (init_metrics p)).
  - reflexivity.
  - now rewrite map_map.
  - now rewrite nth_error_map, Hp.
Qed.

Lemma last_map_seg_end : forall rest f d,
  last (map seg_end (f :: rest)) d = seg_end (last rest f).
Proof.
  intros rest f d. cbn [map]. rewrite last_cons_default_any.
  revert f. induction rest as [|g rest IH]; intros f; [reflexivity|].
  cbn [map]. rewrite !last_cons_default_any. apply IH.
Qed.

(** X15. With unique pids, the row [computeMetrics] gives a process
    that is on the schedule has the start of the first segment of its
    pid as [start] and the end of the last one as [completion]; its
    response time is that start less the arrival, its turnaround time
    that end less the arrival, and its waiting time the turnaround less
    the time spent on its segments. *)
Theorem run_metrics : forall schedule processes i p f rest,
  NoDup (map pid processes) ->
  nth_error processes i = Some p ->
  segments_of schedule (pid p) = f :: rest ->
  exists m, nth_error (metrics (computeMetrics schedule processes)) i = Some m
    /\ m_pid m = pid p
    /\ m_start m = Some (seg_start f)
    /\ m_completion m = seg_end (last rest f)
    /\ m_response m = Some (seg_start f - arrival p)
    /\ m_turnaround m = nullish (seg_end (last rest f)) (arrival p) - arrival p
    /\ m_waiting m = m_turnaround m - executed schedule (pid p).
Proof.
  intros schedule processes i p f rest Hnd Hp Hsegs.
  eexists. split; [apply (metrics_row schedule processes i p Hnd Hp)|].
  rewrite Hsegs.
  destruct (touch_all_fields (f :: rest) (init_metrics p)) as [H1 [H2 [H3 H4]]].
  rewrite last_map_seg_end in H4.
  unfold finish_metrics.
  cbn [m_pid m_start m_completion m_response m_turnaround m_waiting].
  rewrite H1, H2, H3, H4. cbn [init_metrics m_pid m_arrival m_start nullish].
  repeat split; reflexivity.
Qed.

Lemma run_metrics_witness :
  exists m, nth_error (metrics (computeMetrics (fcfs demo) demo)) 1 = Some m
    /\ m_pid m = "P2"%string
    /\ m_start m = Some 7
    /\ m_completion m = Some 11
    /\ m_response m = Some (7 - 2)
    /\ m_turnaround m = 11 - 2
    /\ m_waiting m = m_turnaround m - executed (fcfs demo) "P2"%string.
Proof.
  apply (run_metrics (fcfs demo) demo 1 (mkProcess "P2"%string 2 4 (Some 1))
           (mkSegment "P2"%string 7 (Some 11)) []).
  - exact (proj1 demo_valid).
  - reflexivity.
  - reflexivity.
Defined.

(** On a schedule in time, the segments of a pid take no more time than
    lies between the start of the first and the end of the last. *)
Lemma chained_executed_bound : forall schedule lo x,
  chained lo schedule ->
  0 <= executed schedule x
  /\ match segments_of schedule x with
     | [] => executed schedule x = 0
     | f :: rest =>
         exists e, seg_end (last rest f) = Some e
           /\ lo <= seg_start f
           /\ executed schedule x <= e - seg_start f
     end.
Proof.
  induction schedule as [|s schedule IH]; intros lo x Hc.
  - split; [unfold executed; simpl; lia|reflexivity].
  - destruct Hc as [Hlo [es [Hes [Hse Hc]]]].
    destruct (IH es x Hc) as [Hnn Hrest].
    change (s :: schedule) with ([s] ++ schedule).
    rewrite executed_app. unfold segments_of in *. rewrite filter_app.
    unfold executed at 1 3 5. cbn [filter].
    destruct (String.eqb (seg_pid s) x).
    + cbn [fold_left app]. rewrite Hes. cbn [num_of].
      split; [lia|].
      destruct (filter _ schedule) as [|f' rest'].
      * exists es. cbn [last]. split; [assumption|]. split; [assumption|]. lia.
      * destruct Hrest as [e [He [Hle Hex]]]. exists e.
        split; [|split; [assumption|lia]].
        now rewrite last_cons_default_any.
    + cbn [fold_left app]. split; [lia|].
      destruct (filter _ schedule) as [|f' rest'].
      * lia.
      * destruct Hrest as [e [He [Hle Hex]]]. exists e.
        split; [assumption|]. split; lia.
Qed.

Lemma unique_pid : forall processes p p',
  NoDup (map pid processes) -> In p processes -> In p' processes ->
  pid p = pid p' -> p = p'.
Proof.
  induction processes as [|a l IH]; intros p p' Hnd Hp Hp' E; [destruct Hp|].
  simpl in Hnd. apply NoDup_cons_iff in Hnd. destruct Hnd as [Ha Hnd].
  destruct Hp as [<-|Hp], Hp' as [<-|Hp'].
  - reflexivity.
  - exfalso. apply Ha. rewrite E. now apply in_map.
  - exfalso. apply Ha. rewrite <- E. now apply in_map.
  - now apply IH.
Qed.

(** X16. With unique pids, on a schedule whose segments follow one
    another without overlap and none of which starts before the arrival
    of its process, [computeMetrics] gives one row per process, in input
    order, and in every row the response time is at least 0 and at most
    the waiting time, which is at most the turnaround time. *)
Theorem metrics_in_time : forall schedule processes lo,
  NoDup (map pid processes) ->
  chained lo schedule -> arrived processes schedule ->
  map m_pid (metrics (computeMetrics schedule processes)) = map pid processes
  /\ Forall row_in_time (metrics (computeMetrics schedule processes)).
Proof.
  intros schedule processes lo Hnd Hc Ha.
  assert (Hpids : map m_pid (metrics (computeMetrics schedule processes))
                  = map pid processes).
  { unfold computeMetrics. cbn [metrics]. rewrite map_map.
    cbn [finish_metrics m_pid].
    change (fun x : Metrics => m_pid x) with m_pid.
    now rewrite record_fold_pids, map_map. }
  split; [exact Hpids|].
  apply Forall_forall. intros m Hm. apply In_nth_error in Hm.
  destruct Hm as [i Hi].
  assert (Hp : exists p, nth_error processes i = Some p).
  { destruct (nth_error processes i) as [p|] eqn:E; [now exists p|].
    apply nth_error_None in E.
    assert (Hlen : length (metrics (computeMetrics schedule processes))
                   = length processes)
      by (rewrite <- (length_map m_pid), Hpids; apply length_map).
    assert (i < length (metrics (computeMetrics schedule processes)))%nat
      by (apply nth_error_Some; congruence).
    lia. }
  destruct Hp as [p Hp].
  rewrite (metrics_row schedule processes i p Hnd Hp) in Hi.
  inversion Hi; subst m. clear Hi.
  destruct (touch_all_fields (segments_of schedule (pid p)) (init_metrics p))
    as [H1 [H2 [H3 H4]]].
  destruct (chained_executed_bound schedule lo (pid p) Hc) as [Hnn Hb].
  unfold row_in_time, finish_metrics.
  cbn [m_response m_waiting m_turnaround].
  rewrite H1, H2, H3, H4. cbn [init_metrics m_pid m_arrival m_start m_completion].
  destruct (segments_of schedule (pid p)) as [|f rest] eqn:Hsegs.
  - cbn [map last nullish]. exists 0. split; [f_equal; lia|]. lia.
  - rewrite last_map_seg_end.
    destruct Hb as [e [He [_ Hex]]]. rewrite He. cbn [nullish].
    assert (Hf : In f schedule /\ seg_pid f = pid p).
    { assert (Hin : In f (segments_of schedule (pid p)))
        by (rewrite Hsegs; now left).
      unfold segments_of in Hin. apply filter_In in Hin.
      destruct Hin as [Hin E]. apply String.eqb_eq in E. now split. }
    destruct Hf as [Hf Hfp].
    unfold arrived in Ha. rewrite Forall_forall in Ha.
    destruct (Ha f Hf) as [p' [Hp' [Epid Harr]]].
    assert (p' = p).
    { apply (unique_pid processes); try assumption; [|congruence].
      eapply nth_error_In; eassumption. }
    subst p'.
    exists (seg_start f - arrival p). split; [reflexivity|]. lia.
Qed.

Lemma metrics_in_time_witness :
  map m_pid (metrics (computeMetrics (fcfs demo) demo)) = map pid demo
  /\ Forall row_in_time (metrics (computeMetrics (fcfs demo) demo)).
Proof.
  apply (metrics_in_time (fcfs demo) demo 0).
  - exact (proj1 demo_valid).
  - simpl. repeat (split; [lia|]; eexists; split; [reflexivity|]; split; [lia|]).
    exact I.
  - repeat constructor; simpl.
    + exists (mkProcess "P1"%string 0 7 (Some 2)). simpl.
      split; [tauto|]. split; [reflexivity|lia].
    + exists (mkProcess "P2"%string 2 4 (Some 1)). simpl.
      split; [tauto|]. split; [reflexivity|lia].
    + exists (mkProcess "P3"%string 4 1 (Some 3)). simpl.
      split; [tauto|]. split; [reflexivity|lia].
    + exists (mkProcess "P4"%string 5 4 (Some 2)). simpl.
      split; [tauto|]. split; [reflexivity|lia].
Defined.

(** ** Processes that share a pid *)

Lemma set_add_NoDup : forall s x, NoDup s -> NoDup (set_add s x).
Proof.
  intros s x H. unfold set_add. destruct (set_has s x) eqn:E; [assumption|].
  apply set_has_false in E. apply NoDup_app; [assumption|repeat constructor; intros []|].
  intros a Ha [<-|[]]. contradiction.
Qed.

Lemma set_add_incl : forall s x (l : list String.string),
  incl s l -> In x l -> incl (set_add s x) l.
Proof.
  intros s x l H Hx. unfold set_add. destruct (set_has s x); [assumption|].
  intros a Ha. apply in_app_or in Ha. destruct Ha as [Ha|[<-|[]]]; auto.
Qed.

(** Distinct pids of the input are fewer than the processes when two
    processes share a pid. *)
Lemma marked_short : forall processes (marked : pid_set),
  ~ NoDup (map pid processes) ->
  NoDup marked -> incl marked (map pid processes) ->
  (length marked <? length processes)%nat = true.
Proof.
  intros processes marked Hdup Hnd Hincl. apply Nat.ltb_lt.
  destruct (Nat.lt_ge_cases (length marked) (length processes)) as [|Hge];
    [assumption|].
  exfalso. apply Hdup. apply (NoDup_incl_NoDup (l := marked)); [assumption| |assumption].
  now rewrite length_map.
Qed.

Lemma prio_step_dup : forall processes st,
  ~ NoDup (map pid processes) ->
  NoDup (prio_done st) /\ incl (prio_done st) (map pid processes) ->
  exists st', prio_step processes st = inl st'
    /\ NoDup (prio_done st') /\ incl (prio_done st') (map pid processes).
Proof.
  intros processes st Hdup [Hnd Hincl]. unfold prio_step.
  rewrite (marked_short processes _ Hdup Hnd Hincl).
  destruct (sort_by _ _) as [|p rest] eqn:Es.
  - eexists. split; [reflexivity|]. now split.
  - eexists. split; [reflexivity|]. cbn [prio_done].
    split; [now apply set_add_NoDup|]. apply set_add_incl; [assumption|].
    assert (Hp : In p (sort_by (fun p => nullish (priority p) 0)
                          (filter (fun p => (arrival p <=? prio_t st)
                                            && negb (set_has (prio_done st) (pid p)))
                                  processes)))
      by (rewrite Es; now left).
    apply (Permutation_in p (sort_by_perm _ _ _)) in Hp.
    apply filter_In in Hp. apply in_map. tauto.
Qed.

Lemma sjf_admit_incl : forall processes seen t l ready,
  incl l processes -> incl ready processes ->
  incl (fold_left (sjf_admit seen t) l ready) processes.
Proof.
  induction l as [|p l IH]; intros ready Hl Hr; [assumption|].
  cbn [fold_left]. apply IH; [intros x Hx; apply Hl; now right|].
  unfold sjf_admit. destruct (_ && _); [|assumption].
  intros x Hx. apply in_app_or in Hx. destruct Hx as [Hx|[<-|[]]]; [auto|].
  apply Hl. now left.
Qed.

Lemma sjf_step_dup : forall processes st,
  ~ NoDup (map pid processes) ->
  NoDup (sjf_seen st) /\ incl (sjf_seen st) (map pid processes)
  /\ incl (sjf_ready st) processes ->
  exists st', sjf_step processes st = inl st'
    /\ NoDup (sjf_seen st') /\ incl (sjf_seen st') (map pid processes)
    /\ incl (sjf_ready st') processes.
Proof.
  intros processes st Hdup [Hnd [Hincl Hready]]. unfold sjf_step.
  rewrite (marked_short processes _ Hdup Hnd Hincl). cbv zeta.
  pose proof (sjf_admit_incl processes (sjf_seen st) (sjf_t st) processes
                (sjf_ready st) (incl_refl _) Hready) as Hadm.
  destruct (sort_by burst _) as [|p rest] eqn:Es.
  - eexists. split; [reflexivity|]. cbn [sjf_seen sjf_ready]. now repeat split.
  - assert (Hsub : incl (p :: rest) processes).
    { intros x Hx. apply Hadm. apply (Permutation_in x (sort_by_perm _ burst _)).
      now rewrite Es. }
    eexists. split; [reflexivity|]. cbn [sjf_seen sjf_ready].
    split; [now apply set_add_NoDup|]. split.
    + apply set_add_incl; [assumption|]. apply in_map. apply Hsub. now left.
    + intros x Hx. apply Hsub. now right.
Qed.

(** X17. When two processes of the input share a pid, the loops of
    [sjf] and [priorityNonPreemptive] do not end: the set of pids marked
    stays smaller than the process list, so no amount of fuel gives a
    schedule. *)
Theorem shared_pid_runs_on : forall processes fuel,
  ~ NoDup (map pid processes) ->
  sjf fuel processes = None /\ priorityNonPreemptive fuel processes = None.
Proof.
  intros processes fuel Hdup. split.
  - unfold sjf.
    apply (while_loop_never _ _ (sjf_step processes)
             (fun st => NoDup (sjf_seen st) /\ incl (sjf_seen st) (map pid processes)
                        /\ incl (sjf_ready st) processes)).
    + intros st HI. now apply sjf_step_dup.
    + cbn [sjf_seen sjf_ready]. split; [constructor|]. split; intros x [].
  - unfold priorityNonPreemptive.
    apply (while_loop_never _ _ (prio_step processes)
             (fun st => NoDup (prio_done st)
                        /\ incl (prio_done st) (map pid processes))).
    + intros st HI. now apply prio_step_dup.
    + cbn [prio_done]. split; [constructor|intros x []].
Qed.

Lemma shared_pid_runs_on_witness :
  sjf 100 [mkProcess "P1"%string 0 2 None; mkProcess "P1"%string 1 3 None] = None
  /\ priorityNonPreemptive 100
       [mkProcess "P1"%string 0 2 None; mkProcess "P1"%string 1 3 None] = None.
Proof.
  apply (shared_pid_runs_on
           [mkProcess "P1"%string 0 2 None; mkProcess "P1"%string 1 3 None] 100).
  simpl. intros H. apply NoDup_cons_iff in H. destruct H as [H _].
  apply H. now left.
Defined.

(** ** Which process a turn runs *)

(** X18. In a turn of the loop of [priorityNonPreemptive] with processes
    left, the processes that have arrived and are not done are taken in
    input order.  With none of them the clock moves on by 1 and nothing
    else changes; otherwise the turn runs, for its whole burst, the
    first of them among those of least priority value (a missing
    priority counting as 0), and marks its pid done. *)
Theorem priority_runs_most_urgent : forall processes st,
  (length (prio_done st) < length processes)%nat ->
  let ready := filter (fun p => (arrival p <=? prio_t st)
                                && negb (set_has (prio_done st) (pid p)))
                      processes in
  (ready = [] ->
     prio_step processes st
     = inl (mkPrio (prio_t st + 1) (prio_done st) (prio_schedule st)))
  /\ (ready <> [] ->
      exists l1 p l2,
        ready = l1 ++ p :: l2
        /\ (forall y, In y l1 -> nullish (priority p) 0 < nullish (priority y) 0)
        /\ (forall y, In y l2 -> nullish (priority p) 0 <= nullish (priority y) 0)
        /\ prio_step processes st
           = inl (mkPrio (prio_t st + burst p)
                         (set_add (prio_done st) (pid p))
                         (prio_schedule st
                            ++ [mkSegment (pid p) (prio_t st)
                                          (Some (prio_t st + burst p))]))).
Proof.
  intros processes st Hleft ready. apply Nat.ltb_lt in Hleft. split.
  - intros E. unfold prio_step. rewrite Hleft. fold ready. rewrite E. reflexivity.
  - intros Hne.
    destruct (first_least_split _ (fun p => nullish (priority p) 0) ready Hne)
      as [l1 [p [l2 [E [H1 H2]]]]].
    exists l1, p, l2. split; [exact E|]. split; [exact H1|]. split; [exact H2|].
    unfold prio_step. rewrite Hleft. fold ready. rewrite E.
    rewrite (sort_by_first_min _ (fun p => nullish (priority p) 0) l1 p l2 H1 H2).
    reflexivity.
Qed.

Lemma priority_runs_most_urgent_witness :
  let st := mkPrio 7 ["P1"%string] [mkSegment "P1"%string 0 (Some 7)] in
  let ready := filter (fun p => (arrival p <=? prio_t st)
                                && negb (set_has (prio_done st) (pid p)))
                      demo in
  (ready = [] ->
     prio_step demo st
     = inl (mkPrio (prio_t st + 1) (prio_done st) (prio_schedule st)))
  /\ (ready <> [] ->
      exists l1 p l2,
        ready = l1 ++ p :: l2
        /\ (forall y, In y l1 -> nullish (priority p) 0 < nullish (priority y) 0)
        /\ (forall y, In y l2 -> nullish (priority p) 0 <= nullish (priority y) 0)
        /\ prio_step demo st
           = inl (mkPrio (prio_t st + burst p)
                         (set_add (prio_done st) (pid p))
                         (prio_schedule st
                            ++ [mkSegment (pid p) (prio_t st)
                                          (Some (prio_t st + burst p))]))).
Proof.
  apply (priority_runs_most_urgent demo
           (mkPrio 7 ["P1"%string] [mkSegment "P1"%string 0 (Some 7)])).
  simpl. lia.
Defined.

(** X19. In a turn of the loop of [sjf] with processes left, the ready
    queue first takes in, in input order, the processes that have
    arrived, are not marked, and whose pid is not queued.  With an empty
    queue the clock moves on by 1; otherwise the turn runs, for its
    whole burst, the first process of the queue among those of least
    burst, marks its pid, and leaves the others queued in order of
    burst. *)
Theorem sjf_runs_shortest : forall processes st,
  (length (sjf_seen st) < length processes)%nat ->
  let ready := fold_left (sjf_admit (sjf_seen st) (sjf_t st)) processes
                         (sjf_ready st) in
  (ready = [] ->
     sjf_step processes st
     = inl (mkSjf [] (sjf_t st + 1) (sjf_schedule st) (sjf_seen st)))
  /\ (ready <> [] ->
      exists l1 p l2,
        ready = l1 ++ p :: l2
        /\ (forall y, In y l1 -> burst p < burst y)
        /\ (forall y, In y l2 -> burst p <= burst y)
        /\ sjf_step processes st
           = inl (mkSjf (sort_by burst (l1 ++ l2)) (sjf_t st + burst p)
                        (sjf_schedule st
                           ++ [mkSegment (pid p) (sjf_t st)
                                         (Some (sjf_t st + burst p))])
                        (set_add (sjf_seen st) (pid p)))).
Proof.
  intros processes st Hleft ready. apply Nat.ltb_lt in Hleft. split.
  - intros E. unfold sjf_step. rewrite Hleft. cbv zeta. fold ready.
    rewrite E. reflexivity.
  - intros Hne.
    destruct (first_least_split _ burst ready Hne) as [l1 [p [l2 [E [H1 H2]]]]].
    exists l1, p, l2. split; [exact E|]. split; [exact H1|]. split; [exact H2|].
    unfold sjf_step. rewrite Hleft. cbv zeta. fold ready. rewrite E.
    rewrite (sort_by_first_min _ burst l1 p l2 H1 H2). reflexivity.
Qed.

Lemma sjf_runs_shortest_witness :
  let st := mkSjf [] 7 [mkSegment "P1"%string 0 (Some 7)] ["P1"%string] in
  let ready := fold_left (sjf_admit (sjf_seen st) (sjf_t st)) demo
                         (sjf_ready st) in
  (ready = [] ->
     sjf_step demo st
     = inl (mkSjf [] (sjf_t st + 1) (sjf_schedule st) (sjf_seen st)))
  /\ (ready <> [] ->
      exists l1 p l2,
        ready = l1 ++ p :: l2
        /\ (forall y, In y l1 -> burst p < burst y)
        /\ (forall y, In y l2 -> burst p <= burst y)
        /\ sjf_step demo st
           = inl (mkSjf (sort_by burst (l1 ++ l2)) (sjf_t st + burst p)
                        (sjf_schedule st
                           ++ [mkSegment (pid p) (sjf_t st)
                                         (Some (sjf_t st + burst p))])
                        (set_add (sjf_seen st) (pid p)))).
Proof.
  apply (sjf_runs_shortest demo
           (mkSjf [] 7 [mkSegment "P1"%string 0 (Some 7)] ["P1"%string])).
  simpl. lia.
Defined.

(** ** Producer and consumer *)

Lemma pc_tick_bounds : forall size st draw bound,
  size <= bound -> Z.of_nat (length (pc_buffer st)) <= bound ->
  Z.of_nat (length (pc_buffer (pc_tick size st draw))) <= bound.
Proof.
  intros size [buf log] [produce item] bound Hs Hb. unfold pc_tick.
  cbn [pc_buffer pc_log] in *.
  destruct (produce && (Z.of_nat (length buf) <? size)) eqn:E.
  - apply andb_true_iff in E. destruct E as [_ E]. apply Z.ltb_lt in E.
    cbn [pc_buffer]. rewrite length_app. simpl. lia.
  - destruct (negb produce && (0 <? length buf)%nat); [|assumption].
    destruct buf as [|first rest]; [assumption|].
    cbn [pc_buffer]. simpl in Hb. lia.
Qed.

Lemma log_push_length : forall e log n,
  (50 <= n)%nat -> (length log <= n)%nat -> (length (log_push e log) <= n)%nat.
Proof.
  intros e log n Hn Hl. unfold log_push. rewrite length_firstn. simpl length. lia.
Qed.

Lemma pc_tick_log_bounds : forall size st draw n,
  (50 <= n)%nat -> (length (pc_log st) <= n)%nat ->
  (length (pc_log (pc_tick size st draw)) <= n)%nat.
Proof.
  intros size [buf log] [produce item] n Hn Hl. unfold pc_tick.
  cbn [pc_buffer pc_log] in *.
  destruct (produce && (Z.of_nat (length buf) <? size)).
  - cbn [pc_log]. now apply log_push_length.
  - destruct (negb produce && (0 <? length buf)%nat); [|assumption].
    destruct buf as [|first rest]; [assumption|].
    cbn [pc_log]. now apply log_push_length.
Qed.

(** X20. Whatever is drawn, the buffer of [ProducerConsumer] never grows
    beyond the buffer size, or beyond the length it had if that was
    more, and the log never beyond 50 entries, or the length it had. *)
Theorem pc_buffer_bounded : forall size draws st,
  Z.of_nat (length (pc_buffer (pc_run size draws st)))
  <= Z.max size (Z.of_nat (length (pc_buffer st)))
  /\ (length (pc_log (pc_run size draws st))
      <= Nat.max 50 (length (pc_log st)))%nat.
Proof.
  intros size draws st.
  set (bound := Z.max size (Z.of_nat (length (pc_buffer st)))).
  set (n := Nat.max 50 (length (pc_log st))).
  assert (H : Z.of_nat (length (pc_buffer st)) <= bound
              /\ (length (pc_log st) <= n)%nat) by (subst bound n; lia).
  assert (Hs : size <= bound) by (subst bound; lia).
  assert (Hn : (50 <= n)%nat) by (subst n; lia).
  clearbody bound n. unfold pc_run. revert st H.
  induction draws as [|d draws IH]; intros st [Hb Hl]; [now split|].
  cbn [fold_left]. apply IH. split.
  - now apply pc_tick_bounds.
  - now apply pc_tick_log_bounds.
Qed.

Lemma produced_app : forall l1 l2, produced (l1 ++ l2) = produced l1 ++ produced l2.
Proof.
  induction l1 as [|[x|x] l1 IH]; intros l2; simpl; [reflexivity| |apply IH].
  now rewrite IH.
Qed.

Lemma consumed_app : forall l1 l2, consumed (l1 ++ l2) = consumed l1 ++ consumed l2.
Proof.
  induction l1 as [|[x|x] l1 IH]; intros l2; simpl; [reflexivity|apply IH|].
  now rewrite IH.
Qed.

(** While the log has room, a call keeps the account: what was produced
    is what was consumed followed by what waits in the buffer. *)
Lemma pc_tick_fifo : forall size st draw,
  (length (pc_log st) < 50)%nat ->
  produced (rev (pc_log st)) = consumed (rev (pc_log st)) ++ pc_buffer st ->
  (length (pc_log (pc_tick size st draw)) <= Datatypes.S (length (pc_log st)))%nat
  /\ produced (rev (pc_log (pc_tick size st draw)))
     = consumed (rev (pc_log (pc_tick size st draw)))
       ++ pc_buffer (pc_tick size st draw).
Proof.
  intros size [buf log] [produce item] Hl H. unfold pc_tick.
  cbn [pc_buffer pc_log] in *.
  assert (Hpush : forall e, log_push e log = e :: log).
  { intros e. unfold log_push. apply firstn_all2. simpl. lia. }
  destruct (produce && (Z.of_nat (length buf) <? size)).
  - cbn [pc_buffer pc_log]. rewrite Hpush. split; [simpl; lia|].
    simpl rev. rewrite produced_app, consumed_app, H. simpl.
    now rewrite app_nil_r, app_assoc.
  - destruct (negb produce && (0 <? length buf)%nat);
      [|split; [cbn [pc_log]; lia|assumption]].
    destruct buf as [|first rest]; [split; [cbn [pc_log]; lia|assumption]|].
    cbn [pc_buffer pc_log]. rewrite Hpush. split; [simpl; lia|].
    simpl rev. rewrite produced_app, consumed_app, H. simpl.
    now rewrite app_nil_r, <- app_assoc.
Qed.

(** X21. The buffer of [ProducerConsumer] is first in, first out: after
    at most 50 calls from the empty buffer and the empty log, the items
    the log reports as produced, oldest first, are the items it reports
    as consumed, oldest first, followed by the buffer. *)
Theorem pc_first_in_first_out : forall size draws,
  (length draws <= 50)%nat ->
  let st := pc_run size draws (mkPC [] []) in
  produced (rev (pc_log st)) = consumed (rev (pc_log st)) ++ pc_buffer st.
Proof.
  intros size draws Hlen. cbv zeta.
  assert (H : forall draws st,
            (length (pc_log st) + length draws <= 50)%nat ->
            produced (rev (pc_log st)) = consumed (rev (pc_log st)) ++ pc_buffer st ->
            produced (rev (pc_log (pc_run size draws st)))
            = consumed (rev (pc_log (pc_run size draws st)))
              ++ pc_buffer (pc_run size draws st)).
  { clear. induction draws as [|d draws IH]; intros st Hl H; [exact H|].
    unfold pc_run. cbn [fold_left]. simpl length in Hl.
    destruct (pc_tick_fifo size st d ltac:(lia) H) as [Hl' H'].
    apply IH; [lia|assumption]. }
  apply H; [simpl; lia|reflexivity].
Qed.

Lemma pc_first_in_first_out_witness :
  let st := pc_run 2 [(true, 11); (true, 12); (true, 13); (false, 0); (true, 14)]
                   (mkPC [] []) in
  produced (rev (pc_log st)) = consumed (rev (pc_log st)) ++ pc_buffer st.
Proof.
  apply (pc_first_in_first_out 2
           [(true, 11); (true, 12); (true, 13); (false, 0); (true, 14)]).
  simpl. lia.
Defined.

(** ** The toy file system *)

Lemma unique_names_dir : forall name children,
  unique_names (Dir name children)
  <-> NoDup (map node_name children) /\ Forall unique_names children.
Proof.
  intros name children. cbn [unique_names].
  enough (H : (fix all (l : list fs_node) : Prop :=
                 match l with
                 | [] => True
                 | c :: rest => unique_names c /\ all rest
                 end) children <-> Forall unique_names children) by tauto.
  induction children as [|c rest IH]; [split; [constructor|exact (fun _ => I)]|].
  split.
  - intros [Hc Hrest]. constructor; [assumption|now apply IH].
  - intros H. apply Forall_cons_iff in H. destruct H as [Hc Hrest].
    split; [assumption|now apply IH].
Qed.

Section InPlace.
Variable f : fs_node -> fs_node.
Hypothesis f_keeps_name : forall n, node_name (f n) = node_name n.
Hypothesis f_keeps_dir : forall p n, is_dir_named p (f n) = is_dir_named p n.

Lemma at_path_keeps : forall parts node node',
  at_path f parts node = Some node' ->
  node_name node' = node_name node
  /\ forall p, is_dir_named p node' = is_dir_named p node.
Proof.
  intros [|p rest] node node' H.
  - inversion H; subst. split; [apply f_keeps_name|intros; apply f_keeps_dir].
  - destruct node as [name size|name children]; [discriminate H|].
    cbn [at_path] in H.
    destruct (update_child p (at_path f rest) children); [|discriminate H].
    inversion H; subst. now split.
Qed.

(** The in-place change reaches the node [findNode] returns, and where
    [findNode] returns nothing there is nothing to change. *)
Lemma at_path_findNode : forall parts node,
  match findNode node parts with
  | Some target =>
      exists node', at_path f parts node = Some node'
        /\ findNode node' parts = Some (f target)
  | None => at_path f parts node = None
  end.
Proof.
  induction parts as [|p rest IH]; intros node.
  - cbn [findNode at_path]. eexists. split; reflexivity.
  - cbn [findNode at_path].
    destruct node as [name size|name children]; [reflexivity|].
    cbn [children_of].
    induction children as [|c cs IHc]; [reflexivity|].
    cbn [find update_child].
    destruct (is_dir_named p c) eqn:E.
    + specialize (IH c). destruct (findNode c rest) as [target|].
      * destruct IH as [c' [Hc' Hf]]. rewrite Hc'. cbn [option_map].
        eexists. split; [reflexivity|].
        cbn [findNode children_of find].
        destruct (at_path_keeps rest c c' Hc') as [_ Hd].
        now rewrite Hd, E.
      * now rewrite IH.
    + destruct (find (is_dir_named p) cs) as [child|].
      * destruct (findNode child rest) as [target|].
        -- destruct IHc as [node' [Hn Hf]].
           destruct (update_child p (at_path f rest) cs) as [cs'|];
             [|discriminate Hn].
           cbn [option_map] in *. inversion Hn; subst node'.
           eexists. split; [reflexivity|].
           cbn [findNode children_of find] in *. now rewrite E.
        -- destruct (update_child p (at_path f rest) cs); [discriminate IHc|].
           reflexivity.
      * destruct (update_child p (at_path f rest) cs); [discriminate IHc|].
        reflexivity.
Qed.
End InPlace.

Lemma push_child_name : forall n target,
  node_name (push_child n target) = node_name target.
Proof.
  intros n [name size|name children]; [reflexivity|]. cbn [push_child].
  destruct (existsb _ children); reflexivity.
Qed.

Lemma push_child_dir : forall n p target,
  is_dir_named p (push_child n target) = is_dir_named p target.
Proof.
  intros n p [name size|name children]; [reflexivity|]. cbn [push_child].
  destruct (existsb _ children); reflexivity.
Qed.

Lemma add_target_found : forall parts n tree target,
  findNode tree parts = Some target ->
  findNode (add parts n tree) parts = Some (push_child n target).
Proof.
  intros parts n tree target Hfind. unfold add.
  pose proof (at_path_findNode (push_child n) (push_child_name n)
                (fun p t => push_child_dir n p t) parts tree) as H.
  rewrite Hfind in H. destruct H as [tree' [Ht Hf]]. now rewrite Ht.
Qed.


Lemma push_child_unique : forall n target,
  unique_names n -> unique_names target -> unique_names (push_child n target).
Proof.
  intros n [name size|name children] Hn Ht; [exact I|]. cbn [push_child].
  destruct (existsb _ children) eqn:E; [assumption|].
  apply unique_names_dir in Ht. destruct Ht as [Hnd Hall].
  apply unique_names_dir. split.
  - rewrite map_app. apply NoDup_app; [assumption|repeat constructor; intros []|].
    intros x Hx [<-|[]]. apply in_map_iff in Hx. destruct Hx as [c [Hc Hin]].
    assert (Ht : existsb (fun c => String.eqb (node_name c) (node_name n)) children
                 = true).
    { apply existsb_exists. exists c. split; [assumption|]. now apply String.eqb_eq. }
    congruence.
  - apply Forall_app. split; [assumption|]. now repeat constructor.
Qed.

Lemma update_child_unique : forall p (g : fs_node -> option fs_node) children children',
  (forall c c', g c = Some c' ->
     node_name c' = node_name c /\ (unique_names c -> unique_names c')) ->
  update_child p g children = Some children' ->
  map node_name children' = map node_name children
  /\ (Forall unique_names children -> Forall unique_names children').
Proof.
  intros p g children children' Hg. revert children'.
  induction children as [|c cs IH]; intros children' H; [discriminate H|].
  cbn [update_child] in H. destruct (is_dir_named p c).
  - destruct (g c) as [c'|] eqn:E; [|discriminate H].
    inversion H; subst. destruct (Hg c c' E) as [Hname Hu].
    split; [simpl; now rewrite Hname|].
    intros Hall. apply Forall_cons_iff in Hall. destruct Hall as [Hc Hcs].
    constructor; [now apply Hu|assumption].
  - destruct (update_child p g cs) as [cs'|]; [|discriminate H].
    inversion H; subst. destruct (IH cs' eq_refl) as [Hnames Hall'].
    split; [simpl; now rewrite Hnames|].
    intros Hall. apply Forall_cons_iff in Hall. destruct Hall as [Hc Hcs].
    constructor; [assumption|now apply Hall'].
Qed.

Lemma at_path_unique : forall (f : fs_node -> fs_node) parts node node',
  (forall n, node_name (f n) = node_name n) ->
  (forall n, unique_names n -> unique_names (f n)) ->
  at_path f parts node = Some node' ->
  node_name node' = node_name node /\ (unique_names node -> unique_names node').
Proof.
  intros f parts. induction parts as [|p rest IH]; intros node node' Hname Hf H.
  - inversion H; subst. split; [apply Hname|apply Hf].
  - destruct node as [name size|name children]; [discriminate H|].
    cbn [at_path] in H.
    destruct (update_child p (at_path f rest) children) as [cs'|] eqn:E;
      [|discriminate H].
    inversion H; subst. split; [reflexivity|].
    destruct (update_child_unique p (at_path f rest) children cs'
                (fun c c' Hc => IH c c' Hname Hf Hc) E) as [Hnames Hall].
    intros Hu. apply unique_names_dir in Hu. destruct Hu as [Hnd Hcs].
    apply unique_names_dir. split; [now rewrite Hnames|now apply Hall].
Qed.

(** X23. [add] creates no duplicates: in a tree where no two children
    of a directory share a name, this is still so after [add], whatever
    the path, the name and the kind of the new node. *)
Theorem add_keeps_names_unique : forall parts name isDir size tree,
  unique_names tree ->
  unique_names (add parts (new_node name isDir size) tree).
Proof.
  intros parts name isDir size tree Hu.
  assert (Hn : unique_names (new_node name isDir size)).
  { unfold new_node. destruct isDir; [|exact I].
    apply unique_names_dir. split; constructor. }
  unfold add.
  destruct (at_path (push_child (new_node name isDir size)) parts tree)
    as [tree'|] eqn:E.
  - apply (at_path_unique _ parts tree tree'
             (push_child_name _)
             (fun t => push_child_unique _ t Hn) E). assumption.
  - now apply push_child_unique.
Qed.

Lemma add_keeps_names_unique_witness :
  unique_names (Dir "/"%string [Dir "docs"%string []; File "a"%string 3])
  /\ unique_names (add ["docs"%string] (new_node "a"%string false 5)
                       (Dir "/"%string [Dir "docs"%string []; File "a"%string 3])).
Proof.
  assert (H : unique_names (Dir "/"%string [Dir "docs"%string []; File "a"%string 3])).
  { simpl. repeat split; repeat constructor; simpl; intuition discriminate. }
  split; [exact H|].
  apply (add_keeps_names_unique ["docs"%string] "a"%string false 5). exact H.
Defined.

Lemma push_child_twice : forall n target,
  push_child n (push_child n target) = push_child n target.
Proof.
  intros n [name size|name children]; [reflexivity|]. cbn [push_child].
  destruct (existsb _ children) eqn:E.
  - cbn [push_child]. now rewrite E.
  - cbn [push_child]. rewrite existsb_app. cbn [existsb].
    now rewrite String.eqb_refl, orb_true_r.
Qed.

(** A change that leaves the node the path leads to as it is leaves the
    tree as it is. *)
Lemma at_path_fixed : forall (f : fs_node -> fs_node) parts node target,
  findNode node parts = Some target -> f target = target ->
  at_path f parts node = Some node.
Proof.
  intros f parts. induction parts as [|p rest IH]; intros node target Hfind Hfix.
  - inversion Hfind; subst. cbn [at_path]. now rewrite Hfix.
  - cbn [findNode] in Hfind.
    destruct node as [name size|name children]; [discriminate Hfind|].
    cbn [children_of] in Hfind. cbn [at_path].
    enough (H : update_child p (at_path f rest) children = Some children)
      by now rewrite H.
    induction children as [|c cs IHc]; [discriminate Hfind|].
    cbn [find] in Hfind. cbn [update_child].
    destruct (is_dir_named p c).
    + now rewrite (IH c target Hfind Hfix).
    + now rewrite (IHc Hfind).
Qed.

(** X24. Under a path that leads to a directory, [add] with the same
    node a second time changes nothing: the name is taken. *)
Theorem add_twice_is_add_once : forall parts n tree target,
  findNode tree parts = Some target ->
  add parts n (add parts n tree) = add parts n tree.
Proof.
  intros parts n tree target Hfind.
  pose proof (add_target_found parts n tree target Hfind) as Hfound.
  unfold add at 1.
  rewrite (at_path_fixed (push_child n) parts (add parts n tree)
             (push_child n target) Hfound (push_child_twice n target)).
  reflexivity.
Qed.

Lemma add_twice_is_add_once_witness :
  add ["docs"%string] (File "a"%string 5)
      (add ["docs"%string] (File "a"%string 5)
           (Dir "/"%string [Dir "docs"%string []]))
  = add ["docs"%string] (File "a"%string 5) (Dir "/"%string [Dir "docs"%string []]).
Proof.
  apply (add_twice_is_add_once ["docs"%string] (File "a"%string 5)
           (Dir "/"%string [Dir "docs"%string []]) (Dir "docs"%string [])).
  reflexivity.
Defined.

Lemma fat_chain_length : forall file left cur,
  length (fat_chain file left cur) = left.
Proof.
  induction left as [|left IH]; intros cur; [reflexivity|]. simpl. now rewrite IH.
Qed.

Lemma fat_chain_blocks : forall file left c,
  map fat_block (fat_chain file left (Z.of_nat c)) = map Z.of_nat (seq c left).
Proof.
  induction left as [|left IH]; intros c; [reflexivity|].
  cbn [fat_chain map seq fat_block]. f_equal.
  replace (Z.of_nat c + 1) with (Z.of_nat (Datatypes.S c)) by lia. apply IH.
Qed.

Lemma fat_chain_next : forall file left cur,
  Forall (fun e => fat_next e = -1
                   \/ (fat_next e = fat_block e + 1
                       /\ fat_next e < cur + Z.of_nat left))
         (fat_chain file left cur).
Proof.
  induction left as [|left IH]; intros cur; [constructor|].
  cbn [fat_chain]. constructor.
  - cbn [fat_next fat_block]. destruct (0 <? left)%nat eqn:E; [|now left].
    apply Nat.ltb_lt in E. right. split; lia.
  - eapply Forall_impl; [|apply (IH (cur + 1))].
    intros e [H|[H1 H2]]; [now left|right]. split; [assumption|lia].
Qed.

Lemma buildTables_dir : forall name children tb,
  buildTables (Dir name children) tb
  = fold_left (fun tb c => buildTables c tb) children
      (mkTables (fatTable tb)
                (inodeTable tb
                   ++ [mkInode (Z.of_nat (length (inodeTable tb)))
                               (name ++ "/")%string 0 (-1)])
                (blockId tb)).
Proof.
  intros name children tb. cbn [buildTables].
  generalize (mkTables (fatTable tb)
                (inodeTable tb
                   ++ [mkInode (Z.of_nat (length (inodeTable tb)))
                               (name ++ "/")%string 0 (-1)])
                (blockId tb)).
  induction children as [|c rest IH]; intros tb0; [reflexivity|].
  cbn [fold_left]. apply IH.
Qed.

Lemma node_count_dir : forall name children,
  node_count (Dir name children)
  = Datatypes.S (fold_right (fun c a => node_count c + a)%nat O children).
Proof.
  intros name children. reflexivity.
Qed.

Lemma inode_push_ok : forall (inodes : list inode_entry) name size first,
  map inode_no inodes = map Z.of_nat (seq 0 (length inodes)) ->
  map inode_no (inodes ++ [mkInode (Z.of_nat (length inodes)) name size first])
  = map Z.of_nat (seq 0 (length (inodes ++ [mkInode (Z.of_nat (length inodes))
                                                     name size first]))).
Proof.
  intros inodes name size first H. rewrite length_app. cbn [length].
  rewrite seq_app, !map_app, H. reflexivity.
Qed.

Lemma buildTables_ok : forall node tb,
  tables_ok tb ->
  tables_ok (buildTables node tb)
  /\ length (inodeTable (buildTables node tb))
     = (length (inodeTable tb) + node_count node)%nat.
Proof.
  intros node.
  induction node as [name size|name children IH] using fs_node_induction;
    intros tb [Hb [Hid [Hi Hn]]].
  - cbn [buildTables]. cbv zeta. split.
    + unfold tables_ok. cbn [fatTable inodeTable blockId].
      set (blocks := Z.to_nat (block_count size)).
      split; [|split; [|split]].
      * rewrite length_app, fat_chain_length, seq_app, !map_app, Hb, Hid.
        now rewrite fat_chain_blocks.
      * rewrite length_app, fat_chain_length, Hid. lia.
      * now apply inode_push_ok.
      * apply Forall_app. split.
        -- eapply Forall_impl; [|exact Hn].
           intros e [H|[H1 H2]]; [now left|right]. split; [assumption|lia].
        -- apply fat_chain_next.
    + cbn [inodeTable node_count]. rewrite length_app. reflexivity.
  - rewrite buildTables_dir, node_count_dir.
    set (tb0 := mkTables (fatTable tb)
                  (inodeTable tb
                     ++ [mkInode (Z.of_nat (length (inodeTable tb)))
                                 (name ++ "/")%string 0 (-1)])
                  (blockId tb)).
    assert (H0 : tables_ok tb0
                 /\ length (inodeTable tb0) = (length (inodeTable tb) + 1)%nat).
    { split; [|subst tb0; cbn [inodeTable]; rewrite length_app; reflexivity].
      unfold tables_ok. subst tb0. cbn [fatTable inodeTable blockId].
      split; [assumption|]. split; [assumption|]. split; [|assumption].
      now apply inode_push_ok. }
    destruct H0 as [Hok0 Hlen0].
    replace (length (inodeTable tb)
             + Datatypes.S (fold_right (fun c a => node_count c + a) O children))%nat
      with (length (inodeTable tb0)
            + fold_right (fun c a => node_count c + a) O children)%nat by lia.
    clearbody tb0. clear Hb Hid Hi Hn Hlen0 tb. revert tb0 Hok0.
    induction IH as [|c rest Hc Hrest IHrest]; intros tb0 Hok0.
    + cbn [fold_left fold_right]. split; [assumption|lia].
    + cbn [fold_left fold_right].
      destruct (Hc tb0 Hok0) as [Hok1 Hlen1].
      destruct (IHrest (buildTables c tb0) Hok1) as [Hok2 Hlen2].
      split; [assumption|]. rewrite Hlen2, Hlen1. lia.
Qed.

(** X25. The tables [buildTables] fills from empty for a tree: the FAT
    numbers its blocks from 0 in table order, every [next] is -1 or the
    number of the following block, which is in the table; the inode
    table numbers its entries from 0 in table order and has one entry
    per node of the tree. *)
Theorem tables_are_numbered : forall tree,
  let tb := buildTables tree (mkTables [] [] 0) in
  map fat_block (fatTable tb) = map Z.of_nat (seq 0 (length (fatTable tb)))
  /\ Forall (fun e => fat_next e = -1
                      \/ (fat_next e = fat_block e + 1
                          /\ fat_next e < Z.of_nat (length (fatTable tb))))
            (fatTable tb)
  /\ map inode_no (inodeTable tb) = map Z.of_nat (seq 0 (length (inodeTable tb)))
  /\ length (inodeTable tb) = node_count tree.
Proof.
  intros tree tb.
  destruct (buildTables_ok tree (mkTables [] [] 0)) as [[Hb [Hid [Hi Hn]]] Hlen].
  - unfold tables_ok. cbn [fatTable inodeTable blockId length seq map].
    repeat split; constructor.
  - fold tb in Hb, Hid, Hi, Hn, Hlen.
    split; [assumption|]. split; [now rewrite <- Hid|]. split; [assumption|].
    exact Hlen.
Qed.

(** ** The safety check finds a safe order whenever there is one *)

Lemma sum_app : forall l1 l2 : list Z,
  fold_right Z.add 0 (l1 ++ l2) = fold_right Z.add 0 l1 + fold_right Z.add 0 l2.
Proof.
  induction l1 as [|a l1 IH]; intros l2; simpl; [reflexivity|]. rewrite IH. lia.
Qed.

Lemma sum_nonneg : forall (f : nat -> Z) l,
  (forall k, 0 <= f k) -> 0 <= fold_right Z.add 0 (map f l).
Proof.
  intros f l Hf. induction l as [|a l IH]; simpl; [lia|].
  specialize (Hf a). lia.
Qed.

(** With no negative term, a sum over some of the indices is at most
    the sum over more of them. *)
Lemma sum_incl : forall (f : nat -> Z) l l',
  (forall k, 0 <= f k) -> NoDup l -> incl l l' ->
  fold_right Z.add 0 (map f l) <= fold_right Z.add 0 (map f l').
Proof.
  intros f l. induction l as [|a l IH]; intros l' Hf Hnd Hincl.
  - simpl. now apply sum_nonneg.
  - apply NoDup_cons_iff in Hnd. destruct Hnd as [Ha Hnd].
    assert (Hin : In a l') by (apply Hincl; now left).
    apply in_split in Hin. destruct Hin as [x [y ->]].
    assert (Hsub : incl l (x ++ y)).
    { intros b Hb. assert (Hb' : In b (x ++ a :: y)) by (apply Hincl; now right).
      apply in_app_or in Hb'. apply in_or_app.
      destruct Hb' as [Hb'|[<-|Hb']]; [now left|contradiction|now right]. }
    specialize (IH (x ++ y) Hf Hnd Hsub).
    rewrite !map_app, !sum_app in *. simpl. lia.
Qed.

Lemma nth_add_row : forall m w row j,
  (j < m)%nat -> nth j (add_row m w row) 0 = nth j w 0 + nth j row 0.
Proof.
  intros m w row j Hj. unfold add_row.
  now rewrite (nth_map_seq _ (fun j => nth j w 0 + nth j row 0) 0 m 0 j Hj).
Qed.

(** [work] is [available] plus the allocations of the processes that
    have finished. *)
Lemma work_after_sum : forall available alloc done j,
  (j < length available)%nat ->
  nth j (work_after available alloc done) 0
  = nth j available 0
    + fold_right Z.add 0 (map (fun k => nth j (nth k alloc []) 0) done).
Proof.
  intros available alloc done j Hj. unfold work_after.
  generalize available at 2 3 as w.
  induction done as [|k done IH]; intros w; simpl; [lia|].
  rewrite IH, nth_add_row by assumption. lia.
Qed.

Lemma alloc_nonneg : forall (alloc : list (list Z)) k j,
  Forall (Forall (fun x => 0 <= x)) alloc -> 0 <= nth j (nth k alloc []) 0.
Proof.
  intros alloc k j H.
  destruct (nth_in_or_default k alloc []) as [Hk | ->];
    [|destruct j; simpl; lia].
  rewrite Forall_forall in H. specialize (H _ Hk).
  destruct (nth_in_or_default j (nth k alloc []) 0) as [Hj | ->]; [|lia].
  rewrite Forall_forall in H. now apply H.
Qed.

(** The first process of an order that another order lacks. *)
Lemma first_missing : forall (sigma order : list nat) i0,
  In i0 sigma -> ~ In i0 order ->
  exists pre i post,
    sigma = pre ++ i :: post /\ ~ In i order /\ incl pre order.
Proof.
  induction sigma as [|a sigma IH]; intros order i0 Hin Hout; [destruct Hin|].
  destruct (in_dec Nat.eq_dec a order) as [Ha|Ha].
  - destruct Hin as [->|Hin]; [contradiction|].
    destruct (IH order i0 Hin Hout) as [pre [i [post [E [Hi Hpre]]]]].
    exists (a :: pre), i, post. split; [simpl; now rewrite E|].
    split; [assumption|]. intros b [<-|Hb]; auto.
  - exists [], a, sigma. split; [reflexivity|]. split; [assumption|intros b []].
Qed.

Lemma finish_orderb_sound : forall available max alloc rest pre,
  finish_order available max alloc pre ->
  finish_orderb available max alloc pre rest = true ->
  finish_order available max alloc (pre ++ rest).
Proof.
  intros available max alloc rest.
  induction rest as [|i rest IH]; intros pre Hpre H.
  - now rewrite app_nil_r.
  - cbn [finish_orderb] in H. apply andb_true_iff in H. destruct H as [Hi Hrest].
    change (i :: rest) with ([i] ++ rest). rewrite app_assoc.
    apply IH; [|assumption]. apply finish_order_snoc; [assumption|].
    unfold can_finishb in Hi. rewrite forallb_forall in Hi.
    intros j Hj. apply Z.leb_le. apply Hi. apply in_seq. lia.
Qed.

(** X26. With matching dimensions and no negative allocation, [isSafe]
    answers safe whenever the processes can finish in some order, each
    one finishable ([need <= work]) when its turn comes; the sequence it
    returns is then such an order of all processes, none twice. *)
Theorem isSafe_finds_safe_order : forall available max alloc sigma,
  well_dimensioned available max alloc ->
  Forall (Forall (fun x => 0 <= x)) alloc ->
  NoDup sigma ->
  (forall i, In i sigma <-> (i < length max)%nat) ->
  finish_order available max alloc sigma ->
  exists r,
    isSafe available max alloc = Some (Returned r)
    /\ safe r = true
    /\ NoDup (sequence r)
    /\ (forall i, In i (sequence r) <-> (i < length max)%nat)
    /\ finish_order available max alloc (sequence r).
Proof.
  intros available max alloc sigma WD Hpos Hnd Hall Hsigma.
  destruct (scan_terminates available max alloc WD)
    as [st [Hrun [[Hw [Hfl [Hfin [Hnds [Hb Hord]]]]] [Hstuck Hscan]]]].
  assert (Hfull : forall i, (i < length max)%nat -> In i (b_seq st)).
  { intros i0 Hi0.
    destruct (in_dec Nat.eq_dec i0 (b_seq st)) as [|Hout]; [assumption|].
    exfalso.
    destruct (first_missing sigma (b_seq st) i0 (proj2 (Hall i0) Hi0) Hout)
      as [pre [i [post [E [Hi Hpre]]]]].
    assert (Hin : (i < length max)%nat)
      by (apply Hall; rewrite E; apply in_or_app; right; now left).
    apply (Hstuck i Hin Hi). intros j Hj.
    specialize (Hsigma pre i post E j Hj).
    rewrite work_after_sum in * by assumption.
    assert (Hndpre : NoDup pre).
    { rewrite E in Hnd. now apply NoDup_app_remove_r in Hnd. }
    pose proof (sum_incl (fun k => nth j (nth k alloc []) 0) pre (b_seq st)
                  (fun k => alloc_nonneg alloc k j Hpos) Hndpre Hpre).
    lia. }
  assert (Hsafe : forallb (fun f => f) (b_finish st) = true).
  { rewrite forallb_id_nth, Hfl. intros i Hi. apply Hfin; [assumption|].
    now apply Hfull. }
  eexists. unfold isSafe. cbv zeta.
  rewrite (need_rows_ok available max alloc WD), Hrun.
  split; [reflexivity|]. cbn [safe sequence]. rewrite Hsafe.
  split; [reflexivity|]. split; [assumption|]. split; [|assumption].
  intros i. split; [apply Hb|apply Hfull].
Qed.

Lemma isSafe_finds_safe_order_witness :
  exists r,
    isSafe classic_available classic_max classic_alloc = Some (Returned r)
    /\ safe r = true
    /\ NoDup (sequence r)
    /\ (forall i, In i (sequence r) <-> (i < length classic_max)%nat)
    /\ finish_order classic_available classic_max classic_alloc (sequence r).
Proof.
  apply (isSafe_finds_safe_order classic_available classic_max classic_alloc
           [3; 1; 0; 2; 4]%nat).
  - split; [reflexivity|]. split; repeat constructor.
  - repeat constructor; lia.
  - repeat constructor; simpl; lia.
  - intros i. simpl. lia.
  - apply (finish_orderb_sound classic_available classic_max classic_alloc
             [3; 1; 0; 2; 4]%nat []).
    + intros pre i post E. destruct pre; discriminate E.
    + vm_compute. reflexivity.
Defined.

(** ** One segment per process *)

Lemma in_one_piece_run : forall processes marked schedule p t,
  in_one_piece processes marked schedule ->
  In p processes -> ~ In (pid p) marked ->
  in_one_piece processes (set_add marked (pid p))
    (schedule ++ [mkSegment (pid p) t (Some (t + burst p))]).
Proof.
  intros processes marked schedule p t [Hpids Hall] Hp Hfresh.
  rewrite set_add_fresh by assumption. split.
  - rewrite map_app, Hpids. reflexivity.
  - apply Forall_app. split; [assumption|]. constructor; [|constructor].
    exists p. cbn [seg_pid seg_start seg_end]. now repeat split.
Qed.

Lemma in_one_piece_done : forall processes marked schedule,
  marked_inv processes marked schedule ->
  in_one_piece processes marked schedule ->
  (length processes <= length marked)%nat ->
  Permutation (map seg_pid schedule) (map pid processes)
  /\ Forall (whole_burst processes) schedule.
Proof.
  intros processes marked schedule [Hnd [Hincl _]] [Hpids Hall] Hlen.
  split; [|assumption]. rewrite Hpids.
  apply NoDup_Permutation_bis; [assumption| |assumption].
  now rewrite length_map.
Qed.

Lemma prio_step_pieces : forall processes st,
  valid_processes processes ->
  marked_inv processes (prio_done st) (prio_schedule st)
  /\ in_one_piece processes (prio_done st) (prio_schedule st) ->
  match prio_step processes st with
  | inl st' =>
      marked_inv processes (prio_done st') (prio_schedule st')
      /\ in_one_piece processes (prio_done st') (prio_schedule st')
  | inr schedule =>
      Permutation (map seg_pid schedule) (map pid processes)
      /\ Forall (whole_burst processes) schedule
  end.
Proof.
  intros processes st Hv [HI HP].
  pose proof (prio_step_ok processes st Hv HI) as Hok.
  unfold prio_step in *.
  destruct (length (prio_done st) <? length processes)%nat eqn:G.
  - destruct (sort_by _ _) as [|p rest] eqn:Es.
    + destruct Hok as [HI' _]. split; assumption.
    + destruct Hok as [HI' _]. split; [exact HI'|].
      cbn [prio_done prio_schedule].
      assert (Hin : In p (sort_by (fun p => nullish (priority p) 0)
                            (filter (fun p => (arrival p <=? prio_t st)
                                              && negb (set_has (prio_done st) (pid p)))
                                    processes)))
        by (rewrite Es; now left).
      apply (Permutation_in p (sort_by_perm _ _ _)) in Hin.
      apply filter_In in Hin. destruct Hin as [Hp Hc].
      apply andb_true_iff in Hc. destruct Hc as [_ Hnd].
      apply negb_true_iff, set_has_false in Hnd.
      now apply in_one_piece_run.
  - apply Nat.ltb_ge in G. now apply (in_one_piece_done processes (prio_done st)).
Qed.

Lemma sjf_step_pieces : forall processes st,
  valid_processes processes ->
  sjf_inv processes st
  /\ in_one_piece processes (sjf_seen st) (sjf_schedule st) ->
  match sjf_step processes st with
  | inl st' =>
      sjf_inv processes st'
      /\ in_one_piece processes (sjf_seen st') (sjf_schedule st')
  | inr schedule =>
      Permutation (map seg_pid schedule) (map pid processes)
      /\ Forall (whole_burst processes) schedule
  end.
Proof.
  intros processes st Hv [HI HP].
  pose proof (sjf_step_ok processes st Hv HI) as Hok.
  destruct HI as [HI [Hnd Hin]].
  unfold sjf_step in *.
  destruct (length (sjf_seen st) <? length processes)%nat eqn:G.
  - destruct (sjf_admit_all processes (sjf_seen st) (sjf_t st) processes
                (sjf_ready st) (incl_refl _) Hnd Hin) as [_ [A2 _]].
    cbv zeta in *.
    destruct (sort_by burst _) as [|p rest] eqn:Es.
    + destruct Hok as [HI' _]. split; assumption.
    + destruct Hok as [HI' _]. split; [exact HI'|].
      cbn [sjf_seen sjf_schedule].
      assert (Hp : In p (fold_left (sjf_admit (sjf_seen st) (sjf_t st)) processes
                                   (sjf_ready st))).
      { apply (Permutation_in p (sort_by_perm _ burst _)). rewrite Es. now left. }
      destruct (A2 p Hp) as [Hpp Hps].
      now apply in_one_piece_run.
  - apply Nat.ltb_ge in G. now apply (in_one_piece_done processes (sjf_seen st)).
Qed.

(** X27. [sjf] and [priorityNonPreemptive] do not preempt: for every
    valid process list each returns a schedule with exactly one segment
    per process, and every segment lasts the whole burst of its
    process. *)
Theorem one_segment_per_process : forall processes fuel,
  valid_processes processes -> (enough_fuel processes <= fuel)%nat ->
  (exists s, sjf fuel processes = Some s
     /\ Permutation (map seg_pid s) (map pid processes)
     /\ Forall (whole_burst processes) s)
  /\ (exists s, priorityNonPreemptive fuel processes = Some s
        /\ Permutation (map seg_pid s) (map pid processes)
        /\ Forall (whole_burst processes) s).
Proof.
  intros processes fuel Hv Hfuel. split.
  - destruct (sjf_conserves processes fuel Hv Hfuel) as [s [Hs _]].
    exists s. split; [assumption|]. unfold sjf in Hs.
    apply (while_loop_result _ _ (sjf_step processes)
             (fun st => sjf_inv processes st
                        /\ in_one_piece processes (sjf_seen st) (sjf_schedule st))
             (fun s => Permutation (map seg_pid s) (map pid processes)
                       /\ Forall (whole_burst processes) s)
             (fun st HI => sjf_step_pieces processes st Hv HI)
             fuel (mkSjf [] (min_arrival processes) [] []) s); [|assumption].
    split.
    + split; [apply marked_inv_init|]. split; [constructor|]. intros r [].
    + split; [reflexivity|constructor].
  - destruct (priority_conserves processes fuel Hv Hfuel) as [s [Hs _]].
    exists s. split; [assumption|]. unfold priorityNonPreemptive in Hs.
    apply (while_loop_result _ _ (prio_step processes)
             (fun st => marked_inv processes (prio_done st) (prio_schedule st)
                        /\ in_one_piece processes (prio_done st) (prio_schedule st))
             (fun s => Permutation (map seg_pid s) (map pid processes)
                       /\ Forall (whole_burst processes) s)
             (fun st HI => prio_step_pieces processes st Hv HI)
             fuel (mkPrio (min_arrival processes) [] []) s); [|assumption].
    split; [apply marked_inv_init|]. split; [reflexivity|constructor].
Qed.

Lemma one_segment_per_process_witness :
  valid_processes demo
  /\ (exists s, sjf (enough_fuel demo) demo = Some s
        /\ Permutation (map seg_pid s) (map pid demo)
        /\ Forall (whole_burst demo) s)
  /\ (exists s, priorityNonPreemptive (enough_fuel demo) demo = Some s
        /\ Permutation (map seg_pid s) (map pid demo)
        /\ Forall (whole_burst demo) s).
Proof.
  split; [exact demo_valid|].
  apply (one_segment_per_process demo (enough_fuel demo) demo_valid).
  apply Nat.le_refl.
Defined.
